(** * SSWM speckle filters: a shallow embedding of [SSWM/preprocess/filters.py]

    The filters work on numpy arrays of IEEE 754 numbers.  Floating-point
    values are [spec_float]s of the Standard Library, computed with its
    correctly rounded operations at the binary32 and binary64 formats, so
    every definition below can be run on a concrete image.

    Conventions.
    - An array that the source writes in place or returns is a cell of an
      explicit heap, and Python names are references to cells.  An array the
      source only reads after making it (the masks, [Ci], [W], [R2]) is a
      let-bound value.
    - The raster data sets of the band driver live in a small world of GDAL
      handles, with a log of what was done to them.  A band has the data
      type it was created with: what is written into it is converted to
      that type.
    - Type promotion is that of numpy 1.x, the line the imports of the source
      ([scipy.ndimage.filters]) belong to: a float64 scalar does not widen a
      float32 array, a Python [int] never changes the type of an array.
    - Where numpy and scipy add up many values (window sums, means), the sum
      is taken from left to right. *)

From Stdlib Require Import ZArith Bool Lia Ascii String.
From Stdlib Require Import Floats.SpecFloat.
From stdpp Require Import base list strings.

Open Scope Z_scope.

(* ================================================================= *)
(** ** IEEE 754 arithmetic at the two formats numpy uses here *)

Module IEEE.

Inductive format := B32 | B64.

Definition prec (f : format) : Z := match f with B32 => 24 | B64 => 53 end.
Definition emax (f : format) : Z := match f with B32 => 128 | B64 => 1024 end.

Definition pzero : spec_float := S754_zero false.

Definition add (f : format) := SFadd (prec f) (emax f).
Definition sub (f : format) := SFsub (prec f) (emax f).
Definition mul (f : format) := SFmul (prec f) (emax f).
Definition div (f : format) := SFdiv (prec f) (emax f).
Definition sqrt (f : format) := SFsqrt (prec f) (emax f).
Definition abs : spec_float -> spec_float := SFabs.

(** Comparisons: every comparison with a NaN is false. *)
Definition ltb : spec_float -> spec_float -> bool := SFltb.
Definition leb : spec_float -> spec_float -> bool := SFleb.
Definition geb (x y : spec_float) : bool := SFleb y x.

(** C's [x != 0]: true for NaN, false for both zeros. *)
Definition nonzero (x : spec_float) : bool :=
  match x with S754_zero _ => false | _ => true end.

(** The value [m * 2^e] rounded to nearest-even in format [f]. *)
Definition of_scaled (f : format) (m e : Z) : spec_float :=
  binary_normalize (prec f) (emax f) m e false.

Definition of_Z (f : format) (z : Z) : spec_float := of_scaled f z 0.

(** Conversion between formats (widening is exact, narrowing rounds). *)
Definition cast (f : format) (x : spec_float) : spec_float :=
  match x with
  | S754_finite s m e => binary_normalize (prec f) (emax f) (cond_Zopp s (Zpos m)) e s
  | _ => x
  end.

(** C's conversion of a double to an integer type: the fraction is dropped. *)
Definition trunc (x : spec_float) : Z :=
  match x with
  | S754_finite s m e =>
      cond_Zopp s (match e with
                   | Zneg p => Z.shiftr (Zpos m) (Zpos p)
                   | _ => Z.shiftl (Zpos m) e
                   end)
  | _ => 0
  end.

Definition of_bool (f : format) (b : bool) : spec_float :=
  if b then of_Z f 1 else pzero.

End IEEE.

(* ================================================================= *)
(** ** Two-dimensional arrays *)

Abbreviation matrix A := (list (list A)).

Definition mget {A} (a : matrix A) (i j : nat) : option A :=
  a !! i ≫= (.!! j).

Definition mmap {A B} (f : A -> B) (a : matrix A) : matrix B :=
  (fun r : list A => f <$> r) <$> a.

Definition mzip {A B C} (f : A -> B -> C) (a : matrix A) (b : matrix B) : matrix C :=
  zip_with (zip_with f) a b.

(** [a[mask]]: the selected entries as a flat list, in row-major order. *)
Definition mselect {A} (mask : matrix bool) (a : matrix A) : list A :=
  concat (zip_with (fun mr ar => snd <$> filter (fun p => fst p = true) (zip mr ar)) mask a).

Definition mall {A} (p : A -> bool) (a : matrix A) : bool :=
  forallb (forallb p) a.

(* ================================================================= *)
(** ** Integer element types *)

Inductive ity := I8 | U8 | I16 | U16 | I32 | U32 | I64 | U64.

Definition ity_signed (t : ity) : bool :=
  match t with I8 | I16 | I32 | I64 => true | _ => false end.

Definition ity_bits (t : ity) : Z :=
  match t with I8 | U8 => 8 | I16 | U16 => 16 | I32 | U32 => 32 | I64 | U64 => 64 end.

(** Two's-complement wrap-around of a mathematical integer into type [t]. *)
Definition wrap (t : ity) (z : Z) : Z :=
  let m := 2 ^ ity_bits t in
  if ity_signed t then (z + m / 2) mod m - m / 2 else z mod m.

(* ================================================================= *)
(** ** numpy arrays and their element types *)

Inductive dtype := DInt (t : ity) | DFloat (f : IEEE.format).

Definition float32 : dtype := DFloat IEEE.B32.
Definition float64 : dtype := DFloat IEEE.B64.

#[global] Instance ity_eq_dec : EqDecision ity.
Proof. solve_decision. Defined.

#[global] Instance format_eq_dec : EqDecision IEEE.format.
Proof. solve_decision. Defined.

Inductive ndarray :=
| IntArr (t : ity) (a : matrix Z)
| FloatArr (f : IEEE.format) (a : matrix spec_float).

Definition dtype_of (x : ndarray) : dtype :=
  match x with IntArr t _ => DInt t | FloatArr f _ => DFloat f end.

(** What scipy's line buffers need of an element type: conversion to and
    from C doubles. *)
Record elem (A : Type) := Elem {
  to_double : A -> spec_float;
  of_double : spec_float -> A;
  elem0 : A }.
Arguments Elem {A}.
Arguments to_double {A}.
Arguments of_double {A}.
Arguments elem0 {A}.

Definition float_elem (f : IEEE.format) : elem spec_float :=
  Elem (IEEE.cast IEEE.B64) (IEEE.cast f) IEEE.pzero.

Definition int_elem (t : ity) : elem Z :=
  Elem (IEEE.of_Z IEEE.B64) (fun d => wrap t (IEEE.trunc d)) 0.

(* ================================================================= *)
(** ** The library routines the filters call

    [scipy.ndimage.uniform_filter], [label] and [variance] and numpy's [exp]
    are not part of the repository; they are written out here after their
    documented behaviour, with the defaults the source relies on. *)

Module Ndimage.

(** Border mode [reflect] (the default): [d c b a | a b c d | d c b a]. *)
Definition reflect (n i : Z) : Z :=
  let p := i mod (2 * n) in
  if p <? n then p else 2 * n - 1 - p.

Definition line_get {A} (e : elem A) (line : list A) (i : Z) : A :=
  default (elem0 e) (line !! Z.to_nat (reflect (Z.of_nat (length line)) i)).

(** Mean of the [size] samples starting [size / 2] to the left of [i],
    accumulated in a C double.  (The C routine carries a running sum from
    one window to the next; each window is summed afresh here, which is the
    same number as long as the sums are exact.) *)
Definition window_mean {A} (e : elem A) (size : Z) (line : list A) (i : Z) : spec_float :=
  let start := i - size / 2 in
  let total :=
    foldl (fun acc k => IEEE.add IEEE.B64 acc (to_double e (line_get e line (start + k))))
          IEEE.pzero (seqZ 0 size) in
  IEEE.div IEEE.B64 total (IEEE.of_Z IEEE.B64 size).

Definition uniform_filter1d {A} (e : elem A) (size : Z) (line : list A) : list A :=
  imap (fun i _ => of_double e (window_mean e size line (Z.of_nat i))) line.

Definition column {A} (e : elem A) (a : matrix A) (j : nat) : list A :=
  (fun r : list A => default (elem0 e) (r !! j)) <$> a.

Definition filter_axis0 {A} (e : elem A) (size : Z) (a : matrix A) : matrix A :=
  imap (fun i (row : list A) =>
          imap (fun j _ => of_double e (window_mean e size (column e a j) (Z.of_nat i))) row) a.

Definition filter_axis1 {A} (e : elem A) (size : Z) (a : matrix A) : matrix A :=
  uniform_filter1d e size <$> a.

(** [uniform_filter(input, size)]: one pass per axis, in axis order, each
    pass storing into the array's own element type; an axis whose size is
    not above 1 is skipped. *)
Definition uniform_filter {A} (e : elem A) (size : Z * Z) (a : matrix A) : matrix A :=
  let a0 := if 1 <? fst size then filter_axis0 e (fst size) a else a in
  if 1 <? snd size then filter_axis1 e (snd size) a0 else a0.

(** *** Connected-component labelling, 4-connectivity (the default
    structuring element): non-zero entries are features, zero is the
    background; features are numbered 1, 2, ... in raster order of their
    first pixel. *)

Definition ncols {A} (a : matrix A) : nat := foldr Nat.max 0%nat (length <$> a).

Definition pixel_id (w i j : nat) : Z := Z.of_nat (i * w + j) + 1.

Definition label_init (fg : matrix bool) : matrix Z :=
  imap (fun i (row : list bool) =>
          imap (fun j (b : bool) => if b then pixel_id (ncols fg) i j else 0) row) fg.

Definition min_label (x y : Z) : Z := if y =? 0 then x else Z.min x y.

Definition neighbour (l : matrix Z) (i j : nat) : Z := default 0 (mget l i j).

Definition label_step (l : matrix Z) : matrix Z :=
  imap (fun i (row : list Z) =>
          imap (fun j (x : Z) =>
                  if x =? 0 then 0
                  else min_label (min_label (min_label (min_label x
                         (neighbour l (Nat.pred i) j)) (neighbour l (S i) j))
                         (neighbour l i (Nat.pred j))) (neighbour l i (S j))) row) l.

Definition label_roots (w : nat) (l : matrix Z) : list Z :=
  concat (imap (fun i (row : list Z) =>
                  omap (fun p : nat * Z =>
                          if (snd p =? pixel_id w i (fst p)) then Some (snd p) else None)
                       (imap pair row)) l).

Definition label_rank (roots : list Z) (x : Z) : Z :=
  if x =? 0 then 0
  else Z.of_nat (length (filter (fun r => r < x) roots)) + 1.

Definition label (fg : matrix bool) : matrix Z * Z :=
  let l := Nat.iter (length fg * ncols fg) label_step (label_init fg) in
  let roots := label_roots (ncols fg) l in
  (mmap (label_rank roots) l, Z.of_nat (length roots)).

(** *** [variance(input, labels=None, index=None)]

    With [index=None] the result is one number: the variance of all of
    [input] when there are no labels, and of [input[labels > 0]] when
    there are.  The mean and the squared deviations are computed in the
    values' own floating-point type (integers are first made doubles), the
    final division by the count in double. *)

Definition fsum (f : IEEE.format) (l : list spec_float) : spec_float :=
  foldl (IEEE.add f) IEEE.pzero l.

Definition variance_vals (f : IEEE.format) (vals : list spec_float) : spec_float :=
  let n := Z.of_nat (length vals) in
  let mean := IEEE.div f (fsum f vals) (IEEE.of_Z f n) in
  let dev2 := (fun v => let c := IEEE.sub f v mean in IEEE.mul f c c) <$> vals in
  IEEE.div IEEE.B64 (IEEE.cast IEEE.B64 (fsum f dev2)) (IEEE.of_Z IEEE.B64 n).

Definition select_all {A} (labels : option (matrix Z)) (a : matrix A) : list A :=
  match labels with
  | None => concat a
  | Some l => mselect (mmap (fun x => 0 <? x) l) a
  end.

Definition variance (input : ndarray) (labels : option (matrix Z)) : spec_float :=
  match input with
  | FloatArr f a => variance_vals f (select_all labels a)
  | IntArr _ a => variance_vals IEEE.B64 (IEEE.of_Z IEEE.B64 <$> select_all labels a)
  end.

End Ndimage.

Module Numpy.

(** *** [np.exp]

    The IEEE special cases are exact: [exp(NaN) = NaN], [exp(+inf) = +inf],
    [exp(-inf) = 0], [exp(0) = 1].  A finite non-zero argument below [2^11]
    in size is evaluated in fixed point with [exp_bits] fractional bits
    (argument halved eight times, Taylor series, eight squarings) and rounded
    once to the format; beyond [2^11] the result is the overflow or the
    underflow value. *)

Definition exp_bits : Z := 200.

Definition fx_mul (x y : Z) : Z := Z.shiftr (x * y) exp_bits.

Fixpoint exp_series (n : nat) (k term acc r : Z) : Z :=
  match n with
  | O => acc
  | S n' => let term' := fx_mul term r / k in
            exp_series n' (k + 1) term' (acc + term') r
  end.

Definition exp_fixed (x : Z) : Z :=
  let one := Z.shiftl 1 exp_bits in
  let y := exp_series 60 1 one one (Z.shiftr x 8) in
  Nat.iter 8 (fun y => fx_mul y y) y.

Definition exp (f : IEEE.format) (x : spec_float) : spec_float :=
  match x with
  | S754_nan => S754_nan
  | S754_infinity false => S754_infinity false
  | S754_infinity true => S754_zero false
  | S754_zero _ => IEEE.of_Z f 1
  | S754_finite s m e =>
      if 11 <? Z.pos (digits2_pos m) + e
      then (if s then S754_zero false else S754_infinity false)
      else IEEE.of_scaled f
             (exp_fixed (cond_Zopp s (Z.shiftl (Z.pos m) (e + exp_bits)))) (- exp_bits)
  end.

(** *** Element types of results (numpy 1.x promotion)

    Two arrays: integers of one type keep it; integers of different types
    go to the smallest integer type holding both (or to float64 when there
    is none); an integer array meeting a float array goes to float32 when
    16 bits suffice and the other side is float32, to float64 otherwise. *)

Definition promote_int (t u : ity) : dtype :=
  if decide (t = u) then DInt t
  else
    let bt := ity_bits t in
    let bu := ity_bits u in
    let of_bits (signed : bool) (b : Z) : dtype :=
      if signed
      then DInt (if b <=? 8 then I8 else if b <=? 16 then I16 else if b <=? 32 then I32 else I64)
      else DInt (if b <=? 8 then U8 else if b <=? 16 then U16 else if b <=? 32 then U32 else U64) in
    match ity_signed t, ity_signed u with
    | true, true => of_bits true (Z.max bt bu)
    | false, false => of_bits false (Z.max bt bu)
    | true, false => if bu <? bt then DInt t else if bu <? 64 then of_bits true (2 * bu) else float64
    | false, true => if bt <? bu then DInt u else if bt <? 64 then of_bits true (2 * bt) else float64
    end.

Definition promote (d1 d2 : dtype) : dtype :=
  match d1, d2 with
  | DInt t, DInt u => promote_int t u
  | DFloat IEEE.B32, DFloat IEEE.B32 => float32
  | DFloat _, DFloat _ => float64
  | DInt t, DFloat IEEE.B32 | DFloat IEEE.B32, DInt t =>
      if ity_bits t <=? 16 then float32 else float64
  | DInt _, DFloat IEEE.B64 | DFloat IEEE.B64, DInt _ => float64
  end.

(** The entries of [x] as floats of format [f]: as they are when that is
    the type of [x], converted (rounded) otherwise. *)
Definition as_float (f : IEEE.format) (x : ndarray) : matrix spec_float :=
  match x with
  | IntArr _ a => mmap (IEEE.of_Z f) a
  | FloatArr f' a => if decide (f' = f) then a else mmap (IEEE.cast f) a
  end.

(** The entries of [x] as integers of type [t], as C converts: integers
    wrap, floats lose their fraction. *)
Definition as_int (t : ity) (x : ndarray) : matrix Z :=
  match x with
  | IntArr t' a => if decide (t' = t) then a else mmap (wrap t) a
  | FloatArr _ a => mmap (fun v => wrap t (IEEE.trunc v)) a
  end.

Definition astype (d : dtype) (x : ndarray) : ndarray :=
  match d with
  | DInt t => IntArr t (as_int t x)
  | DFloat f => FloatArr f (as_float f x)
  end.

(** [np.array(obj, dtype=d)] and [np.copy(obj)]: always a new array. *)
Definition array (x : ndarray) (d : dtype) : ndarray := astype d x.
Definition copy (x : ndarray) : ndarray := x.

(** An arithmetic ufunc on two arrays: both sides are converted to the
    promoted type, the loop runs in it, integer results wrap around. *)
Definition arith (opi : Z -> Z -> Z) (opf : IEEE.format -> spec_float -> spec_float -> spec_float)
           (x y : ndarray) : ndarray :=
  match promote (dtype_of x) (dtype_of y) with
  | DInt t => IntArr t (mzip (fun u v => wrap t (opi u v)) (as_int t x) (as_int t y))
  | DFloat f => FloatArr f (mzip (opf f) (as_float f x) (as_float f y))
  end.

Definition add := arith Z.add IEEE.add.
Definition subtract := arith Z.sub IEEE.sub.
Definition multiply := arith Z.mul IEEE.mul.

(** [/] is true division: integer operands are made float64 first. *)
Definition divide (x y : ndarray) : ndarray :=
  match promote (dtype_of x) (dtype_of y) with
  | DInt _ => FloatArr IEEE.B64 (mzip (IEEE.div IEEE.B64) (as_float IEEE.B64 x) (as_float IEEE.B64 y))
  | DFloat f => FloatArr f (mzip (IEEE.div f) (as_float f x) (as_float f y))
  end.

(** [np.square(x)] and [x ** 2]: in the array's own type. *)
Definition square (x : ndarray) : ndarray :=
  match x with
  | IntArr t a => IntArr t (mmap (fun v => wrap t (v * v)) a)
  | FloatArr f a => FloatArr f (mmap (fun v => IEEE.mul f v v) a)
  end.

(** [np.sqrt(x)]: a float array keeps its type.  The root of an integer array
    is a float array, given here in float64 for every integer type (numpy
    takes float16 for 8-bit and float32 for 16-bit integers). *)
Definition sqrt (x : ndarray) : ndarray :=
  match x with
  | IntArr _ a => FloatArr IEEE.B64 (mmap (fun v => IEEE.sqrt IEEE.B64 (IEEE.of_Z IEEE.B64 v)) a)
  | FloatArr f a => FloatArr f (mmap (IEEE.sqrt f) a)
  end.

(** An array and a float64 scalar (numpy 1.x): a float array keeps its
    type and the scalar is rounded to it; an integer array becomes
    float64.  [scalar_left] tells on which side the scalar stands. *)
Definition with_scalar (op : IEEE.format -> spec_float -> spec_float -> spec_float)
           (scalar_left : bool) (s : spec_float) (x : ndarray) : ndarray :=
  let go (f : IEEE.format) (a : matrix spec_float) :=
    FloatArr f (mmap (fun v => if scalar_left then op f (IEEE.cast f s) v
                               else op f v (IEEE.cast f s)) a) in
  match x with
  | IntArr _ _ => go IEEE.B64 (as_float IEEE.B64 x)
  | FloatArr f a => go f a
  end.

(** An array and a Python [int]: the array keeps its type. *)
Definition with_int (opi : Z -> Z -> Z) (opf : IEEE.format -> spec_float -> spec_float -> spec_float)
           (scalar_left : bool) (z : Z) (x : ndarray) : ndarray :=
  match x with
  | IntArr t a => IntArr t (mmap (fun v => wrap t (if scalar_left then opi z v else opi v z)) a)
  | FloatArr f a => FloatArr f (mmap (fun v => if scalar_left then opf f (IEEE.of_Z f z) v
                                               else opf f v (IEEE.of_Z f z)) a)
  end.

(** A comparison of an array with a float64 scalar, in the type
    [with_scalar] computes in. *)
Definition compare_scalar (c : spec_float -> spec_float -> bool)
           (scalar_left : bool) (s : spec_float) (x : ndarray) : matrix bool :=
  let go (f : IEEE.format) (a : matrix spec_float) :=
    mmap (fun v => if scalar_left then c (IEEE.cast f s) v else c v (IEEE.cast f s)) a in
  match x with
  | IntArr _ _ => go IEEE.B64 (as_float IEEE.B64 x)
  | FloatArr f a => go f a
  end.

(** An array times a boolean array: [True] is 1, [False] is 0. *)
Definition times_mask (x : ndarray) (m : matrix bool) : ndarray :=
  match x with
  | IntArr t a => IntArr t (mzip (fun v (b : bool) => if b then v else 0) a m)
  | FloatArr f a => FloatArr f (mzip (fun v b => IEEE.mul f v (IEEE.of_bool f b)) a m)
  end.

Definition exp_array (x : ndarray) : ndarray :=
  match x with
  | IntArr _ _ => FloatArr IEEE.B64 (mmap (exp IEEE.B64) (as_float IEEE.B64 x))
  | FloatArr f a => FloatArr f (mmap (exp f) a)
  end.

(** [x[x < 0] = 0]. *)
Definition clamp_negative (x : ndarray) : ndarray :=
  match x with
  | IntArr t a => IntArr t (mmap (fun v => if v <? 0 then 0 else v) a)
  | FloatArr f a => FloatArr f (mmap (fun v => if IEEE.ltb v IEEE.pzero then IEEE.pzero else v) a)
  end.

(** Storing a ufunc result through [out=]: casting is [same_kind], so a
    float result is refused by an integer array; otherwise the result is
    converted to the type of [out]. *)
Definition cast_out (result : ndarray) (out_dtype : dtype) : option ndarray :=
  match dtype_of result, out_dtype with
  | DFloat _, DInt _ => None
  | _, d => Some (astype d result)
  end.

Definition uniform_filter (x : ndarray) (size : Z * Z) : ndarray :=
  match x with
  | IntArr t a => IntArr t (Ndimage.uniform_filter (int_elem t) size a)
  | FloatArr f a => FloatArr f (Ndimage.uniform_filter (float_elem f) size a)
  end.

Definition foreground (x : ndarray) : matrix bool :=
  match x with
  | IntArr _ a => mmap (fun v => negb (v =? 0)) a
  | FloatArr _ a => mmap IEEE.nonzero a
  end.

Definition label (x : ndarray) : matrix Z * Z := Ndimage.label (foreground x).

End Numpy.

(* ================================================================= *)
(** ** Program state: array objects, raster data sets, what was done *)

(** Python names are references.  An array object is a cell of the heap; a
    new array is a new cell; [out=] and augmented assignment overwrite the
    cell they are given. *)
Definition loc := nat.

(** A GDAL data set: its file and one array per raster band. *)
Record dataset := Dataset { ds_path : string; ds_bands : list ndarray }.

Definition handle := nat.

Inductive event :=
| EvReadAsArray (h : handle)
| EvClone (src : handle) (path : string) (new : handle)
| EvPrintBand (number : nat)
| EvWriteArray (h : handle) (band : nat)
| EvFlushCache (h : handle).

Record world := World {
  w_heap : list ndarray;
  w_data : list dataset;
  w_log : list event }.

Definition set_heap (h : list ndarray) (w : world) : world :=
  World h (w_data w) (w_log w).
Definition set_data (d : list dataset) (w : world) : world :=
  World (w_heap w) d (w_log w).
Definition add_event (e : event) (w : world) : world :=
  World (w_heap w) (w_data w) (w_log w ++ [e]).

(** Python exceptions, by class name. *)
Definition exn := string.
Definition KeyError : exn := "KeyError"%string.
Definition TypeError : exn := "TypeError"%string.
Definition ZeroDivisionError : exn := "ZeroDivisionError"%string.
Definition IndexError : exn := "IndexError"%string.
Definition AttributeError : exn := "AttributeError"%string.
(** A reference to no object: cannot arise from Python code. *)
Definition BadReference : exn := "BadReference"%string.

Inductive result (A : Type) := Ok (a : A) | Raise (e : exn).
Arguments Ok {A}.
Arguments Raise {A}.

(** State is threaded through, and kept when an exception is raised. *)
Definition M (A : Type) : Type := world -> result A * world.

Definition ret {A} (a : A) : M A := fun w => (Ok a, w).
Definition raise {A} (e : exn) : M A := fun w => (Raise e, w).
Definition bind {A B} (m : M A) (k : A -> M B) : M B :=
  fun w => match m w with
           | (Ok a, w') => k a w'
           | (Raise e, w') => (Raise e, w')
           end.

Declare Scope py_scope.
Delimit Scope py_scope with py.
Notation "x <- m ;; k" := (bind m (fun x => k))
  (at level 100, m at next level, right associativity) : py_scope.
Notation "m ;; k" := (bind m (fun _ => k))
  (at level 100, right associativity) : py_scope.
Open Scope py_scope.

Definition new (x : ndarray) : M loc :=
  fun w => (Ok (length (w_heap w)), set_heap (w_heap w ++ [x]) w).

Definition deref (l : loc) : M ndarray :=
  fun w => match w_heap w !! l with
           | Some x => (Ok x, w)
           | None => (Raise BadReference, w)
           end.

Definition assign (l : loc) (x : ndarray) : M unit :=
  fun w => if decide (l < length (w_heap w))%nat
           then (Ok tt, set_heap (<[l := x]> (w_heap w)) w)
           else (Raise BadReference, w).

(** A ufunc result stored through [out=]. *)
Definition store_out (result : ndarray) (out : loc) : M unit :=
  o <- deref out ;;
  match Numpy.cast_out result (dtype_of o) with
  | Some r => assign out r
  | None => raise TypeError
  end.

Definition log (e : event) : M unit := fun w => (Ok tt, add_event e w).

(** [window]: one integer for every axis, or a pair. *)
Inductive window := WInt (n : Z) | WPair (h w : Z).

Definition sizes (win : window) : Z * Z :=
  match win with WInt n => (n, n) | WPair h w => (h, w) end.

(** numpy and scipy calls on array objects. *)
Definition np_array (x : loc) (d : dtype) : M loc :=
  v <- deref x ;; new (Numpy.array v d).
Definition np_copy (x : loc) : M loc :=
  v <- deref x ;; new (Numpy.copy v).
Definition np_square (x : loc) : M loc :=
  v <- deref x ;; new (Numpy.square v).
Definition np_square_out (x out : loc) : M unit :=
  v <- deref x ;; store_out (Numpy.square v) out.
Definition np_sqrt_out (x out : loc) : M unit :=
  v <- deref x ;; store_out (Numpy.sqrt v) out.
Definition np_subtract_out (x y out : loc) : M unit :=
  u <- deref x ;; v <- deref y ;; store_out (Numpy.subtract u v) out.
Definition np_divide_out (x y out : loc) : M unit :=
  u <- deref x ;; v <- deref y ;; store_out (Numpy.divide u v) out.
Definition np_multiply_out (x y out : loc) : M unit :=
  u <- deref x ;; v <- deref y ;; store_out (Numpy.multiply u v) out.
Definition np_add_out (x y out : loc) : M unit :=
  u <- deref x ;; v <- deref y ;; store_out (Numpy.add u v) out.
Definition np_add_scalar (s : spec_float) (x : loc) : M loc :=
  v <- deref x ;; new (Numpy.with_scalar IEEE.add true s v).
Definition np_times_mask_inplace (x : loc) (m : matrix bool) : M unit :=
  v <- deref x ;; store_out (Numpy.times_mask v m) x.
Definition uniform_filter (x : loc) (win : window) : M loc :=
  v <- deref x ;; new (Numpy.uniform_filter v (sizes win)).
Definition uniform_filter_out (x : loc) (win : window) (out : loc) : M unit :=
  v <- deref x ;; store_out (Numpy.uniform_filter v (sizes win)) out.
Definition clamp_negative (x : loc) : M unit :=
  v <- deref x ;; assign x (Numpy.clamp_negative v).
Definition label (x : loc) : M (matrix Z * Z) :=
  v <- deref x ;; ret (Numpy.label v).
Definition variance (x : loc) (labels : option (matrix Z)) : M spec_float :=
  v <- deref x ;; ret (Ndimage.variance v labels).

(** Python's [a / b] on two [int]s: the correctly rounded quotient. *)
Definition int_as_float (z : Z) : spec_float :=
  match z with
  | Z0 => S754_zero false
  | Zpos p => S754_finite false p 0
  | Zneg p => S754_finite true p 0
  end.

Definition py_truediv (a b : Z) : M spec_float :=
  if b =? 0 then raise ZeroDivisionError
  else ret (IEEE.div IEEE.B64 (int_as_float a) (int_as_float b)).

(* ================================================================= *)
(** ** [SSWM/preprocess/filters.py] *)

(** [lee_filter2], lines 38-42: the local statistics, in the type of [img]. *)
Definition lee_filter2_stats (img : ndarray) (win : window) : ndarray * ndarray :=
  let img_mean := Numpy.uniform_filter img (sizes win) in
  let img_sqr := Numpy.square img in
  let img_sqr_mean := Numpy.uniform_filter img_sqr (sizes win) in
  let img_variance := Numpy.subtract img_sqr_mean (Numpy.square img_mean) in
  (img_mean, img_variance).

(** Lines 15-49.  Every step makes a new array; only the result is handed
    back, so only the result is given a cell. *)
Definition lee_filter2_window : window := WPair 3 3.

Definition lee_filter2 (img : loc) (win : window) : M loc :=
  x <- deref img ;;
  let '(img_mean, img_variance) := lee_filter2_stats x win in
  let overall_variance := Ndimage.variance x None in
  let img_weights :=
    Numpy.divide img_variance (Numpy.with_scalar IEEE.add false overall_variance img_variance) in
  let img_output :=
    Numpy.add img_mean (Numpy.multiply img_weights (Numpy.subtract x img_mean)) in
  new img_output.

(** Lines 147-173.  Python returns [t2, m] or just [t2]; here always a pair,
    with [m] absent when [return_mean] is false.  ([del] only drops a name.) *)
Definition moving_window_sd (data : loc) (win : window) (return_mean return_variance : bool)
  : M (loc * option loc) :=
  t1 <- np_copy data ;;
  t2 <- np_square t1 ;;
  uniform_filter_out t1 win t1 ;;
  uniform_filter_out t2 win t2 ;;
  m <- (if return_mean then (c <- np_copy t1 ;; ret (Some c)) else ret None) ;;
  np_square_out t1 t1 ;;
  np_subtract_out t2 t1 t2 ;;
  clamp_negative t2 ;;
  (if return_variance then ret tt else np_sqrt_out t2 t2) ;;
  ret (t2, m).

(** Lines 51-83.  [moving_window_sd] is called with [return_mean=True], so
    the unpacking of its result into two names cannot fail. *)
Definition lee_filter_window : window := WPair 5 5.

Definition lee_filter (img : loc) (win : window) : M loc :=
  d <- np_array img float32 ;;
  r <- moving_window_sd d win true true ;;
  match r with
  | (img_variance, Some img_mean) =>
      l <- label d ;;
      let lbl := fst l in
      let nlbl := snd l in
      overall_variance <- variance d (Some lbl) ;;
      overall_variance <- np_add_scalar overall_variance img_variance ;;
      np_subtract_out d img_mean d ;;
      np_divide_out img_variance overall_variance img_variance ;;
      np_multiply_out img_variance d d ;;
      np_add_out img_mean d d ;;
      ret d
  | (_, None) => raise TypeError
  end.

(** Lines 175-201. *)
Definition window_stdev (img : loc) (win : window) (img_mean img_sqr_mean : option loc) : M loc :=
  img_mean <- match img_mean with
              | None => uniform_filter img win
              | Some m => ret m
              end ;;
  img_sqr_mean <- match img_sqr_mean with
                  | None => x <- deref img ;;
                            new (Numpy.uniform_filter (Numpy.square x) (sizes win))
                  | Some m => ret m
                  end ;;
  mean <- deref img_mean ;;
  sqr_mean <- deref img_sqr_mean ;;
  new (Numpy.sqrt (Numpy.subtract sqr_mean (Numpy.square mean))).

(** Lines 85-145.  [looks] and [df] are Python [int]s; [Cu] and [Cmax] are
    float64 scalars. *)
Definition enhanced_lee_filter_window : window := WInt 7.
Definition enhanced_lee_filter_df : Z := 1.

Definition enhanced_lee_filter (img : loc) (looks : Z) (win : window) (df : Z) : M loc :=
  img <- np_array img float32 ;;
  q <- py_truediv 1 looks ;;
  let Cu := IEEE.sqrt IEEE.B64 q in
  q <- py_truediv 2 looks ;;
  let Cmax := IEEE.sqrt IEEE.B64 (IEEE.add IEEE.B64 (IEEE.of_Z IEEE.B64 1) q) in
  Ic <- np_copy img ;;
  Im <- uniform_filter img win ;;
  S <- window_stdev img win (Some Im) None ;;
  s <- deref S ;;
  im <- deref Im ;;
  ic <- deref Ic ;;
  let Ci := Numpy.divide s im in
  let M2 := mzip andb (Numpy.compare_scalar IEEE.ltb true Cu Ci)
                      (Numpy.compare_scalar IEEE.ltb false Cmax Ci) in
  let W := Numpy.exp_array
             (Numpy.times_mask
                (Numpy.divide (Numpy.with_int Z.mul IEEE.mul true (- df)
                                 (Numpy.with_scalar IEEE.sub false Cu Ci))
                              (Numpy.with_scalar IEEE.sub true Cmax Ci)) M2) in
  let R2 := Numpy.times_mask
              (Numpy.add (Numpy.multiply im W)
                         (Numpy.multiply ic (Numpy.with_int Z.sub IEEE.sub true 1 W))) M2 in
  let M1 := Numpy.compare_scalar IEEE.leb false Cu Ci in
  np_times_mask_inplace Im M1 ;;
  let M3 := Numpy.compare_scalar IEEE.geb false Cu Ci in
  np_times_mask_inplace Ic M3 ;;
  im <- deref Im ;;
  ic <- deref Ic ;;
  new (Numpy.add (Numpy.add im R2) ic).

(* ================================================================= *)
(** ** The raster collaborators of the band driver *)

Module Gdal.

Definition dataset_of (h : handle) : M dataset :=
  fun w => match w_data w !! h with
           | Some ds => (Ok ds, w)
           | None => (Raise BadReference, w)
           end.

Definition RasterCount (h : handle) : M nat :=
  ds <- dataset_of h ;; ret (length (ds_bands ds)).

(** What [ReadAsArray] hands back: a 2-D array for a single band, a 3-D
    array (one plane per band) otherwise.  The planes are array objects of
    their own, so that [arr[band_i, :, :]] is a reference into [arr]. *)
Inductive pyarray := Arr2 (plane : loc) | Arr3 (planes : list loc).

Fixpoint new_all (xs : list ndarray) : M (list loc) :=
  match xs with
  | [] => ret []
  | x :: xs' => l <- new x ;; ls <- new_all xs' ;; ret (l :: ls)
  end.

Definition ReadAsArray (h : handle) : M pyarray :=
  ds <- dataset_of h ;;
  planes <- new_all (ds_bands ds) ;;
  log (EvReadAsArray h) ;;
  ret (match planes with [p] => Arr2 p | _ => Arr3 planes end).

(** A band has the data type it was created with, and GDAL converts what is
    written into it ([GDALCopyWords]): a float written into an integer band
    is rounded to the nearest integer, halves away from zero, and a value
    beyond the range of the type becomes the nearest end of the range; NaN
    becomes 0.  An integer written into an integer band of another type is
    brought into the range the same way.  A float band takes the value
    converted to its format. *)
Definition type_min (t : ity) : Z :=
  if ity_signed t then - 2 ^ (ity_bits t - 1) else 0.

Definition type_max (t : ity) : Z :=
  if ity_signed t then 2 ^ (ity_bits t - 1) - 1 else 2 ^ ity_bits t - 1.

Definition clamp (t : ity) (z : Z) : Z := Z.max (type_min t) (Z.min (type_max t) z).

Definition nearest (x : spec_float) : Z :=
  match x with
  | S754_finite s m e =>
      cond_Zopp s (match e with
                   | Zneg p => (Zpos m + 2 ^ (Zpos p - 1)) / 2 ^ Zpos p
                   | _ => Zpos m * 2 ^ e
                   end)
  | _ => 0
  end.

Definition float_to_int (t : ity) (x : spec_float) : Z :=
  match x with
  | S754_infinity s => if s then type_min t else type_max t
  | _ => clamp t (nearest x)
  end.

Definition as_band (d : dtype) (x : ndarray) : ndarray :=
  match d, x with
  | DFloat f, _ => FloatArr f (Numpy.as_float f x)
  | DInt t, IntArr t' a => IntArr t (if decide (t' = t) then a else mmap (clamp t) a)
  | DInt t, FloatArr _ a => IntArr t (mmap (float_to_int t) a)
  end.

(** [h.GetRasterBand(band).WriteArray(arr)], bands counted from 1: the band
    takes the values of [arr], converted to the data type of the band. *)
Definition WriteArray (h : handle) (band : nat) (arr : loc) : M unit :=
  v <- deref arr ;;
  ds <- dataset_of h ;;
  if decide (1 <= band <= length (ds_bands ds))%nat
  then (fun w => (Ok tt, set_data (<[h := Dataset (ds_path ds)
                                          (alter (fun old => as_band (dtype_of old) v)
                                                 (Nat.pred band) (ds_bands ds))]>
                                      (w_data w)) w)) ;;
       log (EvWriteArray h band)
  else raise AttributeError.

Definition FlushCache (h : handle) : M unit := log (EvFlushCache h).

Definition zeros_like (x : ndarray) : ndarray :=
  match x with
  | IntArr t a => IntArr t (mmap (fun _ => 0) a)
  | FloatArr f a => FloatArr f (mmap (fun _ => IEEE.pzero) a)
  end.

(** Modelled from the spec: [SSWM.preprocess.preutils.cloneRaster] is not
    among the sources.  The sink is "created by cloning the source's
    georeferencing/metadata and allocating same-shaped bands": a new data
    set at [path], with as many bands as the source, each of the source
    band's shape and type. *)
Definition cloneRaster (img : handle) (path : string) : M handle :=
  ds <- dataset_of img ;;
  (fun w => let h := length (w_data w) in
            (Ok h, add_event (EvClone img path h)
                     (set_data (w_data w ++ [Dataset path (zeros_like <$> ds_bands ds)]) w))).

End Gdal.

(** [str.lower()], on ASCII strings. *)
Definition lower_ascii (c : ascii) : ascii :=
  let n := nat_of_ascii c in
  if ((65 <=? n) && (n <=? 90))%nat then ascii_of_nat (n + 32) else c.

Fixpoint lower (s : string) : string :=
  match s with
  | EmptyString => EmptyString
  | String c s' => String (lower_ascii c) (lower s')
  end.

(** [**kwargs]: the keywords the two filters know, and any others. *)
Record kwargs := Kwargs {
  kw_window : option window;
  kw_looks : option Z;
  kw_df : option Z;
  kw_other : list string }.

Inductive filter_fn := LeeFilter | EnhancedLeeFilter.

(** [{'lee': lee_filter, 'elee': enhanced_lee_filter}[filter.lower()]] *)
Definition select_filter (filter : string) : M filter_fn :=
  let key := lower filter in
  if decide (key = "lee"%string) then ret LeeFilter
  else if decide (key = "elee"%string) then ret EnhancedLeeFilter
  else raise KeyError.

(** [filter(arr, **kwargs)]: Python binds the keywords to the parameters of
    the chosen function, fills in defaults, and raises [TypeError] for a
    keyword the function does not have and for a missing [looks]. *)
Definition call_filter (f : filter_fn) (arr : loc) (kw : kwargs) : M loc :=
  match f with
  | LeeFilter =>
      match kw_looks kw, kw_df kw, kw_other kw with
      | None, None, [] => lee_filter arr (default lee_filter_window (kw_window kw))
      | _, _, _ => raise TypeError
      end
  | EnhancedLeeFilter =>
      match kw_looks kw, kw_other kw with
      | Some looks, [] =>
          enhanced_lee_filter arr looks
            (default enhanced_lee_filter_window (kw_window kw))
            (default enhanced_lee_filter_df (kw_df kw))
      | _, _ => raise TypeError
      end
  end.

Fixpoint for_each {A} (l : list A) (body : A -> M unit) : M unit :=
  match l with
  | [] => ret tt
  | x :: l' => body x ;; for_each l' body
  end.

Definition plane_of (arr : list loc) (i : nat) : M loc :=
  match arr !! i with
  | Some p => ret p
  | None => raise IndexError
  end.

(** Lines 203-249.  [img] is an open data set; [output] a path or [None]. *)
Definition filter_image (img : handle) (output : option string) (filter : string) (kw : kwargs)
  : M unit :=
  filter <- select_filter filter ;;
  arr <- Gdal.ReadAsArray img ;;
  let arr := match arr with Gdal.Arr2 p => [p] | Gdal.Arr3 ps => ps end in
  out <- match output with
         | None => ret img
         | Some path => Gdal.cloneRaster img path
         end ;;
  count <- Gdal.RasterCount img ;;
  for_each (seq 0 count)
    (fun band_i =>
       log (EvPrintBand (band_i + 1)) ;;
       plane <- plane_of arr band_i ;;
       filtered <- call_filter filter plane kw ;;
       Gdal.WriteArray out (band_i + 1) filtered) ;;
  Gdal.FlushCache out.

(* ================================================================= *)
(** ** What the filters compute, as functions of the input

    The arrays the filters leave in the heap, written as expressions over
    the input converted to float32.  The lemmas [lee_filter_run],
    [lee_filter2_run] and [enhanced_lee_filter_run] below prove that running
    the code above yields exactly these. *)

Definition box (win : window) (a : matrix spec_float) : matrix spec_float :=
  Ndimage.uniform_filter (float_elem IEEE.B32) (sizes win) a.

Definition sq32 (a : matrix spec_float) : matrix spec_float :=
  mmap (fun v => IEEE.mul IEEE.B32 v v) a.

Definition clamp (v : spec_float) : spec_float :=
  if IEEE.ltb v IEEE.pzero then IEEE.pzero else v.

(** mean of squares minus squared mean, before any clamp *)
Definition raw_variance (win : window) (d : matrix spec_float) : matrix spec_float :=
  mzip (IEEE.sub IEEE.B32) (box win (sq32 d)) (sq32 (box win d)).

(** [moving_window_sd]: the variance it returns *)
Definition local_variance (win : window) (d : matrix spec_float) : matrix spec_float :=
  mmap clamp (raw_variance win d).

(** [window_stdev] with the mean handed in *)
Definition stdev (win : window) (d : matrix spec_float) : matrix spec_float :=
  mmap (IEEE.sqrt IEEE.B32) (raw_variance win d).

(** [lee_filter]: the scalar [variance(d, lbl)], as the float32 loop sees it *)
Definition lee_overall (d : matrix spec_float) : spec_float :=
  IEEE.cast IEEE.B32
    (Ndimage.variance (FloatArr IEEE.B32 d) (Some (fst (Numpy.label (FloatArr IEEE.B32 d))))).

Definition lee_denominator (win : window) (d : matrix spec_float) : matrix spec_float :=
  mmap (fun v => IEEE.add IEEE.B32 (lee_overall d) v) (local_variance win d).

Definition lee_weights (win : window) (d : matrix spec_float) : matrix spec_float :=
  mzip (IEEE.div IEEE.B32) (local_variance win d) (lee_denominator win d).

Definition lee_value (win : window) (d : matrix spec_float) : matrix spec_float :=
  mzip (IEEE.add IEEE.B32) (box win d)
       (mzip (IEEE.mul IEEE.B32) (lee_weights win d) (mzip (IEEE.sub IEEE.B32) d (box win d))).

(** One pixel of [lee_filter]: overall variance, local variance, local mean,
    input value. *)
Definition lee_pixel (overall var mean x : spec_float) : spec_float :=
  IEEE.add IEEE.B32 mean
    (IEEE.mul IEEE.B32 (IEEE.div IEEE.B32 var (IEEE.add IEEE.B32 overall var))
                       (IEEE.sub IEEE.B32 x mean)).

(** [lee_filter2] on a float32 array *)
Definition lee2_overall (d : matrix spec_float) : spec_float :=
  IEEE.cast IEEE.B32 (Ndimage.variance (FloatArr IEEE.B32 d) None).

Definition lee2_value (win : window) (d : matrix spec_float) : matrix spec_float :=
  mzip (IEEE.add IEEE.B32) (box win d)
       (mzip (IEEE.mul IEEE.B32)
             (mzip (IEEE.div IEEE.B32) (raw_variance win d)
                   (mmap (fun v => IEEE.add IEEE.B32 v (lee2_overall d)) (raw_variance win d)))
             (mzip (IEEE.sub IEEE.B32) d (box win d))).

Definition lee2_pixel (overall var mean x : spec_float) : spec_float :=
  IEEE.add IEEE.B32 mean
    (IEEE.mul IEEE.B32 (IEEE.div IEEE.B32 var (IEEE.add IEEE.B32 var overall))
                       (IEEE.sub IEEE.B32 x mean)).

(** [enhanced_lee_filter]: the two thresholds as the float32 loops see them *)
Definition elee_Cu (looks : Z) : spec_float :=
  IEEE.cast IEEE.B32
    (IEEE.sqrt IEEE.B64 (IEEE.div IEEE.B64 (int_as_float 1) (int_as_float looks))).

Definition elee_Cmax (looks : Z) : spec_float :=
  IEEE.cast IEEE.B32
    (IEEE.sqrt IEEE.B64
       (IEEE.add IEEE.B64 (IEEE.of_Z IEEE.B64 1)
          (IEEE.div IEEE.B64 (int_as_float 2) (int_as_float looks)))).

Definition times_bool (v : spec_float) (b : bool) : spec_float :=
  IEEE.mul IEEE.B32 v (IEEE.of_bool IEEE.B32 b).

Definition elee_Ci (win : window) (d : matrix spec_float) : matrix spec_float :=
  mzip (IEEE.div IEEE.B32) (stdev win d) (box win d).

Definition elee_M1 (Cu : spec_float) (Ci : matrix spec_float) : matrix bool :=
  mmap (fun v => IEEE.leb v Cu) Ci.
Definition elee_M2 (Cu Cmax : spec_float) (Ci : matrix spec_float) : matrix bool :=
  mzip andb (mmap (fun v => IEEE.ltb Cu v) Ci) (mmap (fun v => IEEE.ltb v Cmax) Ci).
Definition elee_M3 (Cu : spec_float) (Ci : matrix spec_float) : matrix bool :=
  mmap (fun v => IEEE.geb v Cu) Ci.

Definition elee_W (Cu Cmax : spec_float) (df : Z) (Ci : matrix spec_float) : matrix spec_float :=
  mmap (Numpy.exp IEEE.B32)
    (mzip times_bool
       (mzip (IEEE.div IEEE.B32)
          (mmap (fun v => IEEE.mul IEEE.B32 (IEEE.of_Z IEEE.B32 (- df)) v)
                (mmap (fun v => IEEE.sub IEEE.B32 v Cu) Ci))
          (mmap (fun v => IEEE.sub IEEE.B32 Cmax v) Ci))
       (elee_M2 Cu Cmax Ci)).

Definition elee_value (looks df : Z) (win : window) (d : matrix spec_float) : matrix spec_float :=
  let Cu := elee_Cu looks in
  let Cmax := elee_Cmax looks in
  let Im := box win d in
  let Ci := elee_Ci win d in
  let W := elee_W Cu Cmax df Ci in
  let R2 := mzip times_bool
              (mzip (IEEE.add IEEE.B32) (mzip (IEEE.mul IEEE.B32) Im W)
                 (mzip (IEEE.mul IEEE.B32) d
                    (mmap (fun v => IEEE.sub IEEE.B32 (IEEE.of_Z IEEE.B32 1) v) W)))
              (elee_M2 Cu Cmax Ci) in
  mzip (IEEE.add IEEE.B32)
    (mzip (IEEE.add IEEE.B32) (mzip times_bool Im (elee_M1 Cu Ci)) R2)
    (mzip times_bool d (elee_M3 Cu Ci)).

(** One pixel of [enhanced_lee_filter]: thresholds, damping factor, the
    input value [Ic], the local mean [Im] and the local deviation [S]. *)
Definition elee_pixel (Cu Cmax : spec_float) (df : Z) (Ic Im S : spec_float) : spec_float :=
  let Ci := IEEE.div IEEE.B32 S Im in
  let M2 := IEEE.ltb Cu Ci && IEEE.ltb Ci Cmax in
  let W := Numpy.exp IEEE.B32
             (times_bool
                (IEEE.div IEEE.B32
                   (IEEE.mul IEEE.B32 (IEEE.of_Z IEEE.B32 (- df)) (IEEE.sub IEEE.B32 Ci Cu))
                   (IEEE.sub IEEE.B32 Cmax Ci)) M2) in
  let R2 := times_bool
              (IEEE.add IEEE.B32 (IEEE.mul IEEE.B32 Im W)
                 (IEEE.mul IEEE.B32 Ic (IEEE.sub IEEE.B32 (IEEE.of_Z IEEE.B32 1) W))) M2 in
  IEEE.add IEEE.B32
    (IEEE.add IEEE.B32 (times_bool Im (IEEE.leb Ci Cu)) R2)
    (times_bool Ic (IEEE.geb Ci Cu)).

(** The cells [lee_filter] allocates, in order: [d] (returned), [t1], [t2]
    (which ends up holding the weights), [m] (the mean) and the array
    [overall_variance]. *)
Definition lee_cells (win : window) (d : matrix spec_float) : list ndarray :=
  [ FloatArr IEEE.B32 (lee_value win d);
    FloatArr IEEE.B32 (sq32 (box win d));
    FloatArr IEEE.B32 (lee_weights win d);
    FloatArr IEEE.B32 (box win d);
    FloatArr IEEE.B32 (lee_denominator win d) ].

(** The cells [enhanced_lee_filter] allocates, in order: the float32 copy of
    the input, [Ic], [Im], the mean of squares, [S], and the result [R]. *)
Definition elee_cells (looks df : Z) (win : window) (d : matrix spec_float) : list ndarray :=
  let Ci := elee_Ci win d in
  [ FloatArr IEEE.B32 d;
    FloatArr IEEE.B32 (mzip times_bool d (elee_M3 (elee_Cu looks) Ci));
    FloatArr IEEE.B32 (mzip times_bool (box win d) (elee_M1 (elee_Cu looks) Ci));
    FloatArr IEEE.B32 (box win (sq32 d));
    FloatArr IEEE.B32 (stdev win d);
    FloatArr IEEE.B32 (elee_value looks df win d) ].

(** Calling a filter on one array in an otherwise empty program, and the
    array it returns. *)
Definition call_on (x : ndarray) (f : loc -> M loc) : option ndarray :=
  match f 0%nat (World [x] [] []) with
  | (Ok r, w) => w_heap w !! r
  | (Raise _, _) => None
  end.

(** The value [filter(arr, **kwargs)] returns for a band, when the call
    succeeds. *)
Definition filter_value (f : filter_fn) (kw : kwargs) (band : ndarray) : ndarray :=
  match f with
  | LeeFilter =>
      FloatArr IEEE.B32
        (lee_value (default lee_filter_window (kw_window kw)) (Numpy.as_float IEEE.B32 band))
  | EnhancedLeeFilter =>
      FloatArr IEEE.B32
        (elee_value (default 1 (kw_looks kw)) (default enhanced_lee_filter_df (kw_df kw))
           (default enhanced_lee_filter_window (kw_window kw)) (Numpy.as_float IEEE.B32 band))
  end.

(** The keywords fit the chosen filter, and [looks] is not 0. *)
Definition call_ok (f : filter_fn) (kw : kwargs) : bool :=
  match f, kw_looks kw, kw_df kw, kw_other kw with
  | LeeFilter, None, None, [] => true
  | EnhancedLeeFilter, Some looks, _, [] => negb (looks =? 0)
  | _, _, _, _ => false
  end.

(* ================================================================= *)
(** ** The specification's readings that the code is compared with *)

(** The enhanced Lee filter as the docstring and the specification give it:
    three regions, one value each. *)
Definition elee_pixel_documented (Cu Cmax : spec_float) (df : Z) (Ic Im S : spec_float)
  : spec_float :=
  let Ci := IEEE.div IEEE.B32 S Im in
  if IEEE.leb Ci Cu then Im
  else if IEEE.ltb Ci Cmax then
    let W := Numpy.exp IEEE.B32
               (IEEE.div IEEE.B32
                  (IEEE.mul IEEE.B32 (IEEE.of_Z IEEE.B32 (- df)) (IEEE.sub IEEE.B32 Ci Cu))
                  (IEEE.sub IEEE.B32 Cmax Ci)) in
    IEEE.add IEEE.B32 (IEEE.mul IEEE.B32 Im W)
      (IEEE.mul IEEE.B32 Ic (IEEE.sub IEEE.B32 (IEEE.of_Z IEEE.B32 1) W))
  else Ic.

(** The specification's overall variance: "compute variance per labeled
    region and broadcast each pixel's regional overall-variance value back
    per-pixel". *)
Definition region_variance (d : matrix spec_float) (lbl : matrix Z) (k : Z) : spec_float :=
  Ndimage.variance_vals IEEE.B32 (mselect (mmap (fun l => l =? k) lbl) d).

Definition per_region_overall_variance (d : matrix spec_float) : matrix spec_float :=
  let lbl := fst (Numpy.label (FloatArr IEEE.B32 d)) in
  mmap (fun k => IEEE.cast IEEE.B32 (region_variance d lbl k)) lbl.

(** "equal within a small floating-point tolerance (e.g., 1e-5 relative)":
    [|x - y| <= 1e-5 * |y|], evaluated in double precision. *)
Definition rtol : spec_float :=
  IEEE.div IEEE.B64 (IEEE.of_Z IEEE.B64 1) (IEEE.of_Z IEEE.B64 100000).

Definition within_tolerance (x y : spec_float) : bool :=
  let x := IEEE.cast IEEE.B64 x in
  let y := IEEE.cast IEEE.B64 y in
  IEEE.leb (IEEE.abs (IEEE.sub IEEE.B64 x y)) (IEEE.mul IEEE.B64 rtol (IEEE.abs y)).

(* ================================================================= *)
(** ** Concrete inputs *)

Definition f32 (z : Z) : spec_float := IEEE.of_Z IEEE.B32 z.

(** A float32 image with whole-number entries. *)
Definition image (rows : matrix Z) : ndarray := FloatArr IEEE.B32 (mmap f32 rows).

(** The 10x10 image of constant value 100. *)
Definition flat_100 : ndarray := image (replicate 10 (replicate 10 100)).

Definition all_nan (rows cols : nat) : ndarray :=
  FloatArr IEEE.B32 (replicate rows (replicate cols S754_nan)).

(* ================================================================= *)
(** ** Labels and foreground *)

(** A label fits a foreground flag: it is not negative, and positive
    exactly on the foreground. *)
Definition lab_ok (x : Z) (b : bool) : Prop := 0 <= x /\ (0 <? x) = b.

Definition labelling_ok (l : matrix Z) (fg : matrix bool) : Prop :=
  Forall2 (Forall2 lab_ok) l fg.

(** The non-zero entries of an image, in row-major order. *)
Definition nonzero_pixels (d : matrix spec_float) : list spec_float :=
  filter (fun v => IEEE.nonzero v = true) (concat d).

(** The variance of the non-zero pixels of the whole image, as the float32
    loops of [lee_filter] see it. *)
Definition pooled_variance (d : matrix spec_float) : spec_float :=
  IEEE.cast IEEE.B32 (Ndimage.variance_vals IEEE.B32 (nonzero_pixels d)).

(** Two regions, [1 1] and [5 5], separated by a zero. *)
Definition two_regions : matrix Z := [[1; 1; 0; 5; 5]].

(** No entry of the array is below zero. *)
Definition not_negative (x : ndarray) : Prop :=
  match x with
  | IntArr _ a => Forall (Forall (fun v => 0 <= v)) a
  | FloatArr _ a => Forall (Forall (fun v => IEEE.ltb v IEEE.pzero = false)) a
  end.

(** The float32 image [1 + 2^-23, 1 + 2^-22]: two neighbouring floats. *)
Definition near_one : matrix spec_float :=
  [[IEEE.of_scaled IEEE.B32 8388609 (-23); IEEE.of_scaled IEEE.B32 8388610 (-23)]].

(** What the band loop leaves in the log: for each band its number, then the
    write into band [i + 1] of [out]. *)
Definition band_events (out : handle) (n : nat) : list event :=
  flat_map (fun i => [EvPrintBand (i + 1); EvWriteArray out (i + 1)]) (seq 0 n).

(** The loop body of [filter_image]. *)
Definition band_step (f : filter_fn) (kw : kwargs) (arr : list loc) (out : handle)
           (band_i : nat) : M unit :=
  log (EvPrintBand (band_i + 1)) ;;
  plane <- plane_of arr band_i ;;
  filtered <- call_filter f plane kw ;;
  Gdal.WriteArray out (band_i + 1) filtered.

(** A three-band float32 raster and a world that holds only it. *)
Definition three_bands : dataset :=
  Dataset "scene.tif" [image [[1; 2]; [3; 5]]; image [[0; 2]; [3; 9]]; image [[7; 2]; [3; 200]]].

Definition scene_world : world := World [] [three_bands] [].

Definition no_kwargs : kwargs := Kwargs None None None [].

(** What a band holds after [filter_image] has written to it: the filter's
    result for the band, converted to the data type of the band. *)
Definition band_written (f : filter_fn) (kw : kwargs) (band : ndarray) : ndarray :=
  Gdal.as_band (dtype_of band) (filter_value f kw band).

(** The data sets while the band loop runs: after [k] bands, the first [k]
    bands of [out] hold what was written for the bands [B], the others still
    [ob]. *)
Definition loop_data (f : filter_fn) (kw : kwargs) (B : list ndarray) (dd0 : list dataset)
           (out : handle) (p : string) (ob : list ndarray) (k : nat) : list dataset :=
  <[out := Dataset p ((band_written f kw <$> take k B) ++ drop k ob)]> dd0.

(** A raster of one [Byte] band and a world that holds only it. *)
Definition byte_band : dataset := Dataset "byte.tif" [IntArr U8 [[1; 2]; [3; 5]]].

Definition byte_world : world := World [] [byte_band] [].

(** The array of the examples in scipy's reference pages for [label] and
    [variance]. *)
Definition scipy_doc_array : ndarray :=
  IntArr I64 [[1; 2; 0; 0]; [5; 3; 0; 4]; [0; 0; 0; 7]; [9; 3; 0; 0]].

(* ================================================================= *)
(** ** Well-formed numbers *)

(** Neither a NaN nor an infinity. *)
Definition finite (x : spec_float) : bool :=
  match x with S754_zero _ | S754_finite _ _ _ => true | _ => false end.

(** A value the format has: mantissa and exponent are in the canonical form
    of the format. *)
Definition in_format (f : IEEE.format) (x : spec_float) : bool :=
  valid_binary (IEEE.prec f) (IEEE.emax f) x.

(** The exponent of the damping weight of [enhanced_lee_filter], line 134,
    before the mask: [-df * (Ci - Cu) / (Cmax - Ci)]. *)
Definition elee_exponent (Cu Cmax : spec_float) (df : Z) (Ci : spec_float) : spec_float :=
  IEEE.div IEEE.B32
    (IEEE.mul IEEE.B32 (IEEE.of_Z IEEE.B32 (- df)) (IEEE.sub IEEE.B32 Ci Cu))
    (IEEE.sub IEEE.B32 Cmax Ci).

(** A 3x4 float32 image with a NaN in its first entry. *)
Definition nan_corner : matrix spec_float :=
  [[S754_nan; f32 2; f32 3; f32 4]; [f32 5; f32 6; f32 7; f32 8]; [f32 9; f32 10; f32 11; f32 12]].

(** The shape of an array: the lengths of its rows. *)
Definition shape {A} (a : matrix A) : list nat := length <$> a.

Definition nd_shape (x : ndarray) : list nat :=
  match x with IntArr _ a => shape a | FloatArr _ a => shape a end.

(** The array [lee_filter2] returns, for an input of any element type. *)
Definition lee2_output (x : ndarray) (win : window) : ndarray :=
  let img_mean := fst (lee_filter2_stats x win) in
  let img_variance := snd (lee_filter2_stats x win) in
  let overall_variance := Ndimage.variance x None in
  Numpy.add img_mean
    (Numpy.multiply
       (Numpy.divide img_variance (Numpy.with_scalar IEEE.add false overall_variance img_variance))
       (Numpy.subtract x img_mean)).

(** The weights of [lee_filter2], line 46. *)
Definition lee_filter2_weights (x : ndarray) (win : window) : ndarray :=
  let img_variance := snd (lee_filter2_stats x win) in
  Numpy.divide img_variance
    (Numpy.with_scalar IEEE.add false (Ndimage.variance x None) img_variance).

(** The keywords bind to the parameters of the filter: [lee_filter] takes
    [window] only; [enhanced_lee_filter] needs [looks] and takes [window]
    and [df]. *)
Definition kw_fits (f : filter_fn) (kw : kwargs) : bool :=
  match f, kw_looks kw, kw_df kw, kw_other kw with
  | LeeFilter, None, None, [] => true
  | EnhancedLeeFilter, Some _, _, [] => true
  | _, _, _, _ => false
  end.

(* ================================================================= *)
(** ** What the other two modules ask of the outside world

    [orthorectify.py] and [launch_forest.py] work through GDAL, the
    logging module, archives and the file system.  A function of theirs is
    given here as its result together with the calls it makes, in order.
    Where a call can fail, the function takes [fails], which tells for each
    call whether it raises and what. *)

Record WarpOptions := MkWarpOptions {
  transformerOptions : list string;
  creationOptions : list string;
  rpc : bool;
  multithread : bool;
  outputType : Z }.

Inductive call :=
| GdalWarp (output : string) (input : dataset) (options : WarpOptions)
| LoggingInfo (msg : string)
| TarfileOpen (path mode : string)
| ZipFile (path : string)
| ExtractAll (archive path : string)
| Rmtree (path : string)
| OsRemove (path : string)
| WriteFile (path text : string)
| SysExit (status : Z).

Definition ValueError : exn := "ValueError"%string.
Definition UnboundLocalError : exn := "UnboundLocalError"%string.
Definition SystemExit : exn := "SystemExit"%string.

(* ================================================================= *)
(** ** [SSWM/preprocess/orthorectify.py] *)

(** GDAL's codes for the data type of a band: [GDT_Byte] is 1, [GDT_UInt16]
    2, [GDT_Int16] 3, [GDT_UInt32] 4, [GDT_Int32] 5, [GDT_Float32] 6,
    [GDT_Float64] 7, [GDT_UInt64] 12, [GDT_Int64] 13, [GDT_Int8] 14. *)
Definition GDT (d : dtype) : Z :=
  match d with
  | DInt U8 => 1
  | DInt U16 => 2
  | DInt I16 => 3
  | DInt U32 => 4
  | DInt I32 => 5
  | DFloat IEEE.B32 => 6
  | DFloat IEEE.B64 => 7
  | DInt U64 => 12
  | DInt I64 => 13
  | DInt I8 => 14
  end.

(** [band.DataType] *)
Definition DataType (band : ndarray) : Z := GDT (dtype_of band).

(** Python's [max] of a list: [ValueError] when the list is empty. *)
Definition py_max (l : list Z) : result Z :=
  match l with
  | [] => Raise ValueError
  | x :: l' => Ok (foldl Z.max x l')
  end.

(** Lines 4-38.  [input] is an open data set, [dtype] a GDAL code or
    [None].  [gdal.Warp] reports a failure by returning [None]; what it
    returns is not looked at. *)
Definition orthorectify_dem_rpc (input : dataset) (output DEM : string) (dtype : option Z)
  : result bool * list call :=
  match (match dtype with
         | None => py_max (DataType <$> ds_bands input)
         | Some t => Ok t
         end) with
  | Raise e => (Raise e, [])
  | Ok dtype =>
      let optns :=
        MkWarpOptions [String.append "RPC_DEM=" DEM]
                      ["TILED=YES"; "BLOCKXSIZE=256"; "BLOCKYSIZE=256"]%string
                      true true dtype in
      (Ok true, [GdalWarp output input optns])
  end.

(* ================================================================= *)
(** ** [os.path] on POSIX paths *)

(** [s.rfind(c)] for a single character [c]: the last index of [c] in [s],
    or -1. *)
Fixpoint rfind (c : ascii) (s : string) : Z :=
  match s with
  | EmptyString => -1
  | String x s' =>
      let i := rfind c s' in
      if 0 <=? i then i + 1 else if Ascii.eqb x c then 0 else -1
  end.

(** The slices [s[:i]] and [s[i:]]. *)
Fixpoint str_take (i : nat) (s : string) : string :=
  match i, s with
  | S i', String x s' => String x (str_take i' s')
  | _, _ => EmptyString
  end.

Fixpoint str_drop (i : nat) (s : string) : string :=
  match i, s with
  | S i', String _ s' => str_drop i' s'
  | _, _ => s
  end.

(** The loop of [genericpath._splitext] that skips leading dots: it returns
    at the first character of [p[filenameIndex:dotIndex]] that is not a
    dot; [steps] is [dotIndex - filenameIndex]. *)
Fixpoint has_stem (steps filenameIndex : nat) (p : string) : bool :=
  match steps with
  | O => false
  | S steps' =>
      match String.get filenameIndex p with
      | Some c => if Ascii.eqb c "." then has_stem steps' (S filenameIndex) p else true
      | None => true
      end
  end.

(** [os.path.splitext(p)] *)
Definition splitext (p : string) : string * string :=
  let sepIndex := rfind "/" p in
  let dotIndex := rfind "." p in
  if (sepIndex <? dotIndex)
     && has_stem (Z.to_nat (dotIndex - (sepIndex + 1))) (Z.to_nat (sepIndex + 1)) p
  then (str_take (Z.to_nat dotIndex) p, str_drop (Z.to_nat dotIndex) p)
  else (p, EmptyString).

(** [os.path.basename(p)] *)
Definition basename (p : string) : string := str_drop (Z.to_nat (rfind "/" p + 1)) p.

Definition starts_with_sep (s : string) : bool :=
  match s with String c _ => Ascii.eqb c "/" | EmptyString => false end.

Fixpoint ends_with_sep (s : string) : bool :=
  match s with
  | EmptyString => false
  | String c EmptyString => Ascii.eqb c "/"
  | String _ s' => ends_with_sep s'
  end.

(** [os.path.join(a, b)] *)
Definition join (a b : string) : string :=
  if starts_with_sep b then b
  else if String.eqb a EmptyString || ends_with_sep a then String.append a b
  else String.append a (String "/" b).

(* ================================================================= *)
(** ** [launch_forest.py]: the manifest entry, the archive, the clean-up *)

(** Lines 19-40.  [manifest_get_next] stands for
    [filedaemon.manifest_get_next], which is not among the sources: it is
    given the path of the manifest and hands back a string. *)
Definition get_cur_file (manifest_get_next : string -> string) (folder : string)
  : string * string :=
  let manifest := join folder "manifest.txt" in
  let zip_file := manifest_get_next manifest in
  let exdir := fst (splitext zip_file) in
  let fname := fst (splitext (basename zip_file)) in
  let cur_file := join exdir (String.append fname ".vrt") in
  (cur_file, exdir).

(** Running external calls in order, up to the first that raises. *)
Fixpoint run_calls (fails : call -> option exn) (cs : list call) : option exn * list call :=
  match cs with
  | [] => (None, [])
  | c :: cs' =>
      match fails c with
      | Some e => (Some e, [c])
      | None => let r := run_calls fails cs' in (fst r, c :: snd r)
      end
  end.

(** Lines 42-61.  When the extension is neither [.tar] nor [.zip] the name
    [fh] is never bound, and line 58 raises [UnboundLocalError]. *)
Definition untar_VRT (fails : call -> option exn) (cur_file : string)
  : result (string * string) * list call :=
  let wkdir := fst (splitext cur_file) in
  let ext := snd (splitext cur_file) in
  let info := LoggingInfo (String.append "using " cur_file) in
  let fh := if String.eqb ext ".tar" then Some (TarfileOpen cur_file "r")
            else if String.eqb ext ".zip" then Some (ZipFile cur_file)
            else None in
  match fh with
  | None => (Raise UnboundLocalError, [info])
  | Some open =>
      match run_calls fails [open; ExtractAll cur_file wkdir] with
      | (Some e, cs) => (Raise e, info :: cs)
      | (None, cs) =>
          let vrt := join wkdir (String.append (fst (splitext (basename cur_file))) ".vrt") in
          (Ok (vrt, wkdir), info :: cs)
      end
  end.

(** Lines 63-67. *)
Definition clean_up_calls (extracted_directory : string) : list call :=
  [Rmtree extracted_directory; OsRemove (String.append extracted_directory ".tar")].

Definition clean_up (fails : call -> option exn) (extracted_directory : string)
  : result unit * list call :=
  match run_calls fails (clean_up_calls extracted_directory) with
  | (Some e, cs) => (Raise e, cs)
  | (None, cs) => (Ok tt, cs)
  end.

(** Lines 69-76.  [sys.exit(0)] raises [SystemExit]; the function never
    returns. *)
Definition failure (fails : call -> option exn)
           (output_h5 exdir cur_file images_output_dir msg : string)
  : result unit * list call :=
  let errfile := join images_output_dir (String.append cur_file ".failed") in
  match run_calls fails (OsRemove output_h5 :: clean_up_calls exdir ++ [WriteFile errfile msg]) with
  | (Some e, cs) => (Raise e, cs)
  | (None, cs) => (Raise SystemExit, cs ++ [SysExit 0])
  end.

(** The output type of the one [gdal.Warp] call made, if any. *)
Definition outputType_of (r : result bool * list call) : option Z :=
  match snd r with
  | [GdalWarp _ _ options] => Some (outputType options)
  | _ => None
  end.

(** The last component of the path has a character that is not a dot. *)
Definition named (p : string) : bool :=
  let i := Z.to_nat (rfind "/" p + 1) in
  has_stem (String.length p - i) i p.

(* ================================================================= *)
(** * Properties *)

(** ** The library routines on the examples of their reference pages *)

(** [uniform_filter1d([2, 8, 0, 4, 1, 9, 9, 0], size=3)] *)
Example uniform_filter1d_doc :
  Ndimage.uniform_filter1d (int_elem I64) 3 [2; 8; 0; 4; 1; 9; 9; 0] = [4; 3; 4; 1; 4; 6; 6; 3].
Proof. vm_compute. reflexivity. Qed.

(** [label(a)] finds four features in the example of its page, three in the
    array of the [variance] page. *)
Example label_doc :
  Numpy.label (IntArr I64 [[0; 0; 1; 1; 0; 0]; [0; 0; 0; 1; 0; 0];
                          [1; 1; 0; 0; 1; 0]; [0; 0; 0; 1; 0; 0]])
  = ([[0; 0; 1; 1; 0; 0]; [0; 0; 0; 1; 0; 0]; [2; 2; 0; 0; 3; 0]; [0; 0; 0; 4; 0; 0]], 4)
  /\ Numpy.label scipy_doc_array
     = ([[1; 1; 0; 0]; [1; 1; 0; 2]; [0; 0; 0; 2]; [3; 3; 0; 0]], 3).
Proof. vm_compute. split; reflexivity. Qed.

(** [variance(a)] is 7.609375, and [variance(a, lbl)], "if no index is
    given, the variance of the non-zero region", is 6.1875. *)
Example variance_doc :
  Ndimage.variance scipy_doc_array None = IEEE.of_scaled IEEE.B64 487 (-6)
  /\ Ndimage.variance scipy_doc_array (Some (fst (Numpy.label scipy_doc_array)))
     = IEEE.of_scaled IEEE.B64 99 (-4).
Proof. vm_compute. split; reflexivity. Qed.

(** [exp(1)] in single and in double precision. *)
Example exp_one :
  Numpy.exp IEEE.B32 (IEEE.of_Z IEEE.B32 1) = IEEE.of_scaled IEEE.B32 11401300 (-22)
  /\ Numpy.exp IEEE.B64 (IEEE.of_Z IEEE.B64 1) = IEEE.of_scaled IEEE.B64 6121026514868073 (-51).
Proof. vm_compute. split; reflexivity. Qed.

(** ** Running programs on a heap [h0 ++ suf]

    [h0] is the heap on entry, [suf] the cells allocated since. *)

Section Exec.
Context {A B : Type}.
Implicit Types (k : A -> M B).

Lemma bind_ret (a : A) k w : bind (ret a) k w = k a w.
Proof. reflexivity. Qed.

Lemma bind_raise (e : exn) k w : bind (raise e) k w = (Raise e, w).
Proof. reflexivity. Qed.

Lemma bind_assoc {C} (m : M C) (f : C -> M A) k w :
  bind (bind m f) k w = bind m (fun x => bind (f x) k) w.
Proof. unfold bind. destruct (m w) as [[c|e] w']; reflexivity. Qed.

Lemma bind_ok (m : M A) k w a w' : m w = (Ok a, w') -> bind m k w = k a w'.
Proof. intros H. unfold bind. rewrite H. reflexivity. Qed.

Lemma bind_fail (m : M A) k w e w' : m w = (Raise e, w') -> bind m k w = (Raise e, w').
Proof. intros H. unfold bind. rewrite H. reflexivity. Qed.
End Exec.

Section HeapSteps.
Local Open Scope nat_scope.
Context {B : Type}.
Variables (h0 suf : list ndarray) (dd : list dataset) (ll : list event).

Lemma new_frame x :
  new x (World (h0 ++ suf) dd ll)
  = (Ok (length h0 + length suf), World (h0 ++ (suf ++ [x])) dd ll).
Proof. unfold new, set_heap. simpl. rewrite length_app, app_assoc. reflexivity. Qed.

Lemma bind_new x (k : loc -> M B) :
  bind (new x) k (World (h0 ++ suf) dd ll)
  = k (length h0 + length suf) (World (h0 ++ (suf ++ [x])) dd ll).
Proof. apply bind_ok, new_frame. Qed.

Lemma bind_deref_new n v (k : ndarray -> M B) :
  suf !! n = Some v ->
  bind (deref (length h0 + n)) k (World (h0 ++ suf) dd ll) = k v (World (h0 ++ suf) dd ll).
Proof.
  intros H. apply bind_ok. unfold deref. simpl.
  rewrite lookup_app_r by lia.
  replace (length h0 + n - length h0) with n by lia.
  rewrite H. reflexivity.
Qed.

Lemma bind_deref_old i v (k : ndarray -> M B) :
  h0 !! i = Some v ->
  bind (deref i) k (World (h0 ++ suf) dd ll) = k v (World (h0 ++ suf) dd ll).
Proof.
  intros H. apply bind_ok. unfold deref. simpl.
  rewrite (lookup_app_l_Some _ _ _ _ H). reflexivity.
Qed.

Lemma bind_assign_new n x (k : unit -> M B) :
  n < length suf ->
  bind (assign (length h0 + n) x) k (World (h0 ++ suf) dd ll)
  = k tt (World (h0 ++ <[n := x]> suf) dd ll).
Proof.
  intros H. apply bind_ok. unfold assign, set_heap. simpl.
  rewrite decide_True by (rewrite length_app; lia).
  rewrite insert_app_r_alt by lia.
  replace (length h0 + n - length h0) with n by lia. reflexivity.
Qed.
End HeapSteps.

Lemma bind_truediv {B} a b (k : spec_float -> M B) w :
  b <> 0 ->
  bind (py_truediv a b) k w = k (IEEE.div IEEE.B64 (int_as_float a) (int_as_float b)) w.
Proof.
  intros H. unfold py_truediv. destruct (Z.eqb_spec b 0); [contradiction | reflexivity].
Qed.

(** ** numpy on arrays of one type *)

Lemma as_float_same f a : Numpy.as_float f (FloatArr f a) = a.
Proof. unfold Numpy.as_float. rewrite decide_True; reflexivity. Qed.

Lemma as_int_same t a : Numpy.as_int t (IntArr t a) = a.
Proof. unfold Numpy.as_int. rewrite decide_True; reflexivity. Qed.

Lemma cast_out_float f a : Numpy.cast_out (FloatArr f a) (DFloat f) = Some (FloatArr f a).
Proof. unfold Numpy.cast_out. cbn [dtype_of Numpy.astype]. rewrite as_float_same. reflexivity. Qed.

Lemma cast_out_int t a : Numpy.cast_out (IntArr t a) (DInt t) = Some (IntArr t a).
Proof. unfold Numpy.cast_out. cbn [dtype_of Numpy.astype]. rewrite as_int_same. reflexivity. Qed.

Lemma promote_float f : Numpy.promote (DFloat f) (DFloat f) = DFloat f.
Proof. destruct f; reflexivity. Qed.

Lemma promote_int_same t : Numpy.promote (DInt t) (DInt t) = DInt t.
Proof. unfold Numpy.promote, Numpy.promote_int. rewrite decide_True; reflexivity. Qed.

Lemma arith_float opi opf f a b :
  Numpy.arith opi opf (FloatArr f a) (FloatArr f b) = FloatArr f (mzip (opf f) a b).
Proof.
  unfold Numpy.arith. cbn [dtype_of]. rewrite promote_float, !as_float_same. reflexivity.
Qed.

Lemma arith_int opi opf t a b :
  Numpy.arith opi opf (IntArr t a) (IntArr t b)
  = IntArr t (mzip (fun u v => wrap t (opi u v)) a b).
Proof.
  unfold Numpy.arith. cbn [dtype_of]. rewrite promote_int_same, !as_int_same. reflexivity.
Qed.

Lemma divide_float f a b :
  Numpy.divide (FloatArr f a) (FloatArr f b) = FloatArr f (mzip (IEEE.div f) a b).
Proof.
  unfold Numpy.divide. cbn [dtype_of]. rewrite promote_float, !as_float_same. reflexivity.
Qed.

Ltac np_simpl :=
  repeat progress
    (unfold Numpy.add, Numpy.subtract, Numpy.multiply, Numpy.copy;
     cbn [Numpy.array Numpy.astype float32 dtype_of Numpy.square Numpy.sqrt
          Numpy.uniform_filter Numpy.clamp_negative Numpy.with_scalar Numpy.with_int
          Numpy.times_mask Numpy.exp_array Numpy.compare_scalar Numpy.label Numpy.foreground
          fst snd];
     rewrite ?arith_float, ?arith_int, ?divide_float, ?cast_out_float, ?cast_out_int).

Ltac heap_step :=
  first
    [ rewrite bind_assoc
    | rewrite bind_ret
    | rewrite bind_new
    | erewrite bind_deref_new by reflexivity
    | erewrite bind_deref_old by eassumption
    | rewrite bind_assign_new by (simpl; lia)
    | rewrite bind_truediv by assumption ];
  cbn [length app Nat.add list_insert insert dtype_of].

Ltac heap_unfold :=
  unfold np_array, np_copy, np_square, uniform_filter, uniform_filter_out, store_out,
    np_square_out, np_sqrt_out, np_subtract_out, clamp_negative, label, variance,
    np_add_scalar, np_divide_out, np_multiply_out, np_add_out, np_times_mask_inplace.

Ltac heap_run := repeat (heap_unfold; np_simpl; try heap_step).

(** ** What running each filter does to the heap *)

Lemma lee_filter_run w img a win :
  w_heap w !! img = Some a ->
  lee_filter img win w
  = (Ok (length (w_heap w)),
     set_heap (w_heap w ++ lee_cells win (Numpy.as_float IEEE.B32 a)) w).
Proof.
  destruct w as [h dd ll]. cbn [w_heap]. intros H.
  rewrite <- (app_nil_r h) at 1.
  unfold lee_filter, moving_window_sd.
  heap_run. unfold ret. rewrite Nat.add_0_r. reflexivity.
Qed.

Lemma lee_filter2_run w img d win :
  w_heap w !! img = Some (FloatArr IEEE.B32 d) ->
  lee_filter2 img win w
  = (Ok (length (w_heap w)),
     set_heap (w_heap w ++ [FloatArr IEEE.B32 (lee2_value win d)]) w).
Proof.
  destruct w as [h dd ll]. cbn [w_heap]. intros H.
  rewrite <- (app_nil_r h) at 1.
  unfold lee_filter2, lee_filter2_stats.
  heap_run. rewrite new_frame, Nat.add_0_r. reflexivity.
Qed.

Lemma enhanced_lee_filter_run w img a looks win df :
  w_heap w !! img = Some a ->
  looks <> 0 ->
  enhanced_lee_filter img looks win df w
  = (Ok (length (w_heap w) + 5)%nat,
     set_heap (w_heap w ++ elee_cells looks df win (Numpy.as_float IEEE.B32 a)) w).
Proof.
  destruct w as [h dd ll]. cbn [w_heap]. intros H Hl.
  rewrite <- (app_nil_r h) at 1.
  unfold enhanced_lee_filter, window_stdev.
  heap_run. rewrite new_frame. cbn [length Nat.add app].
  reflexivity.
Qed.

(** ** Entries of mapped and zipped arrays *)

Section Lookup.
Local Open Scope nat_scope.
Context {A B C : Type}.

Lemma mget_mmap (f : A -> B) (a : matrix A) i j :
  mget (mmap f a) i j = f <$> mget a i j.
Proof.
  unfold mget, mmap. rewrite list_lookup_fmap.
  destruct (a !! i) as [r|]; simpl; [apply list_lookup_fmap | reflexivity].
Qed.

Lemma mget_mzip (f : A -> B -> C) (a : matrix A) (b : matrix B) i j :
  mget (mzip f a b) i j
  = match mget a i j, mget b i j with
    | Some x, Some y => Some (f x y)
    | _, _ => None
    end.
Proof.
  unfold mget, mzip. rewrite lookup_zip_with.
  destruct (a !! i) as [r|]; simpl; [| reflexivity].
  destruct (b !! i) as [s|]; simpl.
  - rewrite lookup_zip_with.
    destruct (r !! j); simpl; [| reflexivity]. destruct (s !! j); reflexivity.
  - destruct (r !! j); reflexivity.
Qed.

Lemma mget_imap2 (g : nat -> nat -> A -> B) (a : matrix A) i j :
  mget (imap (fun i (row : list A) => imap (g i) row) a) i j = g i j <$> mget a i j.
Proof.
  unfold mget. rewrite list_lookup_imap.
  destruct (a !! i) as [r|]; simpl; [apply list_lookup_imap | reflexivity].
Qed.
End Lookup.

Lemma mget_filter_axis0 {A} (e : elem A) size (a : matrix A) i j x :
  mget a i j = Some x -> is_Some (mget (Ndimage.filter_axis0 e size a) i j).
Proof.
  intros H. unfold Ndimage.filter_axis0.
  rewrite (mget_imap2 (fun i j _ => of_double e _)), H. simpl. eauto.
Qed.

Lemma mget_filter_axis1 {A} (e : elem A) size (a : matrix A) i j x :
  mget a i j = Some x -> is_Some (mget (Ndimage.filter_axis1 e size a) i j).
Proof.
  unfold mget, Ndimage.filter_axis1, Ndimage.uniform_filter1d.
  rewrite list_lookup_fmap. destruct (a !! i) as [r|]; simpl; [| discriminate].
  intros H. rewrite list_lookup_imap, H. simpl. eauto.
Qed.

Lemma mget_uniform_filter {A} (e : elem A) size (a : matrix A) i j x :
  mget a i j = Some x -> is_Some (mget (Ndimage.uniform_filter e size a) i j).
Proof.
  intros H. unfold Ndimage.uniform_filter.
  destruct (1 <? fst size).
  - destruct (mget_filter_axis0 e (fst size) a i j x H) as [y Hy].
    destruct (1 <? snd size); [eapply mget_filter_axis1 |]; eauto.
  - destruct (1 <? snd size); [eapply mget_filter_axis1 |]; eauto.
Qed.

(** The local statistics exist wherever the input has an entry. *)
Lemma pixel_stats win d i j x :
  mget d i j = Some x ->
  exists m q, mget (box win d) i j = Some m /\ mget (box win (sq32 d)) i j = Some q.
Proof.
  intros H.
  destruct (mget_uniform_filter (float_elem IEEE.B32) (sizes win) d i j x H) as [m Hm].
  assert (Hs : mget (sq32 d) i j = Some (IEEE.mul IEEE.B32 x x))
    by (unfold sq32; rewrite mget_mmap, H; reflexivity).
  destruct (mget_uniform_filter (float_elem IEEE.B32) (sizes win) _ i j _ Hs) as [q Hq].
  exists m, q. split; assumption.
Qed.

Ltac mget_simpl H Hm Hq :=
  repeat (rewrite ?mget_mzip, ?mget_mmap, ?H, ?Hm, ?Hq; cbn [fmap option_fmap option_map]).

Lemma raw_variance_pixel win d i j m q :
  mget (box win d) i j = Some m -> mget (box win (sq32 d)) i j = Some q ->
  mget (raw_variance win d) i j
  = Some (IEEE.sub IEEE.B32 q (IEEE.mul IEEE.B32 m m)).
Proof.
  intros Hm Hq. unfold raw_variance. rewrite mget_mzip, Hq.
  unfold sq32 at 1. rewrite mget_mmap, Hm. reflexivity.
Qed.

Lemma lee_value_pixel win d i j x m q :
  mget d i j = Some x ->
  mget (box win d) i j = Some m -> mget (box win (sq32 d)) i j = Some q ->
  mget (lee_value win d) i j
  = Some (lee_pixel (lee_overall d) (clamp (IEEE.sub IEEE.B32 q (IEEE.mul IEEE.B32 m m))) m x).
Proof.
  intros H Hm Hq.
  unfold lee_value, lee_weights, lee_denominator, local_variance.
  pose proof (raw_variance_pixel win d i j m q Hm Hq) as Hr.
  mget_simpl H Hm Hr. reflexivity.
Qed.

Lemma lee2_value_pixel win d i j x m q :
  mget d i j = Some x ->
  mget (box win d) i j = Some m -> mget (box win (sq32 d)) i j = Some q ->
  mget (lee2_value win d) i j
  = Some (lee2_pixel (lee2_overall d) (IEEE.sub IEEE.B32 q (IEEE.mul IEEE.B32 m m)) m x).
Proof.
  intros H Hm Hq. unfold lee2_value.
  pose proof (raw_variance_pixel win d i j m q Hm Hq) as Hr.
  mget_simpl H Hm Hr. reflexivity.
Qed.

Lemma elee_value_pixel looks df win d i j x m q :
  mget d i j = Some x ->
  mget (box win d) i j = Some m -> mget (box win (sq32 d)) i j = Some q ->
  mget (elee_value looks df win d) i j
  = Some (elee_pixel (elee_Cu looks) (elee_Cmax looks) df x m
            (IEEE.sqrt IEEE.B32 (IEEE.sub IEEE.B32 q (IEEE.mul IEEE.B32 m m)))).
Proof.
  intros H Hm Hq.
  pose proof (raw_variance_pixel win d i j m q Hm Hq) as Hr.
  unfold elee_value, elee_W, elee_M1, elee_M2, elee_M3, elee_Ci, stdev. cbn zeta.
  mget_simpl H Hm Hr. reflexivity.
Qed.

(** ** NaN and infinity in IEEE arithmetic *)

Section Specials.
Variable f : IEEE.format.

Lemma add_nan_r x : IEEE.add f x S754_nan = S754_nan.
Proof. destruct x; reflexivity. Qed.

Lemma mul_nan_r x : IEEE.mul f x S754_nan = S754_nan.
Proof. destruct x; reflexivity. Qed.

Lemma sub_nan_r x : IEEE.sub f x S754_nan = S754_nan.
Proof. destruct x; reflexivity. Qed.

Lemma div_nan_r x : IEEE.div f x S754_nan = S754_nan.
Proof. destruct x; reflexivity. Qed.

Lemma div_zero_zero s t : IEEE.div f (S754_zero s) (S754_zero t) = S754_nan.
Proof. reflexivity. Qed.

Lemma add_zero_zero s t : exists u, IEEE.add f (S754_zero s) (S754_zero t) = S754_zero u.
Proof. destruct s, t; eexists; reflexivity. Qed.

Lemma exp_nan : Numpy.exp f S754_nan = S754_nan.
Proof. reflexivity. Qed.

(** A quotient by zero is a NaN or an infinity. *)
Lemma div_by_zero x s :
  IEEE.div f x (S754_zero s) = S754_nan \/ exists t, IEEE.div f x (S754_zero s) = S754_infinity t.
Proof. destruct x; simpl; eauto. Qed.

(** [k * (Ci - Cu) / (Cmax - Ci)] is a NaN when [Ci] is infinite. *)
Lemma damping_of_infinity k cu cmax t :
  IEEE.div f (IEEE.mul f k (IEEE.sub f (S754_infinity t) cu)) (IEEE.sub f cmax (S754_infinity t))
  = S754_nan.
Proof.
  destruct cu as [| su | |]; destruct cmax as [| sm | |];
    try destruct su; try destruct sm; destruct t; destruct k as [| [] | |]; reflexivity.
Qed.
End Specials.

Lemma clamp_not_negative v : IEEE.ltb (clamp v) IEEE.pzero = false.
Proof.
  unfold clamp. destruct (IEEE.ltb v IEEE.pzero) eqn:E; [reflexivity | exact E].
Qed.

Lemma clamp_zero s : clamp (S754_zero s) = S754_zero s.
Proof. reflexivity. Qed.

(** ** The enhanced Lee filter at a pixel whose local mean is zero *)

Lemma elee_pixel_zero_mean Cu Cmax df Ic S s :
  elee_pixel Cu Cmax df Ic (S754_zero s) S = S754_nan.
Proof.
  unfold elee_pixel, times_bool. cbn zeta.
  assert (HW : forall b,
             IEEE.mul IEEE.B32
               (IEEE.div IEEE.B32
                  (IEEE.mul IEEE.B32 (IEEE.of_Z IEEE.B32 (- df))
                     (IEEE.sub IEEE.B32 (IEEE.div IEEE.B32 S (S754_zero s)) Cu))
                  (IEEE.sub IEEE.B32 Cmax (IEEE.div IEEE.B32 S (S754_zero s))))
               (IEEE.of_bool IEEE.B32 b) = S754_nan).
  { intros b.
    destruct (div_by_zero IEEE.B32 S s) as [E | [t E]]; rewrite E.
    - change (IEEE.sub IEEE.B32 S754_nan Cu) with S754_nan.
      rewrite mul_nan_r. reflexivity.
    - rewrite damping_of_infinity. reflexivity. }
  rewrite HW, exp_nan.
  change (IEEE.mul IEEE.B32 (S754_zero s) S754_nan) with S754_nan.
  change (IEEE.add IEEE.B32 S754_nan ?x) with S754_nan.
  cbn [IEEE.add IEEE.mul SFadd SFmul IEEE.prec IEEE.emax].
  rewrite (add_nan_r IEEE.B32). reflexivity.
Qed.

(* ================================================================= *)
(** ** The enhanced Lee filter: regions (C1) and zero means (C2) *)

Lemma ltb_geb x y : IEEE.ltb x y = true -> IEEE.geb y x = true.
Proof.
  unfold IEEE.ltb, IEEE.geb, SFltb, SFleb.
  destruct (SFcompare x y) as [[| |] |]; intros H; try discriminate; reflexivity.
Qed.

(** Every pixel of the second mask lies in the third as well. *)
Lemma elee_M2_inside_M3 Cu Cmax Ci i j :
  mget (elee_M2 Cu Cmax Ci) i j = Some true -> mget (elee_M3 Cu Ci) i j = Some true.
Proof.
  unfold elee_M2, elee_M3. rewrite mget_mzip, !mget_mmap.
  destruct (mget Ci i j) as [v |]; cbn; [| discriminate].
  intros [= H]. apply andb_true_iff in H as [H _].
  rewrite (ltb_geb _ _ H). reflexivity.
Qed.

(** C1 (defect in the code).  The docstring and the specification give the
    enhanced Lee filter three disjoint regions: [Im] for [Ci <= Cu], the
    weighted value for [Cu < Ci < Cmax], [Ic] for [Ci >= Cmax].  The third
    mask of the code is [Ci >= Cu], so for every image the whole second mask
    lies inside the third.  On the 1x2 image [[0, 2]] with window 2 the
    second pixel has [Im = 1] and [Ci = 1].  With [looks = 1], [Cu = 1]: the
    pixel lies in both the first and the third mask and the output is
    [Im + Ic = 3], where the documented value is [Im = 1].  With [looks = 4],
    [Cu = 0.5 < Ci < Cmax]: the pixel lies in the second and the third mask
    and the output is the weighted value plus [Ic]. *)
Theorem elee_third_mask_overlaps_the_other_two :
  (forall looks win d i j,
      mget (elee_M2 (elee_Cu looks) (elee_Cmax looks) (elee_Ci win d)) i j = Some true ->
      mget (elee_M3 (elee_Cu looks) (elee_Ci win d)) i j = Some true)
  /\ mget (box (WInt 2) (mmap f32 [[0; 2]])) 0 1 = Some (f32 1)
  /\ mget (elee_Ci (WInt 2) (mmap f32 [[0; 2]])) 0 1 = Some (f32 1)
  /\ (elee_Cu 1 = f32 1
      /\ mget (elee_M1 (elee_Cu 1) (elee_Ci (WInt 2) (mmap f32 [[0; 2]]))) 0 1 = Some true
      /\ mget (elee_M3 (elee_Cu 1) (elee_Ci (WInt 2) (mmap f32 [[0; 2]]))) 0 1 = Some true
      /\ call_on (image [[0; 2]]) (fun img => enhanced_lee_filter img 1 (WInt 2) 1)
         = Some (FloatArr IEEE.B32 [[S754_nan; f32 3]])
      /\ elee_pixel_documented (elee_Cu 1) (elee_Cmax 1) 1 (f32 2) (f32 1) (f32 1) = f32 1)
  /\ (mget (elee_M2 (elee_Cu 4) (elee_Cmax 4) (elee_Ci (WInt 2) (mmap f32 [[0; 2]]))) 0 1
      = Some true
      /\ mget (elee_M3 (elee_Cu 4) (elee_Ci (WInt 2) (mmap f32 [[0; 2]]))) 0 1 = Some true
      /\ call_on (image [[0; 2]]) (fun img => enhanced_lee_filter img 4 (WInt 2) 1)
         = Some (FloatArr IEEE.B32 [[S754_nan; IEEE.of_scaled IEEE.B32 16323832 (-22)]])
      /\ elee_pixel_documented (elee_Cu 4) (elee_Cmax 4) 1 (f32 2) (f32 1) (f32 1)
         = IEEE.of_scaled IEEE.B32 15870449 (-23)).
Proof.
  split.
  - intros looks win d i j. apply elee_M2_inside_M3.
  - vm_compute. repeat split; reflexivity.
Qed.

Lemma elee_result_cell h looks df win d :
  (h ++ elee_cells looks df win d) !! (length h + 5)%nat
  = Some (FloatArr IEEE.B32 (elee_value looks df win d)).
Proof.
  rewrite lookup_app_r by lia.
  replace (length h + 5 - length h)%nat with 5%nat by lia. reflexivity.
Qed.

(** C2 (amended).  The division [Ci = S / Im] is not guarded.  At every pixel
    whose local mean [Im] is zero the quotient is a NaN or an infinity, the
    masked exponent is a NaN, and the output of the enhanced Lee filter at
    that pixel is NaN, whatever the pixel, the deviation, [looks] and [df]
    are. *)
Theorem elee_zero_mean_pixel_is_nan w img a looks win df i j x s :
  w_heap w !! img = Some a ->
  looks <> 0 ->
  mget (Numpy.as_float IEEE.B32 a) i j = Some x ->
  mget (box win (Numpy.as_float IEEE.B32 a)) i j = Some (S754_zero s) ->
  exists r w' out,
    enhanced_lee_filter img looks win df w = (Ok r, w')
    /\ w_heap w' !! r = Some (FloatArr IEEE.B32 out)
    /\ mget out i j = Some S754_nan.
Proof.
  intros Himg Hlooks Hx Hm.
  destruct (pixel_stats win _ i j x Hx) as (m & q & Hm' & Hq).
  rewrite (enhanced_lee_filter_run w img a looks win df Himg Hlooks).
  eexists _, _, _. split; [reflexivity |]. split.
  - cbn [set_heap w_heap]. apply elee_result_cell.
  - rewrite (elee_value_pixel looks df win _ i j x _ q Hx Hm Hq).
    rewrite elee_pixel_zero_mean. reflexivity.
Qed.

Lemma elee_zero_mean_pixel_is_nan_witness :
  exists r w' out,
    enhanced_lee_filter 0%nat 1 (WInt 2) 1
      (World [image [[0; 0; 0]; [0; 0; 0]; [0; 0; 9]]] [] []) = (Ok r, w')
    /\ w_heap w' !! r = Some (FloatArr IEEE.B32 out)
    /\ mget out 0 0 = Some S754_nan.
Proof.
  apply (elee_zero_mean_pixel_is_nan
           (World [image [[0; 0; 0]; [0; 0; 0]; [0; 0; 9]]] [] []) 0%nat
           (image [[0; 0; 0]; [0; 0; 0]; [0; 0; 9]]) 1 (WInt 2) 1 0%nat 0%nat (f32 0) false).
  - reflexivity.
  - discriminate.
  - reflexivity.
  - vm_compute. reflexivity.
Defined.

(** C2, as stated, fails: the all-zero 3x3 image is finite and non-negative,
    [looks = 1 > 0], and every entry of the output is NaN. *)
Lemma elee_all_zero_image_gives_nan :
  call_on (image [[0; 0; 0]; [0; 0; 0]; [0; 0; 0]])
          (fun img => enhanced_lee_filter img 1 enhanced_lee_filter_window enhanced_lee_filter_df)
  = Some (all_nan 3 3).
Proof. vm_compute. reflexivity. Qed.

(* ================================================================= *)
(** ** The Lee filter where the variances vanish (C3) *)

Lemma lee_pixel_zero_variance s t m x :
  lee_pixel (S754_zero t) (clamp (S754_zero s)) m x = S754_nan.
Proof.
  unfold lee_pixel. rewrite clamp_zero.
  destruct (add_zero_zero IEEE.B32 t s) as [u ->].
  rewrite div_zero_zero.
  change (IEEE.mul IEEE.B32 S754_nan ?y) with S754_nan.
  apply add_nan_r.
Qed.

Lemma lee2_pixel_zero_variance s t m x :
  lee2_pixel (S754_zero t) (S754_zero s) m x = S754_nan.
Proof.
  unfold lee2_pixel.
  destruct (add_zero_zero IEEE.B32 s t) as [u ->].
  rewrite div_zero_zero.
  change (IEEE.mul IEEE.B32 S754_nan ?y) with S754_nan.
  apply add_nan_r.
Qed.

Lemma lee_result_cell h win d :
  (h ++ lee_cells win d) !! length h = Some (FloatArr IEEE.B32 (lee_value win d)).
Proof.
  rewrite lookup_app_r by lia. rewrite Nat.sub_diag. reflexivity.
Qed.

Lemma lee2_result_cell h (c : ndarray) : (h ++ [c]) !! length h = Some c.
Proof.
  rewrite lookup_app_r by lia. rewrite Nat.sub_diag. reflexivity.
Qed.

(** C3 (amended).  Neither Lee filter has a fallback for a vanishing
    denominator.  At every pixel where the local variance is zero while the
    overall variance is zero, the weight is [0/0 = NaN], and so is the output
    of [lee_filter] and of [lee_filter2] at that pixel. *)
Theorem lee_zero_variance_pixel_is_nan w img d win i j x s t t' :
  w_heap w !! img = Some (FloatArr IEEE.B32 d) ->
  mget d i j = Some x ->
  mget (raw_variance win d) i j = Some (S754_zero s) ->
  lee_overall d = S754_zero t ->
  lee2_overall d = S754_zero t' ->
  (exists r w' out,
     lee_filter img win w = (Ok r, w')
     /\ w_heap w' !! r = Some (FloatArr IEEE.B32 out)
     /\ mget out i j = Some S754_nan)
  /\ (exists r w' out,
        lee_filter2 img win w = (Ok r, w')
        /\ w_heap w' !! r = Some (FloatArr IEEE.B32 out)
        /\ mget out i j = Some S754_nan).
Proof.
  intros Himg Hx Hvar Hov Hov2.
  destruct (pixel_stats win d i j x Hx) as (m & q & Hm & Hq).
  rewrite (raw_variance_pixel win d i j m q Hm Hq) in Hvar.
  injection Hvar as Hvar.
  split.
  - rewrite (lee_filter_run w img _ win Himg), as_float_same.
    eexists _, _, _. split; [reflexivity |]. split.
    + cbn [set_heap w_heap]. apply lee_result_cell.
    + rewrite (lee_value_pixel win d i j x m q Hx Hm Hq), Hvar, Hov.
      rewrite lee_pixel_zero_variance. reflexivity.
  - rewrite (lee_filter2_run w img d win Himg).
    eexists _, _, _. split; [reflexivity |]. split.
    + cbn [set_heap w_heap]. apply lee2_result_cell.
    + rewrite (lee2_value_pixel win d i j x m q Hx Hm Hq), Hvar, Hov2.
      rewrite lee2_pixel_zero_variance. reflexivity.
Qed.

Lemma lee_zero_variance_pixel_is_nan_witness :
  (exists r w' out,
     lee_filter 0%nat (WPair 3 3) (World [flat_100] [] []) = (Ok r, w')
     /\ w_heap w' !! r = Some (FloatArr IEEE.B32 out)
     /\ mget out 4 7 = Some S754_nan)
  /\ (exists r w' out,
        lee_filter2 0%nat (WPair 3 3) (World [flat_100] [] []) = (Ok r, w')
        /\ w_heap w' !! r = Some (FloatArr IEEE.B32 out)
        /\ mget out 4 7 = Some S754_nan).
Proof.
  apply (lee_zero_variance_pixel_is_nan (World [flat_100] [] []) 0%nat
           (mmap f32 (replicate 10 (replicate 10 100))) (WPair 3 3) 4%nat 7%nat
           (f32 100) false false false).
  - reflexivity.
  - reflexivity.
  - vm_compute. reflexivity.
  - vm_compute. reflexivity.
  - vm_compute. reflexivity.
Defined.

(** C3, as stated, fails on the specification's own scenario: the 10x10 image
    of constant value 100 with a 3x3 window comes back from both Lee filters
    as NaN everywhere, not as the input. *)
Lemma lee_flat_image_gives_nan :
  call_on flat_100 (fun img => lee_filter img (WPair 3 3)) = Some (all_nan 10 10)
  /\ call_on flat_100 (fun img => lee_filter2 img (WPair 3 3)) = Some (all_nan 10 10).
Proof. vm_compute. split; reflexivity. Qed.

(* ================================================================= *)
(** ** Connected-component labels mark exactly the non-zero pixels *)

Section Labels.
Local Open Scope nat_scope.

Lemma Forall2_imap2 {A B C} (P : A -> C -> Prop) (R : B -> C -> Prop)
    (g : nat -> nat -> A -> B) (a : matrix A) (c : matrix C) :
Forall2 (Forall2 P) a c ->
(forall i j x y, mget a i j = Some x -> mget c i j = Some y -> P x y -> R (g i j x) y) ->
Forall2 (Forall2 R) (imap (fun i (row : list A) => imap (g i) row) a) c.
Proof.
intros Hac Hstep.
apply Forall2_same_length_lookup_2.
- rewrite length_imap. eapply Forall2_length, Hac.
- intros i brow crow Hb Hc.
  rewrite list_lookup_imap in Hb.
  destruct (a !! i) as [arow|] eqn:Ha; [| discriminate].
  injection Hb as <-.
  pose proof (Forall2_lookup_lr _ _ _ _ _ _ Hac Ha Hc) as Hrow.
  apply Forall2_same_length_lookup_2.
  + rewrite length_imap. eapply Forall2_length, Hrow.
  + intros j y z Hy Hz.
    rewrite list_lookup_imap in Hy.
    destruct (arow !! j) as [x|] eqn:Hx; [| discriminate].
    injection Hy as <-.
    apply Hstep.
    * unfold mget. rewrite Ha. exact Hx.
    * unfold mget. rewrite Hc. exact Hz.
    * eapply Forall2_lookup_lr; eauto.
Qed.

Lemma Forall2_eq_refl {A} (a : matrix A) : Forall2 (Forall2 eq) a a.
Proof. apply Forall_Forall2_diag, Forall_forall. intros r _. apply Forall_Forall2_diag, Forall_forall. reflexivity. Qed.

Lemma mget_labelling_ok l fg i j x :
labelling_ok l fg -> mget l i j = Some x -> (0 <= x)%Z.
Proof.
unfold mget. intros Hok Hx.
destruct (l !! i) as [row|] eqn:Hrow; [| discriminate].
destruct (Forall2_lookup_l _ _ _ _ _ Hok Hrow) as (frow & _ & Hr).
destruct (Forall2_lookup_l _ _ _ _ _ Hr Hx) as (b & _ & [H _]). exact H.
Qed.

Lemma neighbour_nonneg l fg i j :
labelling_ok l fg -> (0 <= Ndimage.neighbour l i j)%Z.
Proof.
intros Hok. unfold Ndimage.neighbour.
destruct (mget l i j) as [x|] eqn:Hx; simpl; [| lia].
eapply mget_labelling_ok; eauto.
Qed.

Lemma min_label_pos x y : (0 < x)%Z -> (0 <= y)%Z -> (0 < Ndimage.min_label x y)%Z.
Proof. unfold Ndimage.min_label. intros Hx Hy. destruct (Z.eqb_spec y 0); lia. Qed.

Lemma label_init_ok fg : labelling_ok (Ndimage.label_init fg) fg.
Proof.
unfold labelling_ok, Ndimage.label_init.
apply (Forall2_imap2 eq lab_ok
         (fun i j (b : bool) => if b then Ndimage.pixel_id (Ndimage.ncols fg) i j else 0%Z)).
- apply Forall2_eq_refl.
- intros i j x y _ _ ->. unfold lab_ok, Ndimage.pixel_id.
  destruct y; split; try reflexivity; try lia.
  apply Z.ltb_lt. lia.
Qed.

Lemma label_step_ok l fg : labelling_ok l fg -> labelling_ok (Ndimage.label_step l) fg.
Proof.
intros Hok. unfold labelling_ok, Ndimage.label_step.
apply (Forall2_imap2 lab_ok lab_ok
         (fun i j (x : Z) =>
            if (x =? 0)%Z then 0%Z
            else Ndimage.min_label (Ndimage.min_label (Ndimage.min_label (Ndimage.min_label x
                   (Ndimage.neighbour l (Nat.pred i) j)) (Ndimage.neighbour l (S i) j))
                   (Ndimage.neighbour l i (Nat.pred j))) (Ndimage.neighbour l i (S j))));
  [exact Hok |].
intros i j x b _ _ [Hx Hb].
destruct (Z.eqb_spec x 0) as [-> | Hne]; [split; [lia | exact Hb] |].
assert (Hpos : (0 < x)%Z) by lia.
assert (Hb' : b = true) by (rewrite <- Hb; apply Z.ltb_lt; exact Hpos).
pose proof (neighbour_nonneg l fg) as Hn.
assert (Hres : (0 < Ndimage.min_label (Ndimage.min_label (Ndimage.min_label (Ndimage.min_label x
                   (Ndimage.neighbour l (Nat.pred i) j)) (Ndimage.neighbour l (S i) j))
                   (Ndimage.neighbour l i (Nat.pred j))) (Ndimage.neighbour l i (S j)))%Z)
  by (repeat apply min_label_pos; auto).
split; [lia |]. rewrite Hb'. apply Z.ltb_lt, Hres.
Qed.

Lemma label_iter_ok n fg : labelling_ok (Nat.iter n Ndimage.label_step (Ndimage.label_init fg)) fg.
Proof.
induction n as [| n IH]; simpl; [apply label_init_ok | apply label_step_ok, IH].
Qed.

Lemma label_rank_ok roots x b : lab_ok x b -> lab_ok (Ndimage.label_rank roots x) b.
Proof.
intros [Hx Hb]. unfold lab_ok, Ndimage.label_rank.
destruct (Z.eqb_spec x 0) as [-> | Hne]; [split; [lia | exact Hb] |].
split; [lia |].
rewrite <- Hb. transitivity true; [apply Z.ltb_lt; lia | symmetry; apply Z.ltb_lt; lia].
Qed.

Lemma label_ok fg : labelling_ok (fst (Ndimage.label fg)) fg.
Proof.
unfold Ndimage.label. cbn [fst]. unfold labelling_ok, mmap.
apply Forall2_fmap_l.
eapply Forall2_impl; [apply label_iter_ok |].
intros lrow frow Hrow. apply Forall2_fmap_l.
eapply Forall2_impl; [exact Hrow |].
intros x b. apply label_rank_ok.
Qed.

(** The mask [labels > 0] is the foreground mask. *)
Lemma label_mask fg : mmap (fun x => (0 <? x)%Z) (fst (Ndimage.label fg)) = fg.
Proof.
pose proof (label_ok fg) as Hok. unfold labelling_ok in Hok.
induction Hok as [| lrow frow l f Hrow _ IH]; [reflexivity |].
unfold mmap in *. rewrite fmap_cons, IH. f_equal.
clear -Hrow. induction Hrow as [| x b r s [_ Hb] _ IHr]; [reflexivity |].
rewrite fmap_cons, IHr, Hb. reflexivity.
Qed.

Lemma select_row (r : list spec_float) :
(snd <$> filter (fun p : bool * spec_float => fst p = true) (zip (IEEE.nonzero <$> r) r))
= filter (fun v => IEEE.nonzero v = true) r.
Proof.
induction r as [| v r IH]; [reflexivity |].
rewrite fmap_cons. cbn [zip zip_with]. rewrite !filter_cons. cbn [fst].
destruct (decide (IEEE.nonzero v = true)); [rewrite fmap_cons; cbn [snd] |]; rewrite IH; reflexivity.
Qed.

Lemma mselect_nonzero (d : matrix spec_float) :
mselect (mmap IEEE.nonzero d) d = nonzero_pixels d.
Proof.
unfold mselect, nonzero_pixels, mmap.
induction d as [| r d IH]; [reflexivity |].
rewrite fmap_cons. cbn [zip_with concat]. rewrite filter_app, IH, select_row. reflexivity.
Qed.

End Labels.

(** [variance(d, lbl)] is the variance of the non-zero pixels of [d], all
    regions together. *)
Lemma lee_overall_nonzero_pixels d :
  lee_overall d = IEEE.cast IEEE.B32 (Ndimage.variance_vals IEEE.B32 (nonzero_pixels d)).
Proof.
  unfold lee_overall, Numpy.label, Numpy.foreground, Ndimage.variance, Ndimage.select_all.
  rewrite label_mask, mselect_nonzero. reflexivity.
Qed.

(* ================================================================= *)
(** ** The overall variance of [lee_filter] (C4) *)

Lemma lee_cell_4 h win d :
  (h ++ lee_cells win d) !! (length h + 4)%nat = Some (FloatArr IEEE.B32 (lee_denominator win d)).
Proof.
  rewrite lookup_app_r by lia.
  replace (length h + 4 - length h)%nat with 4%nat by lia. reflexivity.
Qed.

(** C4 (amended).  [variance(d, lbl)] is called without an index, so it
    yields one number: the variance of all non-zero pixels of the image, the
    labelled regions taken together.  The array [overall_variance] of line 69
    is that one number added to the local variance of each pixel, and every
    output pixel is computed with that same number. *)
Theorem lee_overall_variance_is_one_scalar w img a win :
  w_heap w !! img = Some a ->
  exists r w' out,
    lee_filter img win w = (Ok r, w')
    /\ w_heap w' !! r = Some (FloatArr IEEE.B32 out)
    /\ w_heap w' !! (length (w_heap w) + 4)%nat
       = Some (FloatArr IEEE.B32
                 (mmap (fun v => IEEE.add IEEE.B32 (pooled_variance (Numpy.as_float IEEE.B32 a)) v)
                       (local_variance win (Numpy.as_float IEEE.B32 a))))
    /\ forall i j x m q,
         mget (Numpy.as_float IEEE.B32 a) i j = Some x ->
         mget (box win (Numpy.as_float IEEE.B32 a)) i j = Some m ->
         mget (box win (sq32 (Numpy.as_float IEEE.B32 a))) i j = Some q ->
         mget out i j
         = Some (lee_pixel (pooled_variance (Numpy.as_float IEEE.B32 a))
                   (clamp (IEEE.sub IEEE.B32 q (IEEE.mul IEEE.B32 m m))) m x).
Proof.
  intros Himg.
  rewrite (lee_filter_run w img a win Himg).
  eexists _, _, _. split; [reflexivity |]. cbn [set_heap w_heap].
  split; [apply lee_result_cell |]. split.
  - rewrite lee_cell_4. unfold lee_denominator, pooled_variance.
    rewrite lee_overall_nonzero_pixels. reflexivity.
  - intros i j x m q Hx Hm Hq.
    rewrite (lee_value_pixel win _ i j x m q Hx Hm Hq).
    unfold pooled_variance. rewrite lee_overall_nonzero_pixels. reflexivity.
Qed.

Lemma lee_overall_variance_is_one_scalar_witness :
  exists r w' out,
    lee_filter 0%nat (WPair 1 1) (World [image two_regions] [] []) = (Ok r, w')
    /\ w_heap w' !! r = Some (FloatArr IEEE.B32 out)
    /\ w_heap w' !! 5%nat
       = Some (FloatArr IEEE.B32
                 (mmap (fun v => IEEE.add IEEE.B32 (pooled_variance (mmap f32 two_regions)) v)
                       (local_variance (WPair 1 1) (mmap f32 two_regions))))
    /\ forall i j x m q,
         mget (mmap f32 two_regions) i j = Some x ->
         mget (box (WPair 1 1) (mmap f32 two_regions)) i j = Some m ->
         mget (box (WPair 1 1) (sq32 (mmap f32 two_regions))) i j = Some q ->
         mget out i j
         = Some (lee_pixel (pooled_variance (mmap f32 two_regions))
                   (clamp (IEEE.sub IEEE.B32 q (IEEE.mul IEEE.B32 m m))) m x).
Proof.
  apply (lee_overall_variance_is_one_scalar
           (World [image two_regions] [] []) 0%nat (image two_regions) (WPair 1 1)).
  reflexivity.
Defined.

(** C4, as stated, fails.  The image [1 1 0 5 5] has two labelled regions,
    each of variance 0, so the per-region reading gives every pixel the
    overall variance 0.  The code uses 4, the variance of [1, 1, 5, 5], at
    every pixel (the window is 1x1, so the local variance is 0 and the array
    [overall_variance] holds the overall variance itself). *)
Lemma lee_overall_variance_is_not_per_region :
  fst (Numpy.label (image two_regions)) = [[1; 1; 0; 2; 2]]
  /\ per_region_overall_variance (mmap f32 two_regions) = mmap f32 [[0; 0; 0; 0; 0]]
  /\ lee_overall (mmap f32 two_regions) = f32 4
  /\ w_heap (snd (lee_filter 0%nat (WPair 1 1) (World [image two_regions] [] []))) !! 5%nat
     = Some (image [[4; 4; 4; 4; 4]]).
Proof. vm_compute. repeat split; reflexivity. Qed.

(* ================================================================= *)
(** ** The two Lee filters side by side (C5) *)

Lemma add_comm f x y : IEEE.add f x y = IEEE.add f y x.
Proof.
  unfold IEEE.add.
  destruct x as [sx | sx | | sx mx ex], y as [sy | sy | | sy my ey]; try reflexivity.
  - destruct sx, sy; reflexivity.
  - destruct sx, sy; reflexivity.
  - cbn [SFadd]. cbv zeta. rewrite (Z.min_comm ey ex).
    rewrite (Z.add_comm (cond_Zopp sy _)). reflexivity.
Qed.

Lemma filter_all_true {A} (p : A -> bool) (l : list A) :
  forallb p l = true -> filter (fun v => p v = true) l = l.
Proof.
  induction l as [| v l IH]; [reflexivity |].
  cbn [forallb]. intros [Hv Hl]%andb_true_iff.
  rewrite filter_cons_True by exact Hv. rewrite IH by exact Hl. reflexivity.
Qed.

Lemma nonzero_pixels_all d : mall IEEE.nonzero d = true -> nonzero_pixels d = concat d.
Proof.
  unfold mall, nonzero_pixels.
  induction d as [| r d IH]; [reflexivity |].
  cbn [forallb concat]. intros [Hr Hd]%andb_true_iff.
  rewrite filter_app, (filter_all_true _ _ Hr), IH by exact Hd. reflexivity.
Qed.

(** Without a zero pixel the two overall variances are the same number. *)
Lemma lee_overall_all_nonzero d : mall IEEE.nonzero d = true -> lee_overall d = lee2_overall d.
Proof.
  intros H. rewrite lee_overall_nonzero_pixels, (nonzero_pixels_all d H). reflexivity.
Qed.

Lemma lee_pixels_agree ov v m x :
  IEEE.ltb v IEEE.pzero = false -> lee_pixel ov (clamp v) m x = lee2_pixel ov v m x.
Proof.
  intros Hv. unfold lee_pixel, lee2_pixel, clamp. rewrite Hv, (add_comm IEEE.B32 ov v). reflexivity.
Qed.

(** C5 (amended).  On a float32 array without a zero entry, the two Lee
    filters with the same window return the same value, bit for bit, at every
    pixel where mean-of-squares minus squared-mean is not negative. *)
Theorem lee_variants_agree_without_zeros w img d win i j x v :
  w_heap w !! img = Some (FloatArr IEEE.B32 d) ->
  mall IEEE.nonzero d = true ->
  mget d i j = Some x ->
  mget (raw_variance win d) i j = Some v ->
  IEEE.ltb v IEEE.pzero = false ->
  exists r w' out r2 w2 out2 y,
    lee_filter img win w = (Ok r, w')
    /\ w_heap w' !! r = Some (FloatArr IEEE.B32 out)
    /\ lee_filter2 img win w = (Ok r2, w2)
    /\ w_heap w2 !! r2 = Some (FloatArr IEEE.B32 out2)
    /\ mget out i j = Some y
    /\ mget out2 i j = Some y.
Proof.
  intros Himg Hnz Hx Hvar Hv.
  destruct (pixel_stats win d i j x Hx) as (m & q & Hm & Hq).
  rewrite (raw_variance_pixel win d i j m q Hm Hq) in Hvar. injection Hvar as Hvar.
  rewrite (lee_filter_run w img _ win Himg), as_float_same.
  rewrite (lee_filter2_run w img d win Himg).
  eexists _, _, _, _, _, _, _. cbn [set_heap w_heap].
  split; [reflexivity |]. split; [apply lee_result_cell |].
  split; [reflexivity |]. split; [apply lee2_result_cell |].
  split.
  - rewrite (lee_value_pixel win d i j x m q Hx Hm Hq). reflexivity.
  - rewrite (lee2_value_pixel win d i j x m q Hx Hm Hq).
    rewrite Hvar, lee_overall_all_nonzero by exact Hnz.
    rewrite lee_pixels_agree by exact Hv. reflexivity.
Qed.

Lemma lee_variants_agree_without_zeros_witness :
  exists r w' out r2 w2 out2 y,
    lee_filter 0%nat (WPair 3 3) (World [image [[1; 2; 3]; [4; 5; 6]]] [] []) = (Ok r, w')
    /\ w_heap w' !! r = Some (FloatArr IEEE.B32 out)
    /\ lee_filter2 0%nat (WPair 3 3) (World [image [[1; 2; 3]; [4; 5; 6]]] [] []) = (Ok r2, w2)
    /\ w_heap w2 !! r2 = Some (FloatArr IEEE.B32 out2)
    /\ mget out 1 1 = Some y
    /\ mget out2 1 1 = Some y.
Proof.
  apply (lee_variants_agree_without_zeros
           (World [image [[1; 2; 3]; [4; 5; 6]]] [] []) 0%nat
           (mmap f32 [[1; 2; 3]; [4; 5; 6]]) (WPair 3 3) 1%nat 1%nat (f32 5)
           (IEEE.of_scaled IEEE.B32 11184808 (-22))).
  - reflexivity.
  - reflexivity.
  - reflexivity.
  - vm_compute. reflexivity.
  - reflexivity.
Defined.

(** C5, as stated, fails.  On the float32 image [0 2] with a 1x2 window the
    in-place variant returns [NaN 2] and the non-mutating variant [0 1.5]:
    neither entry is within 1e-5 relative of the other. *)
Lemma lee_variants_differ :
  call_on (image [[0; 2]]) (fun img => lee_filter img (WPair 1 2))
  = Some (FloatArr IEEE.B32 [[S754_nan; f32 2]])
  /\ call_on (image [[0; 2]]) (fun img => lee_filter2 img (WPair 1 2))
     = Some (FloatArr IEEE.B32 [[f32 0; IEEE.of_scaled IEEE.B32 3 (-1)]])
  /\ within_tolerance S754_nan (f32 0) = false
  /\ within_tolerance (f32 2) (IEEE.of_scaled IEEE.B32 3 (-1)) = false.
Proof. vm_compute. repeat split; reflexivity. Qed.

(* ================================================================= *)
(** ** Negative variances (C6) *)

Lemma clamp_negative_not_negative x : not_negative (Numpy.clamp_negative x).
Proof.
  destruct x as [t a | f a]; cbn [Numpy.clamp_negative not_negative]; unfold mmap;
    apply Forall_fmap, Forall_forall; intros r _;
    apply Forall_fmap, Forall_forall; intros v _; cbn.
  - destruct (Z.ltb_spec v 0); lia.
  - apply clamp_not_negative.
Qed.

(** X1.  [moving_window_sd] clamps: the call succeeds on every input array,
    of either kind, and every window, and the variance it returns has no
    negative entry. *)
Lemma moving_window_sd_variance_not_negative w data a win return_mean :
  w_heap w !! data = Some a ->
  exists t2 m w' v,
    moving_window_sd data win return_mean true w = (Ok (t2, m), w')
    /\ w_heap w' !! t2 = Some v
    /\ not_negative v.
Proof.
  destruct w as [h dd ll]. cbn [w_heap]. intros H.
  assert (E : World h dd ll = World (h ++ []) dd ll) by (rewrite app_nil_r; reflexivity).
  rewrite E. clear E.
  unfold moving_window_sd.
  destruct a as [t a | f a], return_mean; heap_run; unfold ret;
    eexists _, _, _, _;
    (split; [reflexivity |]);
    (split; [cbn [w_heap]; rewrite lookup_app_r by lia;
             replace (length h + 1 - length h)%nat with 1%nat by lia; reflexivity |]).
  all: first [ apply (clamp_negative_not_negative (IntArr _ _))
             | apply (clamp_negative_not_negative (FloatArr _ _)) ].
Qed.

(** C6 (defect in the code).  [window_stdev] takes the square root of
    mean-of-squares minus squared-mean without the clamp its sibling
    [moving_window_sd] has.  On the float32 image [1 + 2^-23, 1 + 2^-22] with
    window 2, rounding makes the difference at the second pixel [-2^-23]:
    [window_stdev] returns NaN there, and so does [enhanced_lee_filter],
    which calls it; [moving_window_sd] returns the variance 0. *)
Theorem window_stdev_takes_root_of_negative_variance :
  raw_variance (WInt 2) near_one = [[IEEE.pzero; IEEE.of_scaled IEEE.B32 (-1) (-23)]]
  /\ call_on (FloatArr IEEE.B32 near_one) (fun img => window_stdev img (WInt 2) None None)
     = Some (FloatArr IEEE.B32 [[IEEE.pzero; S754_nan]])
  /\ call_on (FloatArr IEEE.B32 near_one) (fun img => enhanced_lee_filter img 1 (WInt 2) 1)
     = Some (FloatArr IEEE.B32 [[IEEE.of_scaled IEEE.B32 8388609 (-23); S754_nan]])
  /\ call_on (FloatArr IEEE.B32 near_one)
             (fun data => r <- moving_window_sd data (WInt 2) false true ;; ret (fst r))
     = Some (FloatArr IEEE.B32 [[IEEE.pzero; IEEE.pzero]]).
Proof. vm_compute. repeat split; reflexivity. Qed.

(* ================================================================= *)
(** ** The band driver (C7, C8) *)

(** C7 (amended).  A filter name whose lower-case form is neither [lee] nor
    [elee] makes the dictionary lookup of line 216 raise [KeyError]; that
    happens first, so nothing has been read, created, written or logged: the
    state is the state on entry. *)
Theorem filter_image_unknown_name_raises_KeyError w img output filter kw :
  lower filter <> "lee"%string ->
  lower filter <> "elee"%string ->
  filter_image img output filter kw w = (Raise KeyError, w).
Proof.
  intros H1 H2. unfold filter_image, select_filter.
  rewrite decide_False by exact H1. rewrite decide_False by exact H2.
  reflexivity.
Qed.

Lemma filter_image_unknown_name_raises_KeyError_witness :
  filter_image 0%nat (Some "out.tif"%string) "Median" no_kwargs scene_world
  = (Raise KeyError, scene_world).
Proof.
  apply (filter_image_unknown_name_raises_KeyError
           scene_world 0%nat (Some "out.tif"%string) "Median" no_kwargs).
  - discriminate.
  - discriminate.
Defined.

(** C7, as stated, fails: the exception is Python's [KeyError]; the code has
    no [ConfigurationError]. *)
Lemma filter_image_unknown_name_is_not_ConfigurationError :
  filter_image 0%nat None "median" no_kwargs scene_world = (Raise KeyError, scene_world)
  /\ KeyError <> "ConfigurationError"%string.
Proof. split; [reflexivity | discriminate]. Qed.
Section Driver.
Local Open Scope nat_scope.

Lemma new_all_run xs h dd ll :
Gdal.new_all xs (World h dd ll) = (Ok (seq (length h) (length xs)), World (h ++ xs) dd ll).
Proof.
revert h. induction xs as [| x xs IH]; intros h.
- cbn. rewrite app_nil_r. reflexivity.
- cbn [Gdal.new_all length seq].
  erewrite bind_ok by (unfold new; reflexivity). cbn [w_heap set_heap w_data w_log].
  erewrite bind_ok by apply IH. cbn [ret].
  rewrite length_app, Nat.add_1_r, <- app_assoc. reflexivity.
Qed.

Lemma call_filter_run f kw w plane a :
call_ok f kw = true ->
w_heap w !! plane = Some a ->
exists cells r,
  call_filter f plane kw w = (Ok r, set_heap (w_heap w ++ cells) w)
  /\ (w_heap w ++ cells) !! r = Some (filter_value f kw a).
Proof.
intros Hok Ha. unfold call_ok in Hok. unfold call_filter, filter_value.
destruct f.
- destruct (kw_looks kw); [discriminate |].
  destruct (kw_df kw); [discriminate |].
  destruct (kw_other kw); [| discriminate].
  rewrite (lee_filter_run w plane a _ Ha).
  eexists _, _. split; [reflexivity | apply lee_result_cell].
- destruct (kw_looks kw) as [looks|]; [| discriminate].
  destruct (kw_other kw); [| destruct (kw_df kw); discriminate].
  assert (Hl : looks <> 0%Z).
  { destruct (kw_df kw); apply negb_true_iff, Z.eqb_neq in Hok; exact Hok. }
  rewrite (enhanced_lee_filter_run w plane a looks _ _ Ha Hl).
  eexists _, _. split; [reflexivity | apply elee_result_cell].
Qed.

Lemma insert_next_band {A} (g : A -> A) (B ob : list A) k b :
length ob = length B -> B !! k = Some b ->
<[k := g b]> ((g <$> take k B) ++ drop k ob) = (g <$> take (S k) B) ++ drop (S k) ob.
Proof.
intros Hlen Hb.
pose proof (lookup_lt_Some _ _ _ Hb) as Hk.
assert (Hlt : length (g <$> take k B) = k) by (rewrite length_fmap, length_take; lia).
rewrite insert_app_r_alt by lia. rewrite Hlt, Nat.sub_diag.
destruct (lookup_lt_is_Some_2 ob k) as [y Hy]; [lia |].
rewrite (drop_S _ _ _ Hy). cbn [list_insert insert].
rewrite (take_S_r _ _ _ Hb), fmap_app, <- app_assoc. reflexivity.
Qed.

Lemma alter_as_insert {A} (g : A -> A) (l : list A) k y :
l !! k = Some y -> alter g k l = <[k := g y]> l.
Proof.
revert k. induction l as [| x l IH]; intros [| k] Hy; try discriminate.
- injection Hy as ->. reflexivity.
- cbn in Hy |- *. f_equal. apply IH. exact Hy.
Qed.

Lemma dtype_zeros_like x : dtype_of (Gdal.zeros_like x) = dtype_of x.
Proof. destruct x; reflexivity. Qed.

Lemma band_events_S out k :
band_events out (S k) = band_events out k ++ [EvPrintBand (k + 1); EvWriteArray out (k + 1)].
Proof.
unfold band_events. rewrite seq_S, flat_map_app. cbn. reflexivity.
Qed.

Section Loop.
Variables (f : filter_fn) (kw : kwargs).
Variables (h B : list ndarray) (dd0 : list dataset) (L0 : list event).
Variables (out : handle) (p : string) (ob : list ndarray).
Hypothesis Hok : call_ok f kw = true.
Hypothesis Hout : dd0 !! out = Some (Dataset p ob).
Hypothesis Hty : dtype_of <$> ob = dtype_of <$> B.

Lemma band_step_run k J b :
B !! k = Some b ->
exists J',
  band_step f kw (seq (length h) (length B)) out k
    (World (h ++ B ++ J) (loop_data f kw B dd0 out p ob k) (L0 ++ band_events out k))
  = (Ok tt, World (h ++ B ++ J') (loop_data f kw B dd0 out p ob (S k)) (L0 ++ band_events out (S k))).
Proof.
intros Hb.
pose proof (lookup_lt_Some _ _ _ Hb) as Hk.
pose proof (lookup_lt_Some _ _ _ Hout) as Ho.
assert (Hlen : length ob = length B)
  by (rewrite <- (length_fmap dtype_of ob), Hty; apply length_fmap).
destruct (lookup_lt_is_Some_2 ob k) as [y Hy]; [lia |].
assert (Hyb : dtype_of y = dtype_of b).
{ pose proof (f_equal (fun l => l !! k) Hty) as E. cbn beta in E.
  rewrite !list_lookup_fmap, Hy, Hb in E. injection E as E. exact E. }
unfold band_step.
erewrite bind_ok by (unfold log; reflexivity).
erewrite bind_ok by (unfold plane_of; rewrite lookup_seq_lt by exact Hk; reflexivity).
unfold add_event. cbn [w_heap w_data w_log].
set (w1 := World _ _ _).
assert (Hplane : w_heap w1 !! (length h + k) = Some b).
{ subst w1. cbn [w_heap]. rewrite lookup_app_r by lia.
  replace (length h + k - length h) with k by lia.
  rewrite lookup_app_l by lia. exact Hb. }
destruct (call_filter_run f kw w1 _ b Hok Hplane) as (cells & r & Hrun & Hr).
erewrite bind_ok by exact Hrun.
subst w1. unfold set_heap. cbn [w_heap w_data w_log] in Hr |- *.
unfold Gdal.WriteArray.
erewrite bind_ok by (unfold deref; cbn [w_heap]; rewrite Hr; reflexivity).
erewrite bind_ok
  by (unfold Gdal.dataset_of, loop_data; cbn [w_data];
      rewrite list_lookup_insert_eq by exact Ho; reflexivity).
cbn [ds_bands ds_path].
rewrite decide_True.
2:{ rewrite length_app, length_fmap, length_take, length_drop. lia. }
erewrite bind_ok by reflexivity.
unfold log, add_event, set_data. cbn [w_heap w_data w_log].
exists (J ++ cells). f_equal. f_equal.
- rewrite <- !app_assoc. reflexivity.
- unfold loop_data. rewrite list_insert_insert_eq.
  replace (Nat.pred (k + 1)) with k by lia.
  rewrite (alter_as_insert _ _ k y).
  2:{ rewrite lookup_app_r by (rewrite length_fmap, length_take; lia).
      rewrite length_fmap, length_take, Nat.min_l, Nat.sub_diag by lia.
      rewrite lookup_drop, Nat.add_0_r. exact Hy. }
  rewrite Hyb.
  change (Gdal.as_band (dtype_of b) (filter_value f kw b)) with (band_written f kw b).
  rewrite (insert_next_band _ _ _ _ _ Hlen Hb). reflexivity.
- rewrite band_events_S, <- !app_assoc. reflexivity.
Qed.

Lemma band_loop_run m : forall k J,
k + m = length B ->
exists J',
  for_each (seq k m) (band_step f kw (seq (length h) (length B)) out)
    (World (h ++ B ++ J) (loop_data f kw B dd0 out p ob k) (L0 ++ band_events out k))
  = (Ok tt, World (h ++ B ++ J') (loop_data f kw B dd0 out p ob (length B)) (L0 ++ band_events out (length B))).
Proof.
induction m as [| m IH]; intros k J Hkm.
- replace k with (length B) by lia. exists J. reflexivity.
- destruct (lookup_lt_is_Some_2 B k) as [b Hb]; [lia |].
  destruct (band_step_run k J b Hb) as [J1 H1].
  destruct (IH (S k) J1) as [J' H']; [lia |].
  exists J'. cbn [seq for_each]. unfold bind at 1. rewrite H1. exact H'.
Qed.
End Loop.

Lemma arr_planes planes :
match (match planes with [p] => Gdal.Arr2 p | _ => Gdal.Arr3 planes end) with
| Gdal.Arr2 p => [p]
| Gdal.Arr3 ps => ps
end = planes.
Proof. destruct planes as [| p [| q r]]; reflexivity. Qed.

Lemma select_filter_run filter f w :
(lower filter = "lee"%string /\ f = LeeFilter
 \/ lower filter = "elee"%string /\ f = EnhancedLeeFilter) ->
select_filter filter w = (Ok f, w).
Proof.
unfold select_filter. intros [[E ->] | [E ->]]; rewrite E.
- rewrite decide_True by reflexivity. reflexivity.
- rewrite decide_False by discriminate. rewrite decide_True by reflexivity. reflexivity.
Qed.

Lemma dtype_as_band d x : dtype_of (Gdal.as_band d x) = d.
Proof. destruct d, x; reflexivity. Qed.

Lemma band_written_float32 f kw b :
dtype_of b = float32 -> band_written f kw b = filter_value f kw b.
Proof.
intros E. unfold band_written. rewrite E.
destruct f; cbn [filter_value Gdal.as_band float32]; rewrite as_float_same; reflexivity.
Qed.


End Driver.



(* ================================================================= *)
(** ** The caller's array (C9) and element types *)

(** C9.  [lee_filter] starts with [d = np.array(img, dtype='float32')], a
    new array, and every in-place operation after that writes to [d] or to
    an array made inside [moving_window_sd].  Whatever array object the
    caller passes, the call succeeds, returns a new object, and leaves the
    caller's array, every other object that existed, the data sets and the
    log exactly as they were. *)
Theorem lee_filter_leaves_the_callers_array w img a win :
  w_heap w !! img = Some a ->
  exists r w',
    lee_filter img win w = (Ok r, w')
    /\ r <> img
    /\ w_heap w' !! img = Some a
    /\ (forall l x, w_heap w !! l = Some x -> w_heap w' !! l = Some x)
    /\ w_data w' = w_data w
    /\ w_log w' = w_log w.
Proof.
  intros Himg.
  pose proof (lookup_lt_Some _ _ _ Himg) as Hlt.
  rewrite (lee_filter_run w img a win Himg).
  eexists _, _. split; [reflexivity |]. cbn [set_heap w_heap w_data w_log].
  split; [lia |].
  split; [apply lookup_app_l_Some; exact Himg |].
  split; [intros l x Hl; apply lookup_app_l_Some; exact Hl |].
  split; reflexivity.
Qed.

Lemma lee_filter_leaves_the_callers_array_witness :
  exists r w',
    lee_filter 0%nat lee_filter_window (World [image two_regions] [] []) = (Ok r, w')
    /\ r <> 0%nat
    /\ w_heap w' !! 0%nat = Some (image two_regions)
    /\ (forall l x, [image two_regions] !! l = Some x -> w_heap w' !! l = Some x)
    /\ w_data w' = []
    /\ w_log w' = [].
Proof.
  apply (lee_filter_leaves_the_callers_array
           (World [image two_regions] [] []) 0%nat (image two_regions) lee_filter_window).
  reflexivity.
Defined.

Lemma promote_same d : Numpy.promote d d = d.
Proof. destruct d as [t | f]; [apply promote_int_same | apply promote_float]. Qed.

Lemma dtype_uniform_filter x size : dtype_of (Numpy.uniform_filter x size) = dtype_of x.
Proof. destruct x; reflexivity. Qed.

Lemma dtype_square x : dtype_of (Numpy.square x) = dtype_of x.
Proof. destruct x; reflexivity. Qed.

Lemma dtype_arith opi opf x y :
  dtype_of (Numpy.arith opi opf x y) = Numpy.promote (dtype_of x) (dtype_of y).
Proof.
  unfold Numpy.arith. destruct (Numpy.promote (dtype_of x) (dtype_of y)); reflexivity.
Qed.

(** The wrap-around at work: 200 squared is 40000, which is -25536 as an
    int16.  On the int16 image [0 200] with a 1x2 window [lee_filter2]
    computes the local variance -22768 at the second pixel and returns
    278.3..., a float64; [lee_filter], which converts first, returns 200. *)
Lemma lee_filter2_int16_square_wraps :
  Numpy.square (IntArr I16 [[0; 200]]) = IntArr I16 [[0; -25536]]
  /\ lee_filter2_stats (IntArr I16 [[0; 200]]) (WPair 1 2)
     = (IntArr I16 [[0; 100]], IntArr I16 [[0; -22768]])
  /\ call_on (IntArr I16 [[0; 200]]) (fun img => lee_filter2 img (WPair 1 2))
     = Some (FloatArr IEEE.B64 [[IEEE.pzero; IEEE.of_scaled IEEE.B64 4896271328903250 (-44)]])
  /\ call_on (IntArr I16 [[0; 200]]) (fun img => lee_filter img (WPair 1 2))
     = Some (FloatArr IEEE.B32 [[S754_nan; f32 200]]).
Proof. vm_compute. repeat split; reflexivity. Qed.

Lemma moving_window_sd_variance_not_negative_witness :
  exists t2 m w' v,
    moving_window_sd 0%nat (WInt 2) true true (World [FloatArr IEEE.B32 near_one] [] [])
    = (Ok (t2, m), w')
    /\ w_heap w' !! t2 = Some v
    /\ not_negative v.
Proof.
  apply (moving_window_sd_variance_not_negative
           (World [FloatArr IEEE.B32 near_one] [] []) 0%nat (FloatArr IEEE.B32 near_one)
           (WInt 2) true).
  reflexivity.
Defined.

(* ================================================================= *)
(** ** Further properties of the code *)

Lemma lee_filter2_allocates_once w img a win :
  w_heap w !! img = Some a ->
  exists v, lee_filter2 img win w = (Ok (length (w_heap w)), set_heap (w_heap w ++ [v]) w).
Proof.
  intros Himg. unfold lee_filter2.
  erewrite bind_ok by (unfold deref; rewrite Himg; reflexivity).
  destruct (lee_filter2_stats a win) as [img_mean img_variance].
  eexists. reflexivity.
Qed.

(** X2.  [enhanced_lee_filter] ("Does not modify original") and
    [lee_filter2] ("Does not modify original") keep their word: whatever
    array object they are given, the call leaves every object that existed
    as it was. *)
Theorem elee_and_lee_filter2_leave_the_callers_array w img a looks win df :
  w_heap w !! img = Some a ->
  looks <> 0 ->
  (exists r w',
     enhanced_lee_filter img looks win df w = (Ok r, w')
     /\ r <> img
     /\ (forall l x, w_heap w !! l = Some x -> w_heap w' !! l = Some x))
  /\ (exists r w',
        lee_filter2 img win w = (Ok r, w')
        /\ r <> img
        /\ (forall l x, w_heap w !! l = Some x -> w_heap w' !! l = Some x)).
Proof.
  intros Himg Hlooks.
  pose proof (lookup_lt_Some _ _ _ Himg) as Hlt.
  split.
  - rewrite (enhanced_lee_filter_run w img a looks win df Himg Hlooks).
    eexists _, _. split; [reflexivity |]. cbn [set_heap w_heap].
    split; [lia |].
    intros l x Hl. apply lookup_app_l_Some. exact Hl.
  - destruct (lee_filter2_allocates_once w img a win Himg) as [v ->].
    eexists _, _. split; [reflexivity |]. cbn [set_heap w_heap].
    split; [lia |].
    intros l x Hl. apply lookup_app_l_Some. exact Hl.
Qed.

Lemma elee_and_lee_filter2_leave_the_callers_array_witness :
  (exists r w',
     enhanced_lee_filter 0%nat 4 (WInt 3) 1 (World [IntArr U8 [[7; 200]]] [] []) = (Ok r, w')
     /\ r <> 0%nat
     /\ (forall l x, [IntArr U8 [[7; 200]]] !! l = Some x -> w_heap w' !! l = Some x))
  /\ (exists r w',
        lee_filter2 0%nat (WInt 3) (World [IntArr U8 [[7; 200]]] [] []) = (Ok r, w')
        /\ r <> 0%nat
        /\ (forall l x, [IntArr U8 [[7; 200]]] !! l = Some x -> w_heap w' !! l = Some x)).
Proof.
  apply (elee_and_lee_filter2_leave_the_callers_array
           (World [IntArr U8 [[7; 200]]] [] []) 0%nat (IntArr U8 [[7; 200]]) 4 (WInt 3) 1).
  - reflexivity.
  - discriminate.
Defined.

Section MissingLooks.
Local Open Scope nat_scope.

(** X3.  [filter='elee'] without [looks] is noticed only when the filter is
    first called: by then the source has been read and, when an output path
    is given, the output raster has been created.  The call then raises
    [TypeError] with nothing written to any band. *)
Theorem filter_image_elee_without_looks w img ds output filter kw :
  w_data w !! img = Some ds ->
  ds_bands ds <> [] ->
  lower filter = "elee"%string ->
  kw_looks kw = None ->
  exists w',
    filter_image img output filter kw w = (Raise TypeError, w')
    /\ w_data w'
       = match output with
         | None => w_data w
         | Some path => w_data w ++ [Dataset path (Gdal.zeros_like <$> ds_bands ds)]
         end
    /\ w_log w'
       = w_log w ++ [EvReadAsArray img]
           ++ match output with
              | None => []
              | Some path => [EvClone img path (length (w_data w))]
              end
           ++ [EvPrintBand 1].
Proof.
  intros Hds Hne Hname Hlooks. destruct w as [h dd ll]. cbn [w_data w_log] in *.
  destruct ds as [p B]. cbn [ds_path ds_bands] in *.
  destruct B as [| b B]; [contradiction |].
  unfold filter_image.
  erewrite bind_ok by (apply select_filter_run; right; split; [exact Hname | reflexivity]).
  unfold Gdal.ReadAsArray.
  rewrite bind_assoc.
  erewrite bind_ok by (unfold Gdal.dataset_of; cbn [w_data]; rewrite Hds; reflexivity).
  rewrite bind_assoc. cbn [ds_bands].
  erewrite bind_ok by apply new_all_run.
  rewrite bind_assoc.
  erewrite bind_ok by (unfold log; reflexivity).
  rewrite bind_ret. cbv zeta. rewrite arr_planes.
  unfold add_event. cbn [w_heap w_data w_log].
  assert (Hcall : forall plane w0, call_filter EnhancedLeeFilter plane kw w0 = (Raise TypeError, w0)).
  { intros plane w0. unfold call_filter. rewrite Hlooks. reflexivity. }
  destruct output as [path |].
  - erewrite bind_ok
      by (unfold Gdal.cloneRaster; erewrite bind_ok
            by (unfold Gdal.dataset_of; cbn [w_data]; rewrite Hds; reflexivity);
          reflexivity).
    unfold add_event, set_data. cbn [w_heap w_data w_log ds_bands].
    erewrite bind_ok
      by (unfold Gdal.RasterCount; erewrite bind_ok
            by (unfold Gdal.dataset_of; cbn [w_data];
                rewrite (lookup_app_l_Some _ _ _ _ Hds); reflexivity);
          reflexivity).
    cbn [ds_bands length seq for_each].
    erewrite bind_fail.
    2:{ erewrite bind_fail; [reflexivity |].
        erewrite bind_ok by (unfold log; reflexivity).
        erewrite bind_ok by (unfold plane_of; cbn; reflexivity).
        erewrite bind_fail by apply Hcall. reflexivity. }
    eexists. split; [reflexivity |]. unfold add_event. cbn [w_data w_log].
    split; [reflexivity |]. rewrite <- !app_assoc. reflexivity.
  - rewrite bind_ret.
    erewrite bind_ok
      by (unfold Gdal.RasterCount; erewrite bind_ok
            by (unfold Gdal.dataset_of; cbn [w_data]; rewrite Hds; reflexivity);
          reflexivity).
    cbn [ds_bands length seq for_each].
    erewrite bind_fail.
    2:{ erewrite bind_fail; [reflexivity |].
        erewrite bind_ok by (unfold log; reflexivity).
        erewrite bind_ok by (unfold plane_of; cbn; reflexivity).
        erewrite bind_fail by apply Hcall. reflexivity. }
    eexists. split; [reflexivity |]. unfold add_event. cbn [w_data w_log].
    split; [reflexivity |]. rewrite <- !app_assoc. reflexivity.
Qed.

Lemma filter_image_elee_without_looks_witness :
  exists w',
    filter_image 0 (Some "out.tif"%string) "ELEE" no_kwargs scene_world = (Raise TypeError, w')
    /\ w_data w' = [three_bands; Dataset "out.tif" (Gdal.zeros_like <$> ds_bands three_bands)]
    /\ w_log w' = [EvReadAsArray 0; EvClone 0 "out.tif" 1; EvPrintBand 1].
Proof.
  apply (filter_image_elee_without_looks scene_world 0 three_bands
           (Some "out.tif"%string) "ELEE" no_kwargs).
  - reflexivity.
  - discriminate.
  - reflexivity.
  - reflexivity.
Defined.

End MissingLooks.

(* ================================================================= *)
(** ** Order and exact operations of IEEE arithmetic *)

Lemma SFcompare_antisym x y : SFcompare y x = option_map CompOpp (SFcompare x y).
Proof.
  destruct x as [sx | sx | | sx mx ex], y as [sy | sy | | sy my ey]; cbn;
    try destruct sx; try destruct sy; cbn; try reflexivity.
  all: change (Pos.compare_cont Eq ?a ?b) with (Pos.compare a b).
  all: rewrite (Z.compare_antisym ex ey), (Pos.compare_antisym mx my).
  all: destruct (ex ?= ey); cbn; try reflexivity.
  all: destruct (mx ?= my)%positive; reflexivity.
Qed.

Lemma ltb_not_leb x y : IEEE.ltb x y = true -> IEEE.leb y x = false.
Proof.
  unfold IEEE.ltb, IEEE.leb, SFltb, SFleb. rewrite (SFcompare_antisym x y).
  destruct (SFcompare x y) as [[| |] |]; cbn; intros H; try discriminate; reflexivity.
Qed.

Lemma ltb_not_ltb x y : IEEE.ltb x y = true -> IEEE.ltb y x = false.
Proof.
  unfold IEEE.ltb, SFltb. rewrite (SFcompare_antisym x y).
  destruct (SFcompare x y) as [[| |] |]; cbn; intros H; try discriminate; reflexivity.
Qed.

Lemma ltb_leb x y : IEEE.ltb x y = true -> IEEE.leb x y = true.
Proof.
  unfold IEEE.ltb, IEEE.leb, SFltb, SFleb.
  destruct (SFcompare x y) as [[| |] |]; cbn; intros H; try discriminate; reflexivity.
Qed.

Lemma digits2_xO p : digits2_pos (xO p) = (digits2_pos p + 1)%positive.
Proof. rewrite Pos.add_1_r. reflexivity. Qed.

Lemma digits2_shift23 m : digits2_pos (8388608 * m) = (digits2_pos m + 23)%positive.
Proof.
  change (8388608 * m)%positive with (Pos.iter xO m 23).
  cbn [Pos.iter]. rewrite !digits2_xO. lia.
Qed.

Lemma shr_23 m :
  SpecFloat.iter_pos shr_1 23 {| shr_m := Z.pos (8388608 * m); shr_r := false; shr_s := false |}
  = {| shr_m := Z.pos m; shr_r := false; shr_s := false |}.
Proof. reflexivity. Qed.

(** Multiplying a float32 by 1 changes nothing: the product [m * 2^23] at
    exponent [e - 23] is shifted back by 23 places without a remainder. *)
Lemma mul_one32 x :
  in_format IEEE.B32 x = true -> IEEE.mul IEEE.B32 x (IEEE.of_Z IEEE.B32 1) = x.
Proof.
  destruct x as [s | s | | s m e];
    [destruct s; reflexivity | destruct s; reflexivity | reflexivity |].
  unfold in_format. cbn [valid_binary IEEE.prec IEEE.emax].
  unfold bounded, canonical_mantissa. intros [Hc He]%andb_true_iff.
  apply Z.eqb_eq in Hc. apply Z.leb_le in He.
  change (IEEE.of_Z IEEE.B32 1) with (S754_finite false 8388608 (-23)).
  unfold IEEE.mul. cbn [SFmul IEEE.prec IEEE.emax].
  rewrite xorb_false_r, Pos.mul_comm.
  unfold binary_round_aux, shr_fexp.
  cbn [Zdigits2]. rewrite digits2_shift23.
  replace (Z.pos (digits2_pos m + 23) + (e + -23)) with (Z.pos (digits2_pos m) + e) by lia.
  rewrite Hc.
  replace (e - (e + -23)) with 23 by lia.
  cbn [shr shr_record_of_loc]. rewrite shr_23.
  cbn [shr_m loc_of_shr_record round_nearest_even Zdigits2].
  replace (e + -23 + 23) with e by lia.
  rewrite Hc, Z.sub_diag. cbn [shr shr_m].
  destruct (Z.leb_spec e (128 - 24)); [reflexivity | lia].
Qed.

Lemma mul_zero_r f x s : finite x = true -> exists t, IEEE.mul f x (S754_zero s) = S754_zero t.
Proof. destruct x; try discriminate; intros _; eexists; reflexivity. Qed.

Lemma mul_zero_l f x s : finite x = true -> exists t, IEEE.mul f (S754_zero s) x = S754_zero t.
Proof. destruct x; try discriminate; intros _; eexists; reflexivity. Qed.

Lemma add_zero_r f s m e t : IEEE.add f (S754_finite s m e) (S754_zero t) = S754_finite s m e.
Proof. reflexivity. Qed.

Lemma add_nan_l f x : IEEE.add f S754_nan x = S754_nan.
Proof. reflexivity. Qed.

(* ================================================================= *)
(** ** The enhanced Lee filter away from the thresholds *)

(** A finite damping exponent needs a finite [Ci], so a non-zero mean. *)
Lemma exponent_finite_mean Cu Cmax df S Im :
  finite (elee_exponent Cu Cmax df (IEEE.div IEEE.B32 S Im)) = true ->
  finite Im = true ->
  exists s m e, Im = S754_finite s m e.
Proof.
  intros He Hf. destruct Im as [s | s | | s m e]; try discriminate; [| eauto].
  exfalso. unfold elee_exponent in He.
  destruct (div_by_zero IEEE.B32 S s) as [E | [t E]]; rewrite E in He.
  - change (IEEE.sub IEEE.B32 S754_nan Cu) with S754_nan in He.
    rewrite mul_nan_r in He. discriminate.
  - rewrite damping_of_infinity in He. discriminate.
Qed.

Lemma elee_pixel_below_Cu Cu Cmax df Ic Im S :
  finite Ic = true -> finite Im = true -> in_format IEEE.B32 Im = true ->
  finite (elee_exponent Cu Cmax df (IEEE.div IEEE.B32 S Im)) = true ->
  IEEE.ltb (IEEE.div IEEE.B32 S Im) Cu = true ->
  elee_pixel Cu Cmax df Ic Im S = Im.
Proof.
  intros HIc HIm Hv He Hlt.
  destruct (exponent_finite_mean _ _ _ _ _ He HIm) as (s & m & e & ->).
  unfold elee_pixel. cbn zeta.
  set (Ci := IEEE.div IEEE.B32 S (S754_finite s m e)) in *.
  change (IEEE.div IEEE.B32 (IEEE.mul IEEE.B32 (IEEE.of_Z IEEE.B32 (- df)) (IEEE.sub IEEE.B32 Ci Cu))
            (IEEE.sub IEEE.B32 Cmax Ci)) with (elee_exponent Cu Cmax df Ci).
  rewrite (ltb_not_ltb _ _ Hlt), (ltb_leb _ _ Hlt).
  change (IEEE.geb Ci Cu) with (IEEE.leb Cu Ci). rewrite (ltb_not_leb _ _ Hlt).
  cbn [andb]. unfold times_bool. cbn [IEEE.of_bool]. unfold IEEE.pzero.
  destruct (mul_zero_r IEEE.B32 _ false He) as [t ->].
  cbn [Numpy.exp].
  rewrite (mul_one32 _ Hv).
  change (IEEE.sub IEEE.B32 (IEEE.of_Z IEEE.B32 1) (IEEE.of_Z IEEE.B32 1)) with (S754_zero false).
  destruct (mul_zero_r IEEE.B32 Ic false HIc) as [u ->].
  rewrite add_zero_r.
  change (IEEE.mul IEEE.B32 (S754_finite s m e) (S754_zero false)) with (S754_zero (xorb s false)).
  rewrite add_zero_r.
  apply add_zero_r.
Qed.

Lemma elee_pixel_above_Cmax Cu Cmax df Ic Im S :
  finite Ic = true -> in_format IEEE.B32 Ic = true -> Ic <> S754_zero true ->
  finite Im = true -> in_format IEEE.B32 Im = true ->
  finite (elee_exponent Cu Cmax df (IEEE.div IEEE.B32 S Im)) = true ->
  IEEE.ltb Cu (IEEE.div IEEE.B32 S Im) = true ->
  IEEE.ltb Cmax (IEEE.div IEEE.B32 S Im) = true ->
  elee_pixel Cu Cmax df Ic Im S = Ic.
Proof.
  intros HIc HvIc Hnz HIm Hv He Hu Hmax.
  destruct (exponent_finite_mean _ _ _ _ _ He HIm) as (s & m & e & ->).
  unfold elee_pixel. cbn zeta.
  set (Ci := IEEE.div IEEE.B32 S (S754_finite s m e)) in *.
  change (IEEE.div IEEE.B32 (IEEE.mul IEEE.B32 (IEEE.of_Z IEEE.B32 (- df)) (IEEE.sub IEEE.B32 Ci Cu))
            (IEEE.sub IEEE.B32 Cmax Ci)) with (elee_exponent Cu Cmax df Ci).
  rewrite Hu, (ltb_not_ltb _ _ Hmax), (ltb_not_leb _ _ Hu).
  change (IEEE.geb Ci Cu) with (IEEE.leb Cu Ci). rewrite (ltb_leb _ _ Hu).
  cbn [andb]. unfold times_bool. cbn [IEEE.of_bool]. unfold IEEE.pzero.
  destruct (mul_zero_r IEEE.B32 _ false He) as [t ->].
  cbn [Numpy.exp].
  rewrite (mul_one32 _ Hv), (mul_one32 _ HvIc).
  change (IEEE.sub IEEE.B32 (IEEE.of_Z IEEE.B32 1) (IEEE.of_Z IEEE.B32 1)) with (S754_zero false).
  destruct (mul_zero_r IEEE.B32 Ic false HIc) as [u ->].
  rewrite add_zero_r.
  change (IEEE.mul IEEE.B32 (S754_finite s m e) (S754_zero false)) with (S754_zero (xorb s false)).
  destruct (add_zero_zero IEEE.B32 (xorb s false) (xorb s false)) as [v ->].
  destruct Ic as [[|] | | | si mi ei]; try discriminate; try contradiction.
  - destruct v; reflexivity.
  - reflexivity.
Qed.

Lemma elee_Ci_pixel win d i j m q ci :
  mget (box win d) i j = Some m -> mget (box win (sq32 d)) i j = Some q ->
  mget (elee_Ci win d) i j = Some ci ->
  ci = IEEE.div IEEE.B32 (IEEE.sqrt IEEE.B32 (IEEE.sub IEEE.B32 q (IEEE.mul IEEE.B32 m m))) m.
Proof.
  intros Hm Hq Hci. unfold elee_Ci, stdev in Hci.
  rewrite mget_mzip, mget_mmap, (raw_variance_pixel win _ i j m q Hm Hq), Hm in Hci.
  cbn in Hci. injection Hci as <-. reflexivity.
Qed.

(** X4.  The homogeneous region is as documented ("R = Im for Ci <= Cu")
    strictly below the threshold: at a pixel with [Ci < Cu], a finite pixel
    value, a finite local mean and a finite damping exponent, the output of
    [enhanced_lee_filter] is the local mean, bit for bit. *)
Theorem elee_pixel_below_Cu_is_local_mean w img a looks win df i j x m ci :
  w_heap w !! img = Some a ->
  looks <> 0 ->
  mget (Numpy.as_float IEEE.B32 a) i j = Some x ->
  mget (box win (Numpy.as_float IEEE.B32 a)) i j = Some m ->
  mget (elee_Ci win (Numpy.as_float IEEE.B32 a)) i j = Some ci ->
  finite x = true -> finite m = true -> in_format IEEE.B32 m = true ->
  finite (elee_exponent (elee_Cu looks) (elee_Cmax looks) df ci) = true ->
  IEEE.ltb ci (elee_Cu looks) = true ->
  exists r w' out,
    enhanced_lee_filter img looks win df w = (Ok r, w')
    /\ w_heap w' !! r = Some (FloatArr IEEE.B32 out)
    /\ mget out i j = Some m.
Proof.
  intros Himg Hlooks Hx Hm Hci Hfx Hfm Hvm He Hlt.
  destruct (pixel_stats win _ i j x Hx) as (m' & q & Hm' & Hq).
  rewrite Hm in Hm'. injection Hm' as <-.
  pose proof (elee_Ci_pixel win _ i j m q ci Hm Hq Hci) as ->.
  rewrite (enhanced_lee_filter_run w img a looks win df Himg Hlooks).
  eexists _, _, _. split; [reflexivity |]. split.
  { cbn [set_heap w_heap]. apply elee_result_cell. }
  rewrite (elee_value_pixel looks df win _ i j x m q Hx Hm Hq).
  f_equal. apply elee_pixel_below_Cu; assumption.
Qed.

Lemma elee_pixel_below_Cu_is_local_mean_witness :
  exists r w' out,
    enhanced_lee_filter 0%nat 1 (WInt 3) 1 (World [image [[1; 2]; [3; 5]]] [] []) = (Ok r, w')
    /\ w_heap w' !! r = Some (FloatArr IEEE.B32 out)
    /\ mget out 0 0 = Some (IEEE.of_scaled IEEE.B32 8854642 (-22)).
Proof.
  apply (elee_pixel_below_Cu_is_local_mean
           (World [image [[1; 2]; [3; 5]]] [] []) 0%nat (image [[1; 2]; [3; 5]]) 1 (WInt 3) 1
           0%nat 0%nat (f32 1) (IEEE.of_scaled IEEE.B32 8854642 (-22))
           (IEEE.of_scaled IEEE.B32 10221594 (-24))).
  - reflexivity.
  - discriminate.
  - reflexivity.
  - vm_compute. reflexivity.
  - vm_compute. reflexivity.
  - reflexivity.
  - reflexivity.
  - reflexivity.
  - vm_compute. reflexivity.
  - vm_compute. reflexivity.
Defined.

(** X5.  Above both thresholds the pixel is kept ("R = Ic for Ci >= Cmax"):
    at a pixel with [Cu < Ci] and [Cmax < Ci], a finite local mean and a
    finite damping exponent, the output of [enhanced_lee_filter] is the
    float32 value of the input pixel, bit for bit (for an input of -0.0 the
    sign of the zero is not promised). *)
Theorem elee_pixel_above_Cmax_is_kept w img a looks win df i j x m ci :
  w_heap w !! img = Some a ->
  looks <> 0 ->
  mget (Numpy.as_float IEEE.B32 a) i j = Some x ->
  mget (box win (Numpy.as_float IEEE.B32 a)) i j = Some m ->
  mget (elee_Ci win (Numpy.as_float IEEE.B32 a)) i j = Some ci ->
  finite x = true -> in_format IEEE.B32 x = true -> x <> S754_zero true ->
  finite m = true -> in_format IEEE.B32 m = true ->
  finite (elee_exponent (elee_Cu looks) (elee_Cmax looks) df ci) = true ->
  IEEE.ltb (elee_Cu looks) ci = true ->
  IEEE.ltb (elee_Cmax looks) ci = true ->
  exists r w' out,
    enhanced_lee_filter img looks win df w = (Ok r, w')
    /\ w_heap w' !! r = Some (FloatArr IEEE.B32 out)
    /\ mget out i j = Some x.
Proof.
  intros Himg Hlooks Hx Hm Hci Hfx Hvx Hnz Hfm Hvm He Hu Hmax.
  destruct (pixel_stats win _ i j x Hx) as (m' & q & Hm' & Hq).
  rewrite Hm in Hm'. injection Hm' as <-.
  pose proof (elee_Ci_pixel win _ i j m q ci Hm Hq Hci) as ->.
  rewrite (enhanced_lee_filter_run w img a looks win df Himg Hlooks).
  eexists _, _, _. split; [reflexivity |]. split.
  { cbn [set_heap w_heap]. apply elee_result_cell. }
  rewrite (elee_value_pixel looks df win _ i j x m q Hx Hm Hq).
  f_equal. apply elee_pixel_above_Cmax; assumption.
Qed.

Lemma elee_pixel_above_Cmax_is_kept_witness :
  exists r w' out,
    enhanced_lee_filter 0%nat 4 (WInt 3) 1
      (World [image [[0; 0; 0]; [0; 9; 0]; [0; 0; 0]]] [] []) = (Ok r, w')
    /\ w_heap w' !! r = Some (FloatArr IEEE.B32 out)
    /\ mget out 1 1 = Some (f32 9).
Proof.
  apply (elee_pixel_above_Cmax_is_kept
           (World [image [[0; 0; 0]; [0; 9; 0]; [0; 0; 0]]] [] []) 0%nat
           (image [[0; 0; 0]; [0; 9; 0]; [0; 0; 0]]) 4 (WInt 3) 1
           1%nat 1%nat (f32 9) (f32 1) (IEEE.of_scaled IEEE.B32 11863283 (-22))).
  - reflexivity.
  - discriminate.
  - reflexivity.
  - vm_compute. reflexivity.
  - vm_compute. reflexivity.
  - reflexivity.
  - reflexivity.
  - discriminate.
  - reflexivity.
  - reflexivity.
  - vm_compute. reflexivity.
  - vm_compute. reflexivity.
  - vm_compute. reflexivity.
Defined.

(* ================================================================= *)
(** ** The Lee filters on flat neighbourhoods, NaN pixels and empty images *)

Lemma finite_nonzero x :
  finite x = true -> IEEE.nonzero x = true -> exists s m e, x = S754_finite s m e.
Proof. destruct x; try discriminate; eauto. Qed.

Lemma add_to_mean m t :
  finite m = true -> m <> S754_zero true -> IEEE.add IEEE.B32 m (S754_zero t) = m.
Proof.
  destruct m as [[|] | | |]; try discriminate; try contradiction; intros _ _.
  - destruct t; reflexivity.
  - reflexivity.
Qed.

Lemma finite_sub_l f x y : finite (IEEE.sub f x y) = true -> finite y = true.
Proof.
  destruct x as [| sx | |], y as [| sy | |]; try reflexivity; try discriminate.
  all: destruct sx; try destruct sy; discriminate.
Qed.

Lemma lee_pixel_flat ov s m x :
  finite ov = true -> IEEE.nonzero ov = true ->
  finite (IEEE.sub IEEE.B32 x m) = true -> m <> S754_zero true ->
  lee_pixel ov (clamp (S754_zero s)) m x = m /\ lee2_pixel ov (S754_zero s) m x = m.
Proof.
  intros Hf Hnz Hd Hm.
  destruct (finite_nonzero ov Hf Hnz) as (so & mo & eo & ->).
  pose proof (finite_sub_l _ _ _ Hd) as Hfm.
  unfold lee_pixel, lee2_pixel. rewrite clamp_zero.
  change (IEEE.add IEEE.B32 (S754_finite so mo eo) (S754_zero s)) with (S754_finite so mo eo).
  change (IEEE.add IEEE.B32 (S754_zero s) (S754_finite so mo eo)) with (S754_finite so mo eo).
  change (IEEE.div IEEE.B32 (S754_zero s) (S754_finite so mo eo)) with (S754_zero (xorb s so)).
  destruct (mul_zero_l IEEE.B32 _ (xorb s so) Hd) as [t ->].
  split; apply add_to_mean; assumption.
Qed.

(** X6.  Where the window is flat the Lee filters return the local mean:
    at a pixel whose mean of squares equals its squared mean, with a finite
    non-zero overall variance, the output of [lee_filter] and of
    [lee_filter2] is the local mean, bit for bit (the weight is 0). *)
Theorem lee_flat_window_gives_local_mean w img d win i j x m s :
  w_heap w !! img = Some (FloatArr IEEE.B32 d) ->
  mget d i j = Some x ->
  mget (box win d) i j = Some m ->
  mget (raw_variance win d) i j = Some (S754_zero s) ->
  finite (lee_overall d) = true -> IEEE.nonzero (lee_overall d) = true ->
  finite (lee2_overall d) = true -> IEEE.nonzero (lee2_overall d) = true ->
  finite (IEEE.sub IEEE.B32 x m) = true ->
  m <> S754_zero true ->
  (exists r w' out,
     lee_filter img win w = (Ok r, w')
     /\ w_heap w' !! r = Some (FloatArr IEEE.B32 out)
     /\ mget out i j = Some m)
  /\ (exists r w' out,
        lee_filter2 img win w = (Ok r, w')
        /\ w_heap w' !! r = Some (FloatArr IEEE.B32 out)
        /\ mget out i j = Some m).
Proof.
  intros Himg Hx Hm Hvar Hf1 Hn1 Hf2 Hn2 Hd Hmz.
  destruct (pixel_stats win d i j x Hx) as (m' & q & Hm' & Hq).
  rewrite Hm in Hm'. injection Hm' as <-.
  rewrite (raw_variance_pixel win d i j m q Hm Hq) in Hvar. injection Hvar as Hvar.
  split.
  - rewrite (lee_filter_run w img _ win Himg), as_float_same.
    eexists _, _, _. split; [reflexivity |]. split.
    + cbn [set_heap w_heap]. apply lee_result_cell.
    + rewrite (lee_value_pixel win d i j x m q Hx Hm Hq), Hvar.
      f_equal. apply lee_pixel_flat; assumption.
  - rewrite (lee_filter2_run w img d win Himg).
    eexists _, _, _. split; [reflexivity |]. split.
    + cbn [set_heap w_heap]. apply lee2_result_cell.
    + rewrite (lee2_value_pixel win d i j x m q Hx Hm Hq), Hvar.
      f_equal. apply (lee_pixel_flat (lee2_overall d) s m x); assumption.
Qed.

Lemma lee_flat_window_gives_local_mean_witness :
  (exists r w' out,
     lee_filter 0%nat (WPair 1 3) (World [image [[5; 5; 5; 5; 1]]] [] []) = (Ok r, w')
     /\ w_heap w' !! r = Some (FloatArr IEEE.B32 out)
     /\ mget out 0 1 = Some (f32 5))
  /\ (exists r w' out,
        lee_filter2 0%nat (WPair 1 3) (World [image [[5; 5; 5; 5; 1]]] [] []) = (Ok r, w')
        /\ w_heap w' !! r = Some (FloatArr IEEE.B32 out)
        /\ mget out 0 1 = Some (f32 5)).
Proof.
  apply (lee_flat_window_gives_local_mean
           (World [image [[5; 5; 5; 5; 1]]] [] []) 0%nat (mmap f32 [[5; 5; 5; 5; 1]])
           (WPair 1 3) 0%nat 1%nat (f32 5) (f32 5) false).
  - reflexivity.
  - reflexivity.
  - vm_compute. reflexivity.
  - vm_compute. reflexivity.
  - vm_compute. reflexivity.
  - vm_compute. reflexivity.
  - vm_compute. reflexivity.
  - vm_compute. reflexivity.
  - vm_compute. reflexivity.
  - discriminate.
Defined.

(** *** One NaN spoils the whole image *)

Lemma foldl_add_nan f l : foldl (IEEE.add f) S754_nan l = S754_nan.
Proof. induction l as [| v l IH]; [reflexivity | exact IH]. Qed.

Lemma fsum_nan f l : S754_nan ∈ l -> Ndimage.fsum f l = S754_nan.
Proof.
  unfold Ndimage.fsum. generalize IEEE.pzero.
  induction l as [| v l IH]; intros acc H.
  - apply elem_of_nil in H. contradiction.
  - apply elem_of_cons in H as [<- | H]; cbn [foldl].
    + rewrite add_nan_r. apply foldl_add_nan.
    + apply IH, H.
Qed.

Lemma variance_vals_nan f l : S754_nan ∈ l -> Ndimage.variance_vals f l = S754_nan.
Proof.
  intros H. unfold Ndimage.variance_vals. cbn zeta.
  rewrite (fsum_nan f l H).
  change (IEEE.div f S754_nan ?n) with S754_nan.
  rewrite (fsum_nan f).
  - reflexivity.
  - apply list_elem_of_fmap. exists S754_nan. split; [| exact H].
    rewrite sub_nan_r. reflexivity.
Qed.

Lemma mget_elem_of_concat {A} (d : matrix A) i j x : mget d i j = Some x -> x ∈ concat d.
Proof.
  unfold mget. destruct (d !! i) as [r |] eqn:Hr; [| discriminate]. cbn. intros Hx.
  apply list_elem_of_In, in_concat. exists r. split.
  - apply list_elem_of_In. eapply list_elem_of_lookup_2, Hr.
  - apply list_elem_of_In. eapply list_elem_of_lookup_2, Hx.
Qed.

Lemma overall_variance_nan d i j :
  mget d i j = Some S754_nan -> lee_overall d = S754_nan /\ lee2_overall d = S754_nan.
Proof.
  intros H. pose proof (mget_elem_of_concat d i j _ H) as Hin. split.
  - rewrite lee_overall_nonzero_pixels, variance_vals_nan; [reflexivity |].
    unfold nonzero_pixels. apply list_elem_of_filter. split; [reflexivity | exact Hin].
  - unfold lee2_overall, Ndimage.variance, Ndimage.select_all.
    rewrite variance_vals_nan by exact Hin. reflexivity.
Qed.

Lemma lee_pixel_nan_overall v m x :
  lee_pixel S754_nan v m x = S754_nan /\ lee2_pixel S754_nan v m x = S754_nan.
Proof.
  unfold lee_pixel, lee2_pixel. rewrite add_nan_l, add_nan_r, div_nan_r.
  change (IEEE.mul IEEE.B32 S754_nan ?y) with S754_nan.
  rewrite add_nan_r. split; reflexivity.
Qed.

(** X7.  The overall variance is taken over the whole image, so a single NaN
    anywhere in a float32 image makes every entry of the output of
    [lee_filter] and of [lee_filter2] a NaN. *)
Theorem lee_one_nan_spoils_every_pixel w img d win i0 j0 i j x :
  w_heap w !! img = Some (FloatArr IEEE.B32 d) ->
  mget d i0 j0 = Some S754_nan ->
  mget d i j = Some x ->
  (exists r w' out,
     lee_filter img win w = (Ok r, w')
     /\ w_heap w' !! r = Some (FloatArr IEEE.B32 out)
     /\ mget out i j = Some S754_nan)
  /\ (exists r w' out,
        lee_filter2 img win w = (Ok r, w')
        /\ w_heap w' !! r = Some (FloatArr IEEE.B32 out)
        /\ mget out i j = Some S754_nan).
Proof.
  intros Himg Hnan Hx.
  destruct (pixel_stats win d i j x Hx) as (m & q & Hm & Hq).
  destruct (overall_variance_nan d i0 j0 Hnan) as [Ho1 Ho2].
  split.
  - rewrite (lee_filter_run w img _ win Himg), as_float_same.
    eexists _, _, _. split; [reflexivity |]. split.
    + cbn [set_heap w_heap]. apply lee_result_cell.
    + rewrite (lee_value_pixel win d i j x m q Hx Hm Hq), Ho1.
      f_equal. apply lee_pixel_nan_overall.
  - rewrite (lee_filter2_run w img d win Himg).
    eexists _, _, _. split; [reflexivity |]. split.
    + cbn [set_heap w_heap]. apply lee2_result_cell.
    + rewrite (lee2_value_pixel win d i j x m q Hx Hm Hq), Ho2.
      f_equal. apply lee_pixel_nan_overall.
Qed.

Lemma lee_one_nan_spoils_every_pixel_witness :
  (exists r w' out,
     lee_filter 0%nat (WPair 1 1) (World [FloatArr IEEE.B32 nan_corner] [] []) = (Ok r, w')
     /\ w_heap w' !! r = Some (FloatArr IEEE.B32 out)
     /\ mget out 2 3 = Some S754_nan)
  /\ (exists r w' out,
        lee_filter2 0%nat (WPair 1 1) (World [FloatArr IEEE.B32 nan_corner] [] []) = (Ok r, w')
        /\ w_heap w' !! r = Some (FloatArr IEEE.B32 out)
        /\ mget out 2 3 = Some S754_nan).
Proof.
  apply (lee_one_nan_spoils_every_pixel
           (World [FloatArr IEEE.B32 nan_corner] [] []) 0%nat nan_corner (WPair 1 1)
           0%nat 0%nat 2%nat 3%nat (f32 12)).
  - reflexivity.
  - reflexivity.
  - reflexivity.
Defined.

(** *** An image without a non-zero pixel *)

Lemma nonzero_pixels_none d :
  mall (fun v => negb (IEEE.nonzero v)) d = true -> nonzero_pixels d = [].
Proof.
  unfold mall, nonzero_pixels.
  induction d as [| r d IH]; [reflexivity |].
  cbn [forallb concat]. intros [Hr Hd]%andb_true_iff.
  rewrite filter_app, IH by exact Hd. rewrite app_nil_r.
  clear -Hr. induction r as [| v r IH]; [reflexivity |].
  cbn [forallb] in Hr. apply andb_true_iff in Hr as [Hv Hr].
  rewrite filter_cons_False; [apply IH, Hr |].
  apply negb_true_iff in Hv. rewrite Hv. discriminate.
Qed.

(** X8.  [label] finds no feature in an image whose entries are all zero, so
    [variance(d, lbl)] is the variance of no value at all, a NaN: every
    entry of the output of [lee_filter] is NaN, whatever the element type
    and the shape of the input and whatever the window. *)
Theorem lee_filter_all_zero_image_gives_nan w img a win i j x :
  w_heap w !! img = Some a ->
  mall (fun v => negb (IEEE.nonzero v)) (Numpy.as_float IEEE.B32 a) = true ->
  mget (Numpy.as_float IEEE.B32 a) i j = Some x ->
  exists r w' out,
    lee_filter img win w = (Ok r, w')
    /\ w_heap w' !! r = Some (FloatArr IEEE.B32 out)
    /\ mget out i j = Some S754_nan.
Proof.
  intros Himg Hz Hx.
  destruct (pixel_stats win _ i j x Hx) as (m & q & Hm & Hq).
  rewrite (lee_filter_run w img _ win Himg).
  eexists _, _, _. split; [reflexivity |]. split.
  - cbn [set_heap w_heap]. apply lee_result_cell.
  - rewrite (lee_value_pixel win _ i j x m q Hx Hm Hq).
    rewrite lee_overall_nonzero_pixels, (nonzero_pixels_none _ Hz).
    change (IEEE.cast IEEE.B32 (Ndimage.variance_vals IEEE.B32 [])) with S754_nan.
    f_equal. apply lee_pixel_nan_overall.
Qed.

Lemma lee_filter_all_zero_image_gives_nan_witness :
  exists r w' out,
    lee_filter 0%nat lee_filter_window (World [IntArr U16 [[0; 0; 0]; [0; 0; 0]]] [] []) = (Ok r, w')
    /\ w_heap w' !! r = Some (FloatArr IEEE.B32 out)
    /\ mget out 1 2 = Some S754_nan.
Proof.
  apply (lee_filter_all_zero_image_gives_nan
           (World [IntArr U16 [[0; 0; 0]; [0; 0; 0]]] [] []) 0%nat
           (IntArr U16 [[0; 0; 0]; [0; 0; 0]]) lee_filter_window 1%nat 2%nat (f32 0)).
  - reflexivity.
  - reflexivity.
  - reflexivity.
Defined.

(* ================================================================= *)
(** ** The two moving-window deviations *)

Section WindowDeviations.
Local Open Scope nat_scope.

Lemma round_not_negative p e m ex l :
  IEEE.ltb (binary_round_aux p e false m ex l) IEEE.pzero = false.
Proof.
  unfold binary_round_aux.
  destruct (shr_fexp p e m ex l) as [mrs' e'].
  destruct (shr_fexp p e _ e' loc_Exact) as [mrs'' e''].
  destruct (shr_m mrs'') as [| q | q]; [reflexivity | | reflexivity].
  destruct (e'' <=? e - p)%Z; reflexivity.
Qed.

Lemma sqrt_not_negative f v :
  IEEE.ltb v IEEE.pzero = false -> IEEE.ltb (IEEE.sqrt f v) IEEE.pzero = false.
Proof.
  destruct v as [s | [|] | | [|] m e]; try reflexivity; try (intros H; exact H).
  intros _. unfold IEEE.sqrt. cbn [SFsqrt].
  destruct (SFsqrt_core_binary _ _ _ _) as [[mz ez] lz].
  apply round_not_negative.
Qed.

Lemma sqrt_negative f v : IEEE.ltb v IEEE.pzero = true -> IEEE.sqrt f v = S754_nan.
Proof. destruct v as [s | [|] | | [|] m e]; try discriminate; reflexivity. Qed.

Lemma moving_window_sd_run32 w data d win :
  w_heap w !! data = Some (FloatArr IEEE.B32 d) ->
  moving_window_sd data win false false w
  = (Ok (length (w_heap w) + 1, None),
     set_heap (w_heap w ++ [FloatArr IEEE.B32 (sq32 (box win d));
                            FloatArr IEEE.B32 (mmap (IEEE.sqrt IEEE.B32) (local_variance win d))]) w).
Proof.
  destruct w as [h dd ll]. cbn [w_heap]. intros H.
  assert (E : World h dd ll = World (h ++ []) dd ll) by (rewrite app_nil_r; reflexivity).
  rewrite E at 1. clear E.
  unfold moving_window_sd. heap_run. reflexivity.
Qed.

Lemma window_stdev_run32 w img d win :
  w_heap w !! img = Some (FloatArr IEEE.B32 d) ->
  window_stdev img win None None w
  = (Ok (length (w_heap w) + 2),
     set_heap (w_heap w ++ [FloatArr IEEE.B32 (box win d);
                            FloatArr IEEE.B32 (box win (sq32 d));
                            FloatArr IEEE.B32 (stdev win d)]) w).
Proof.
  destruct w as [h dd ll]. cbn [w_heap]. intros H.
  assert (E : World h dd ll = World (h ++ []) dd ll) by (rewrite app_nil_r; reflexivity).
  rewrite E at 1. clear E.
  unfold window_stdev. heap_run. rewrite new_frame. reflexivity.
Qed.

Lemma lookup_cell {A} (h : list A) n cells c :
  cells !! n = Some c -> (h ++ cells) !! (length h + n) = Some c.
Proof.
  intros H. rewrite lookup_app_r by lia.
  replace (length h + n - length h) with n by lia. exact H.
Qed.

(** X9.  [moving_window_sd] and [window_stdev] compute the same deviation
    except for the clamp.  On a float32 image, at every pixel: the first
    returns the root of the clamped difference (mean of squares minus squared
    mean), the second the root of the difference itself.  Where the
    difference is not below zero the two agree bit for bit; where rounding
    has made it negative the first gives 0 and the second NaN.  The
    deviation of [moving_window_sd] is never below zero. *)
Theorem moving_window_sd_and_window_stdev w data d win i j v :
  w_heap w !! data = Some (FloatArr IEEE.B32 d) ->
  mget (raw_variance win d) i j = Some v ->
  exists sd w1 a1 ws w2 a2 s1 s2,
    moving_window_sd data win false false w = (Ok (sd, None), w1)
    /\ w_heap w1 !! sd = Some (FloatArr IEEE.B32 a1)
    /\ window_stdev data win None None w = (Ok ws, w2)
    /\ w_heap w2 !! ws = Some (FloatArr IEEE.B32 a2)
    /\ mget a1 i j = Some s1
    /\ mget a2 i j = Some s2
    /\ s1 = IEEE.sqrt IEEE.B32 (clamp v)
    /\ s2 = IEEE.sqrt IEEE.B32 v
    /\ IEEE.ltb s1 IEEE.pzero = false
    /\ (if IEEE.ltb v IEEE.pzero then s1 = IEEE.pzero /\ s2 = S754_nan else s1 = s2).
Proof.
  intros Hd Hv.
  rewrite (moving_window_sd_run32 w data d win Hd), (window_stdev_run32 w data d win Hd).
  eexists _, _, _, _, _, _, _, _. cbn [set_heap w_heap].
  split; [reflexivity |].
  split; [apply (lookup_cell _ 1); reflexivity |].
  split; [reflexivity |].
  split; [apply (lookup_cell _ 2); reflexivity |].
  split; [unfold local_variance; rewrite !mget_mmap, Hv; reflexivity |].
  split; [unfold stdev; rewrite mget_mmap, Hv; reflexivity |].
  split; [reflexivity |]. split; [reflexivity |].
  split; [apply sqrt_not_negative, clamp_not_negative |].
  unfold clamp. destruct (IEEE.ltb v IEEE.pzero) eqn:E.
  - split; [reflexivity | apply sqrt_negative, E].
  - reflexivity.
Qed.

Lemma moving_window_sd_and_window_stdev_witness :
  exists sd w1 a1 ws w2 a2 s1 s2,
    moving_window_sd 0 (WInt 2) false false (World [FloatArr IEEE.B32 near_one] [] [])
    = (Ok (sd, None), w1)
    /\ w_heap w1 !! sd = Some (FloatArr IEEE.B32 a1)
    /\ window_stdev 0 (WInt 2) None None (World [FloatArr IEEE.B32 near_one] [] []) = (Ok ws, w2)
    /\ w_heap w2 !! ws = Some (FloatArr IEEE.B32 a2)
    /\ mget a1 0 1 = Some s1
    /\ mget a2 0 1 = Some s2
    /\ s1 = IEEE.sqrt IEEE.B32 (clamp (IEEE.of_scaled IEEE.B32 (-1) (-23)))
    /\ s2 = IEEE.sqrt IEEE.B32 (IEEE.of_scaled IEEE.B32 (-1) (-23))
    /\ IEEE.ltb s1 IEEE.pzero = false
    /\ (if IEEE.ltb (IEEE.of_scaled IEEE.B32 (-1) (-23)) IEEE.pzero
        then s1 = IEEE.pzero /\ s2 = S754_nan else s1 = s2).
Proof.
  apply (moving_window_sd_and_window_stdev
           (World [FloatArr IEEE.B32 near_one] [] []) 0 near_one (WInt 2) 0 1
           (IEEE.of_scaled IEEE.B32 (-1) (-23))).
  - reflexivity.
  - vm_compute. reflexivity.
Defined.

(** X10.  The default call [moving_window_sd(data, window)] takes the square
    root in place.  On an integer array the root is a float64 array, which
    numpy refuses to store into the integer array [t2]: the call raises
    [TypeError], for every integer array and window, with or without
    [return_mean].  The caller's array and every other object that existed
    are as they were. *)
Theorem moving_window_sd_integer_input_raises w data t rows win return_mean :
  w_heap w !! data = Some (IntArr t rows) ->
  exists w',
    moving_window_sd data win return_mean false w = (Raise TypeError, w')
    /\ (forall l x, w_heap w !! l = Some x -> w_heap w' !! l = Some x)
    /\ w_data w' = w_data w
    /\ w_log w' = w_log w.
Proof.
  destruct w as [h dd ll]. cbn [w_heap w_data w_log]. intros H.
  assert (E : World h dd ll = World (h ++ []) dd ll) by (rewrite app_nil_r; reflexivity).
  rewrite E. clear E.
  unfold moving_window_sd.
  destruct return_mean; heap_run; unfold Numpy.cast_out; cbn [dtype_of];
    rewrite bind_raise;
    eexists; (split; [reflexivity |]); cbn [w_heap w_data w_log];
    (split; [intros l x Hl; apply lookup_app_l_Some; exact Hl | split; reflexivity]).
Qed.

Lemma moving_window_sd_integer_input_raises_witness :
  exists w',
    moving_window_sd 0 (WInt 3) false false (World [IntArr U8 [[7; 200]]%Z] [] []) = (Raise TypeError, w')
    /\ (forall l x, [IntArr U8 [[7; 200]]%Z] !! l = Some x -> w_heap w' !! l = Some x)
    /\ w_data w' = []
    /\ w_log w' = [].
Proof.
  apply (moving_window_sd_integer_input_raises
           (World [IntArr U8 [[7; 200]]%Z] [] []) 0 U8 [[7; 200]]%Z (WInt 3) false).
  reflexivity.
Defined.

(** X11.  With [return_mean=True] and [return_variance=True],
    [moving_window_sd] returns two new arrays that are different objects:
    the mean is [uniform_filter(data, window)], copied before [t1] is squared
    in place, and the variance is the clamped difference of the mean of the
    squares and the square of the mean, both in the element type of [data]
    (so squares of integers wrap around).  This holds for every array, of
    integers or floats, and the caller's array is left as it was. *)
Theorem moving_window_sd_mean_and_variance w data a win :
  w_heap w !! data = Some a ->
  exists t2 m w',
    moving_window_sd data win true true w = (Ok (t2, Some m), w')
    /\ t2 <> m /\ t2 <> data /\ m <> data
    /\ w_heap w' !! m = Some (Numpy.uniform_filter a (sizes win))
    /\ w_heap w' !! t2
       = Some (Numpy.clamp_negative
                 (Numpy.subtract (Numpy.uniform_filter (Numpy.square a) (sizes win))
                                 (Numpy.square (Numpy.uniform_filter a (sizes win)))))
    /\ (forall l x, w_heap w !! l = Some x -> w_heap w' !! l = Some x).
Proof.
  destruct w as [h dd ll]. cbn [w_heap]. intros H.
  pose proof (lookup_lt_Some _ _ _ H) as Hlt.
  assert (E : World h dd ll = World (h ++ []) dd ll) by (rewrite app_nil_r; reflexivity).
  rewrite E. clear E.
  unfold moving_window_sd.
  destruct a as [t a | f a]; heap_run; unfold ret;
    eexists _, _, _; (split; [reflexivity |]); cbn [w_heap];
    (split; [lia |]); (split; [lia |]); (split; [lia |]);
    (split; [apply (lookup_cell _ 2); reflexivity |]);
    (split; [apply (lookup_cell _ 1); np_simpl; reflexivity |]);
    intros l x Hl; apply lookup_app_l_Some; exact Hl.
Qed.

Lemma moving_window_sd_mean_and_variance_witness :
  exists t2 m w',
    moving_window_sd 0 (WInt 2) true true (World [IntArr I16 [[0; 200]]%Z] [] []) = (Ok (t2, Some m), w')
    /\ t2 <> m /\ t2 <> 0 /\ m <> 0
    /\ w_heap w' !! m = Some (Numpy.uniform_filter (IntArr I16 [[0; 200]]%Z) (sizes (WInt 2)))
    /\ w_heap w' !! t2
       = Some (Numpy.clamp_negative
                 (Numpy.subtract
                    (Numpy.uniform_filter (Numpy.square (IntArr I16 [[0; 200]]%Z)) (sizes (WInt 2)))
                    (Numpy.square (Numpy.uniform_filter (IntArr I16 [[0; 200]]%Z) (sizes (WInt 2))))))
    /\ (forall l x, [IntArr I16 [[0; 200]]%Z] !! l = Some x -> w_heap w' !! l = Some x).
Proof.
  apply (moving_window_sd_mean_and_variance
           (World [IntArr I16 [[0; 200]]%Z] [] []) 0 (IntArr I16 [[0; 200]]%Z) (WInt 2)).
  reflexivity.
Defined.

End WindowDeviations.

(* ================================================================= *)
(** ** Shapes *)

Section Shapes.
Local Open Scope nat_scope.

Lemma shape_mmap {A B} (f : A -> B) (a : matrix A) : shape (mmap f a) = shape a.
Proof.
  unfold shape, mmap. rewrite <- list_fmap_compose.
  apply list_fmap_ext. intros i r _. cbn. apply length_fmap.
Qed.

Lemma shape_mzip {A B C} (f : A -> B -> C) (a : matrix A) (b : matrix B) :
  shape a = shape b -> shape (mzip f a b) = shape a.
Proof.
  unfold shape, mzip. revert b.
  induction a as [| r a IH]; intros [| s b] H; try discriminate; [reflexivity |].
  cbn in H. injection H as Hr H.
  cbn. rewrite (IH b H). f_equal.
  rewrite length_zip_with. lia.
Qed.

Lemma shape_imap2 {A B} (g : nat -> nat -> A -> B) (a : matrix A) :
  shape (imap (fun i (row : list A) => imap (g i) row) a) = shape a.
Proof.
  unfold shape. apply list_eq. intros i.
  rewrite !list_lookup_fmap, list_lookup_imap.
  destruct (a !! i); cbn; [rewrite length_imap |]; reflexivity.
Qed.

Lemma shape_uniform_filter {A} (e : elem A) size (a : matrix A) :
  shape (Ndimage.uniform_filter e size a) = shape a.
Proof.
  assert (H1 : forall n b, shape (Ndimage.filter_axis1 e n b) = shape b).
  { intros n b. unfold shape, Ndimage.filter_axis1, Ndimage.uniform_filter1d.
    rewrite <- list_fmap_compose. apply list_fmap_ext. intros i r _. cbn. apply length_imap. }
  assert (H0 : forall n b, shape (Ndimage.filter_axis0 e n b) = shape b).
  { intros n b. unfold Ndimage.filter_axis0.
    apply (shape_imap2 (fun i j _ => of_double e (Ndimage.window_mean e n (Ndimage.column e b j) (Z.of_nat i)))). }
  unfold Ndimage.uniform_filter.
  destruct (1 <? fst size)%Z, (1 <? snd size)%Z; rewrite ?H1, ?H0; reflexivity.
Qed.

Lemma shape_box win d : shape (box win d) = shape d.
Proof. apply shape_uniform_filter. Qed.

Lemma shape_raw_variance win d : shape (raw_variance win d) = shape d.
Proof.
  unfold raw_variance, sq32.
  rewrite shape_mzip; rewrite ?shape_mmap, !shape_box, ?shape_mmap; reflexivity.
Qed.

Lemma shape_lee_value win d : shape (lee_value win d) = shape d.
Proof.
  unfold lee_value, lee_weights, lee_denominator, local_variance.
  repeat (rewrite ?shape_mzip, ?shape_mmap, ?shape_box, ?shape_raw_variance; try reflexivity).
Qed.

Lemma shape_elee_value looks df win d : shape (elee_value looks df win d) = shape d.
Proof.
  unfold elee_value, elee_W, elee_M1, elee_M2, elee_M3, elee_Ci, stdev. cbn zeta.
  repeat (rewrite ?shape_mzip, ?shape_mmap, ?shape_box, ?shape_raw_variance; try reflexivity).
Qed.

Lemma shape_as_float f x : shape (Numpy.as_float f x) = nd_shape x.
Proof.
  destruct x as [t a | f' a]; cbn; [apply shape_mmap |].
  destruct (decide (f' = f)); [reflexivity | apply shape_mmap].
Qed.

Lemma shape_as_int t x : shape (Numpy.as_int t x) = nd_shape x.
Proof.
  destruct x as [t' a | f a]; cbn; [| apply shape_mmap].
  destruct (decide (t' = t)); [reflexivity | apply shape_mmap].
Qed.

Lemma nd_shape_arith opi opf x y :
  nd_shape x = nd_shape y -> nd_shape (Numpy.arith opi opf x y) = nd_shape x.
Proof.
  intros H. unfold Numpy.arith.
  destruct (Numpy.promote (dtype_of x) (dtype_of y)); cbn [nd_shape];
    rewrite shape_mzip; rewrite ?shape_as_int, ?shape_as_float; auto.
Qed.

Lemma nd_shape_divide x y :
  nd_shape x = nd_shape y -> nd_shape (Numpy.divide x y) = nd_shape x.
Proof.
  intros H. unfold Numpy.divide.
  destruct (Numpy.promote (dtype_of x) (dtype_of y)); cbn [nd_shape];
    rewrite shape_mzip; rewrite ?shape_as_float; auto.
Qed.

Lemma nd_shape_square x : nd_shape (Numpy.square x) = nd_shape x.
Proof. destruct x; cbn; apply shape_mmap. Qed.

Lemma nd_shape_uniform_filter x size : nd_shape (Numpy.uniform_filter x size) = nd_shape x.
Proof. destruct x; cbn; apply shape_uniform_filter. Qed.

Lemma nd_shape_with_scalar op b s x : nd_shape (Numpy.with_scalar op b s x) = nd_shape x.
Proof.
  destruct x; cbn [Numpy.with_scalar Numpy.as_float nd_shape]; rewrite !shape_mmap; reflexivity.
Qed.

Lemma nd_shape_lee2_output x win : nd_shape (lee2_output x win) = nd_shape x.
Proof.
  unfold lee2_output, lee_filter2_stats, Numpy.add, Numpy.multiply, Numpy.subtract. cbn [fst snd].
  repeat (rewrite ?nd_shape_arith, ?nd_shape_divide, ?nd_shape_with_scalar,
            ?nd_shape_square, ?nd_shape_uniform_filter; try reflexivity).
Qed.

Lemma lee_filter2_run_any w img a win :
  w_heap w !! img = Some a ->
  lee_filter2 img win w = (Ok (length (w_heap w)), set_heap (w_heap w ++ [lee2_output a win]) w).
Proof.
  intros Himg. unfold lee_filter2.
  erewrite bind_ok by (unfold deref; rewrite Himg; reflexivity).
  unfold lee2_output. destruct (lee_filter2_stats a win) as [img_mean img_variance].
  reflexivity.
Qed.

(** X12.  Each of the three filters returns an array of the shape of its
    input, whatever the element type, the shape and the window are: row for
    row the result has as many entries as the input. *)
Theorem filters_keep_the_shape w img a win looks df :
  w_heap w !! img = Some a ->
  looks <> 0%Z ->
  (exists r w' out, lee_filter img win w = (Ok r, w')
                    /\ w_heap w' !! r = Some out /\ nd_shape out = nd_shape a)
  /\ (exists r w' out, lee_filter2 img win w = (Ok r, w')
                       /\ w_heap w' !! r = Some out /\ nd_shape out = nd_shape a)
  /\ (exists r w' out, enhanced_lee_filter img looks win df w = (Ok r, w')
                       /\ w_heap w' !! r = Some out /\ nd_shape out = nd_shape a).
Proof.
  intros Himg Hlooks. split; [| split].
  - rewrite (lee_filter_run w img a win Himg).
    eexists _, _, _. split; [reflexivity |]. cbn [set_heap w_heap].
    split; [apply lee_result_cell |].
    cbn [nd_shape]. rewrite shape_lee_value. apply shape_as_float.
  - rewrite (lee_filter2_run_any w img a win Himg).
    eexists _, _, _. split; [reflexivity |]. cbn [set_heap w_heap].
    split; [apply lee2_result_cell |].
    apply nd_shape_lee2_output.
  - rewrite (enhanced_lee_filter_run w img a looks win df Himg Hlooks).
    eexists _, _, _. split; [reflexivity |]. cbn [set_heap w_heap].
    split; [apply elee_result_cell |].
    cbn [nd_shape]. rewrite shape_elee_value. apply shape_as_float.
Qed.

Lemma filters_keep_the_shape_witness :
  (exists r w' out, lee_filter 0 (WPair 5 5) (World [IntArr U8 [[7; 200; 3]; [1; 0; 9]]%Z] [] []) = (Ok r, w')
                    /\ w_heap w' !! r = Some out /\ nd_shape out = [3; 3])
  /\ (exists r w' out, lee_filter2 0 (WPair 5 5) (World [IntArr U8 [[7; 200; 3]; [1; 0; 9]]%Z] [] []) = (Ok r, w')
                       /\ w_heap w' !! r = Some out /\ nd_shape out = [3; 3])
  /\ (exists r w' out, enhanced_lee_filter 0 4 (WPair 5 5) 1 (World [IntArr U8 [[7; 200; 3]; [1; 0; 9]]%Z] [] []) = (Ok r, w')
                       /\ w_heap w' !! r = Some out /\ nd_shape out = [3; 3]).
Proof.
  apply (filters_keep_the_shape (World [IntArr U8 [[7; 200; 3]; [1; 0; 9]]%Z] [] []) 0
           (IntArr U8 [[7; 200; 3]; [1; 0; 9]]%Z) (WPair 5 5) 4%Z 1%Z).
  - reflexivity.
  - discriminate.
Defined.

End Shapes.

(* ================================================================= *)
(** ** More on the band driver and on [looks] *)

Lemma lower_ascii_idem c : lower_ascii (lower_ascii c) = lower_ascii c.
Proof. destruct c as [[] [] [] [] [] [] [] []]; reflexivity. Qed.

Lemma lower_idem s : lower (lower s) = lower s.
Proof.
  induction s as [| c s IH]; [reflexivity |].
  cbn [lower]. rewrite lower_ascii_idem, IH. reflexivity.
Qed.

(** X13.  The filter is looked up under [filter.lower()], so the name is
    matched without regard to case: any spelling behaves as its lower-case
    form does, in the result and in everything done to the state. *)
Theorem filter_image_name_ignores_case img output filter kw w :
  filter_image img output filter kw w = filter_image img output (lower filter) kw w.
Proof. unfold filter_image, select_filter. rewrite lower_idem. reflexivity. Qed.

Section FirstCall.
Local Open Scope nat_scope.

(** When the first call of the filter raises, [filter_image] stops there:
    the source has been read and the output raster, if any, created. *)
Lemma filter_image_first_call_fails w img ds output filter f kw e :
  w_data w !! img = Some ds ->
  ds_bands ds <> [] ->
  (lower filter = "lee"%string /\ f = LeeFilter
   \/ lower filter = "elee"%string /\ f = EnhancedLeeFilter) ->
  (forall plane w0, call_filter f plane kw w0 = (Raise e, w0)) ->
  exists w',
    filter_image img output filter kw w = (Raise e, w')
    /\ w_data w'
       = match output with
         | None => w_data w
         | Some path => w_data w ++ [Dataset path (Gdal.zeros_like <$> ds_bands ds)]
         end
    /\ w_log w'
       = w_log w ++ [EvReadAsArray img]
           ++ match output with
              | None => []
              | Some path => [EvClone img path (length (w_data w))]
              end
           ++ [EvPrintBand 1].
Proof.
  intros Hds Hne Hname Hcall. destruct w as [h dd ll]. cbn [w_data w_log] in *.
  destruct ds as [p B]. cbn [ds_path ds_bands] in *.
  destruct B as [| b B]; [contradiction |].
  unfold filter_image.
  erewrite bind_ok by (apply select_filter_run; exact Hname).
  unfold Gdal.ReadAsArray.
  rewrite bind_assoc.
  erewrite bind_ok by (unfold Gdal.dataset_of; cbn [w_data]; rewrite Hds; reflexivity).
  rewrite bind_assoc. cbn [ds_bands].
  erewrite bind_ok by apply new_all_run.
  rewrite bind_assoc.
  erewrite bind_ok by (unfold log; reflexivity).
  rewrite bind_ret. cbv zeta. rewrite arr_planes.
  unfold add_event. cbn [w_heap w_data w_log].
  destruct output as [path |].
  - erewrite bind_ok
      by (unfold Gdal.cloneRaster; erewrite bind_ok
            by (unfold Gdal.dataset_of; cbn [w_data]; rewrite Hds; reflexivity);
          reflexivity).
    unfold add_event, set_data. cbn [w_heap w_data w_log ds_bands].
    erewrite bind_ok
      by (unfold Gdal.RasterCount; erewrite bind_ok
            by (unfold Gdal.dataset_of; cbn [w_data];
                rewrite (lookup_app_l_Some _ _ _ _ Hds); reflexivity);
          reflexivity).
    cbn [ds_bands length seq for_each].
    erewrite bind_fail.
    2:{ erewrite bind_fail; [reflexivity |].
        erewrite bind_ok by (unfold log; reflexivity).
        erewrite bind_ok by (unfold plane_of; cbn; reflexivity).
        erewrite bind_fail by apply Hcall. reflexivity. }
    eexists. split; [reflexivity |]. unfold add_event. cbn [w_data w_log].
    split; [reflexivity |]. rewrite <- !app_assoc. reflexivity.
  - rewrite bind_ret.
    erewrite bind_ok
      by (unfold Gdal.RasterCount; erewrite bind_ok
            by (unfold Gdal.dataset_of; cbn [w_data]; rewrite Hds; reflexivity);
          reflexivity).
    cbn [ds_bands length seq for_each].
    erewrite bind_fail.
    2:{ erewrite bind_fail; [reflexivity |].
        erewrite bind_ok by (unfold log; reflexivity).
        erewrite bind_ok by (unfold plane_of; cbn; reflexivity).
        erewrite bind_fail by apply Hcall. reflexivity. }
    eexists. split; [reflexivity |]. unfold add_event. cbn [w_data w_log].
    split; [reflexivity |]. rewrite <- !app_assoc. reflexivity.
Qed.

(** X14.  [lee_filter] has the parameters [img] and [window] only.  With
    [filter='lee'] and a keyword [looks], [df] or any other besides
    [window], the first call of the filter raises [TypeError]: the source
    has been read and the output raster, if one was asked for, created, and
    no band has been written. *)
Theorem filter_image_lee_with_other_keywords w img ds output filter kw :
  w_data w !! img = Some ds ->
  ds_bands ds <> [] ->
  lower filter = "lee"%string ->
  kw_fits LeeFilter kw = false ->
  exists w',
    filter_image img output filter kw w = (Raise TypeError, w')
    /\ w_data w'
       = match output with
         | None => w_data w
         | Some path => w_data w ++ [Dataset path (Gdal.zeros_like <$> ds_bands ds)]
         end
    /\ w_log w'
       = w_log w ++ [EvReadAsArray img]
           ++ match output with
              | None => []
              | Some path => [EvClone img path (length (w_data w))]
              end
           ++ [EvPrintBand 1].
Proof.
  intros Hds Hne Hname Hkw.
  apply (filter_image_first_call_fails w img ds output filter LeeFilter kw TypeError Hds Hne).
  - left. split; [exact Hname | reflexivity].
  - intros plane w0. unfold call_filter. unfold kw_fits in Hkw.
    destruct (kw_looks kw), (kw_df kw), (kw_other kw); try discriminate; reflexivity.
Qed.

Lemma filter_image_lee_with_other_keywords_witness :
  exists w',
    filter_image 0 None "Lee" (Kwargs (Some (WInt 5)) (Some 4%Z) None []) scene_world
    = (Raise TypeError, w')
    /\ w_data w' = [three_bands]
    /\ w_log w' = [EvReadAsArray 0; EvPrintBand 1].
Proof.
  apply (filter_image_lee_with_other_keywords scene_world 0 three_bands None "Lee"
           (Kwargs (Some (WInt 5)) (Some 4%Z) None [])).
  - reflexivity.
  - discriminate.
  - reflexivity.
  - reflexivity.
Defined.

End FirstCall.

(** X15.  [looks=0]: the quotient [1 / looks] of line 122 raises
    [ZeroDivisionError], for every image, window and damping factor.  By
    then line 121 has made the float32 copy, a new object; the caller's array
    and every other object that existed are as they were. *)
Theorem elee_zero_looks_raises w img a win df :
  w_heap w !! img = Some a ->
  enhanced_lee_filter img 0 win df w
  = (Raise ZeroDivisionError, set_heap (w_heap w ++ [Numpy.array a float32]) w)
  /\ (forall l x, w_heap w !! l = Some x ->
        (w_heap w ++ [Numpy.array a float32]) !! l = Some x).
Proof.
  intros Himg. split.
  - unfold enhanced_lee_filter, np_array.
    rewrite bind_assoc.
    erewrite bind_ok by (unfold deref; rewrite Himg; reflexivity).
    erewrite bind_ok by (unfold new; reflexivity).
    reflexivity.
  - intros l x Hl. apply lookup_app_l_Some. exact Hl.
Qed.

Lemma elee_zero_looks_raises_witness :
  enhanced_lee_filter 0%nat 0 (WInt 3) 1 (World [IntArr U8 [[7; 200]]] [] [])
  = (Raise ZeroDivisionError,
     set_heap ([IntArr U8 [[7; 200]]] ++ [Numpy.array (IntArr U8 [[7; 200]]) float32])
       (World [IntArr U8 [[7; 200]]] [] []))
  /\ (forall l x, [IntArr U8 [[7; 200]]] !! l = Some x ->
        ([IntArr U8 [[7; 200]]] ++ [Numpy.array (IntArr U8 [[7; 200]]) float32]) !! l = Some x).
Proof.
  apply (elee_zero_looks_raises (World [IntArr U8 [[7; 200]]] [] []) 0%nat
           (IntArr U8 [[7; 200]]) (WInt 3) 1).
  reflexivity.
Defined.

(** *** A negative [looks] *)

Lemma elee_pixel_nan_Cu Cmax df Ic Im S : elee_pixel S754_nan Cmax df Ic Im S = S754_nan.
Proof.
  unfold elee_pixel, times_bool. cbn zeta.
  rewrite sub_nan_r, mul_nan_r.
  change (IEEE.div IEEE.B32 S754_nan ?y) with S754_nan.
  change (IEEE.mul IEEE.B32 S754_nan ?y) with S754_nan.
  rewrite exp_nan, mul_nan_r.
  change (IEEE.add IEEE.B32 S754_nan ?y) with S754_nan.
  change (IEEE.mul IEEE.B32 S754_nan ?y) with S754_nan.
  rewrite add_nan_r. reflexivity.
Qed.

Lemma digits2_lower p : 2 ^ (Z.pos (digits2_pos p) - 1) <= Z.pos p.
Proof.
  induction p as [p IH | p IH |]; cbn [digits2_pos]; [| | cbn; lia].
  - rewrite Pos2Z.inj_succ. replace (Z.succ (Z.pos (digits2_pos p)) - 1) with (Z.succ (Z.pos (digits2_pos p) - 1)) by lia.
    rewrite Z.pow_succ_r by lia. lia.
  - rewrite Pos2Z.inj_succ. replace (Z.succ (Z.pos (digits2_pos p)) - 1) with (Z.succ (Z.pos (digits2_pos p) - 1)) by lia.
    rewrite Z.pow_succ_r by lia. lia.
Qed.

Lemma digits2_upper p : Z.pos p < 2 ^ Z.pos (digits2_pos p).
Proof.
  induction p as [p IH | p IH |]; cbn [digits2_pos]; [| | cbn; lia].
  - rewrite Pos2Z.inj_succ, Z.pow_succ_r by lia. lia.
  - rewrite Pos2Z.inj_succ, Z.pow_succ_r by lia. lia.
Qed.

Lemma digits_le m n : 0 < m < 2 ^ n -> 0 <= n -> Zdigits2 m <= n.
Proof.
  intros [Hm Hlt] Hn. destruct m as [| p | p]; try lia. cbn [Zdigits2].
  pose proof (digits2_lower p) as Hl.
  destruct (Z.le_gt_cases (Z.pos (digits2_pos p)) n) as [H | H]; [exact H |].
  assert (2 ^ n <= 2 ^ (Z.pos (digits2_pos p) - 1)) by (apply Z.pow_le_mono_r; lia).
  lia.
Qed.

Lemma shr_1_m m r s : 0 <= m -> shr_m (shr_1 {| shr_m := m; shr_r := r; shr_s := s |}) = Z.div2 m.
Proof. destruct m as [| [p | p |] | p]; try reflexivity; lia. Qed.

Lemma shr_fexp_small m e l :
  0 < m < 2 ^ 54 -> -1074 <= e ->
  Z.div2 m <= shr_m (fst (shr_fexp 53 1024 m e l)) <= m /\ e <= snd (shr_fexp 53 1024 m e l).
Proof.
  intros Hm He. unfold shr_fexp.
  pose proof (digits_le m 54 Hm ltac:(lia)) as Hd.
  assert (Hd0 : 0 < Zdigits2 m) by (destruct m; cbn; lia).
  set (k := fexp 53 1024 (Zdigits2 m + e) - e).
  assert (Hk : k <= 1) by (subst k; unfold fexp, emin; lia).
  assert (Hdiv : Z.div2 m <= m) by (rewrite Z.div2_div; apply Z.div_le_upper_bound; lia).
  assert (Hrec : shr_m (shr_record_of_loc m l) = m) by (destruct l as [| []]; reflexivity).
  destruct k as [| [q | q |] | q] eqn:Ek; try lia; cbn [shr fst snd]; rewrite ?Hrec; try lia.
  cbn [SpecFloat.iter_pos].
  destruct (shr_record_of_loc m l) as [m0 r0 s0] eqn:Er. cbn [shr_m] in Hrec. subst m0.
  rewrite shr_1_m by lia. lia.
Qed.

Lemma round_bounds m l : m <= round_nearest_even m l <= m + 1.
Proof. destruct l as [| []]; cbn [round_nearest_even]; try lia. destruct (Z.even m); lia. Qed.

Lemma round_keeps_sign sx m e l :
  2 ^ 52 <= m <= 2 ^ 53 -> -1074 <= e ->
  (exists m' e', binary_round_aux 53 1024 sx m e l = S754_finite sx m' e')
  \/ binary_round_aux 53 1024 sx m e l = S754_infinity sx.
Proof.
  intros Hm He. unfold binary_round_aux.
  pose proof (shr_fexp_small m e l ltac:(lia) He) as [H1 H1e].
  destruct (shr_fexp 53 1024 m e l) as [mrs' e']. cbn [fst snd] in *.
  pose proof (round_bounds (shr_m mrs') (loc_of_shr_record mrs')) as Hr.
  set (m1 := round_nearest_even (shr_m mrs') (loc_of_shr_record mrs')) in *.
  assert (Hdiv : 2 ^ 51 <= Z.div2 m).
  { rewrite Z.div2_div. apply Z.div_le_lower_bound; lia. }
  assert (Hm1 : 0 < m1 < 2 ^ 54) by lia.
  pose proof (shr_fexp_small m1 e' loc_Exact Hm1 ltac:(lia)) as [H2 H2e].
  destruct (shr_fexp 53 1024 m1 e' loc_Exact) as [mrs'' e'']. cbn [fst snd] in *.
  assert (Hdiv2 : 2 ^ 50 <= Z.div2 m1).
  { rewrite Z.div2_div. apply Z.div_le_lower_bound; lia. }
  destruct (shr_m mrs'') as [| q | q]; try lia.
  destruct (e'' <=? 1024 - 53); [left; eauto | right; reflexivity].
Qed.

Lemma pos_digits_bound p n : Z.pos p < 2 ^ n -> 0 <= n -> Z.pos (digits2_pos p) <= n.
Proof. intros H Hn. apply (digits_le (Z.pos p) n); lia. Qed.

Lemma one_over_negative_int p :
  Z.pos p < 2 ^ 1000 ->
  (exists m e, IEEE.div IEEE.B64 (int_as_float 1) (int_as_float (Z.neg p)) = S754_finite true m e)
  \/ IEEE.div IEEE.B64 (int_as_float 1) (int_as_float (Z.neg p)) = S754_infinity true.
Proof.
  intros Hp. unfold IEEE.div. cbn [int_as_float SFdiv IEEE.prec IEEE.emax xorb].
  unfold SFdiv_core_binary. cbn [Zdigits2 digits2_pos].
  pose proof (digits2_lower p) as Hlo. pose proof (digits2_upper p) as Hup.
  pose proof (pos_digits_bound p 1000 Hp ltac:(lia)) as Hd.
  set (dp := digits2_pos p) in *.
  assert (He : Z.min (fexp 53 1024 (1 + 0 - (Z.pos dp + 0))) (0 - 0) = - Z.pos (52 + dp))
    by (unfold fexp, emin; lia).
  rewrite He.
  replace (0 - 0 - - Z.pos (52 + dp)) with (Z.pos (52 + dp)) by lia.
  cbv zeta.
  destruct (Z.div_eucl (Z.shiftl 1 (Z.pos (52 + dp))) (Z.pos p)) as [q r] eqn:E.
  assert (Hq : q = Z.shiftl 1 (Z.pos (52 + dp)) / Z.pos p) by (unfold Z.div; rewrite E; reflexivity).
  rewrite Z.shiftl_1_l in Hq.
  replace (Z.pos (52 + dp)) with (52 + Z.pos dp) in Hq by lia.
  rewrite Z.pow_add_r in Hq by lia.
  assert (Hpow : 2 ^ Z.pos dp = 2 * 2 ^ (Z.pos dp - 1)).
  { rewrite <- Z.pow_succ_r by lia. f_equal. lia. }
  apply round_keeps_sign; [| lia].
  subst q. split.
  - apply Z.div_le_lower_bound; nia.
  - apply Z.div_le_upper_bound; [lia |]. nia.
Qed.

Lemma elee_Cu_negative_looks looks :
  - 2 ^ 1000 < looks < 0 -> elee_Cu looks = S754_nan.
Proof.
  intros [Hlo Hneg]. destruct looks as [| p | p]; try lia.
  unfold elee_Cu.
  destruct (one_over_negative_int p ltac:(lia)) as [(m & e & ->) | ->]; reflexivity.
Qed.

(** X16.  [looks] is not checked.  For a negative [looks], [1 / looks] is a
    negative number, its square root [Cu] a NaN, no comparison with [Cu]
    holds, the masked exponent is [NaN * 0 = NaN], and every entry of the
    output of [enhanced_lee_filter] is NaN, whatever the image is.  (The
    bound on [looks] keeps [1 / looks] from rounding to -0.0.) *)
Theorem elee_negative_looks_gives_nan w img a looks win df i j x :
  w_heap w !! img = Some a ->
  - 2 ^ 1000 < looks < 0 ->
  mget (Numpy.as_float IEEE.B32 a) i j = Some x ->
  exists r w' out,
    enhanced_lee_filter img looks win df w = (Ok r, w')
    /\ w_heap w' !! r = Some (FloatArr IEEE.B32 out)
    /\ mget out i j = Some S754_nan.
Proof.
  intros Himg Hlooks Hx.
  destruct (pixel_stats win _ i j x Hx) as (m & q & Hm & Hq).
  rewrite (enhanced_lee_filter_run w img a looks win df Himg ltac:(lia)).
  eexists _, _, _. split; [reflexivity |]. split.
  - cbn [set_heap w_heap]. apply elee_result_cell.
  - rewrite (elee_value_pixel looks df win _ i j x m q Hx Hm Hq).
    rewrite (elee_Cu_negative_looks looks Hlooks), elee_pixel_nan_Cu. reflexivity.
Qed.

Lemma elee_negative_looks_gives_nan_witness :
  exists r w' out,
    enhanced_lee_filter 0%nat (-4) (WInt 3) 1 (World [image [[1; 2]; [3; 5]]] [] []) = (Ok r, w')
    /\ w_heap w' !! r = Some (FloatArr IEEE.B32 out)
    /\ mget out 1 0 = Some S754_nan.
Proof.
  apply (elee_negative_looks_gives_nan
           (World [image [[1; 2]; [3; 5]]] [] []) 0%nat (image [[1; 2]; [3; 5]]) (-4) (WInt 3) 1
           1%nat 0%nat (f32 3)).
  - reflexivity.
  - split; [reflexivity | reflexivity].
  - reflexivity.
Defined.

(* ================================================================= *)
(** ** [window_stdev] with and without the precomputed means; element types
    (C10); windows of one pixel *)

Section Defaults.
Local Open Scope nat_scope.

(** X17.  The optional arguments of [window_stdev] change nothing in the
    result: given arrays that hold [uniform_filter(img, window)] and
    [uniform_filter(img**2, window)], the call returns the same values as the
    call that computes them itself.  This holds for every float array. *)
Theorem window_stdev_precomputed_means w img f d win m q :
  w_heap w !! img = Some (FloatArr f d) ->
  w_heap w !! m = Some (Numpy.uniform_filter (FloatArr f d) (sizes win)) ->
  w_heap w !! q = Some (Numpy.uniform_filter (Numpy.square (FloatArr f d)) (sizes win)) ->
  exists r1 w1 r2 w2 v,
    window_stdev img win None None w = (Ok r1, w1)
    /\ window_stdev img win (Some m) (Some q) w = (Ok r2, w2)
    /\ w_heap w1 !! r1 = Some v
    /\ w_heap w2 !! r2 = Some v.
Proof.
  destruct w as [h dd ll]. cbn [w_heap]. intros Ha Hm Hq.
  assert (E : World h dd ll = World (h ++ []) dd ll) by (rewrite app_nil_r; reflexivity).
  rewrite E. clear E.
  unfold window_stdev.
  heap_run. rewrite !new_frame. cbn [length Nat.add app].
  eexists _, _, _, _, _.
  split; [reflexivity |]. split; [reflexivity |]. cbn [w_heap].
  split; [apply (lookup_cell _ 2); reflexivity |].
  rewrite ?Nat.add_0_r; apply lee2_result_cell.
Qed.

Lemma window_stdev_precomputed_means_witness :
  exists r1 w1 r2 w2 v,
    window_stdev 0 (WInt 2) None None
      (World [FloatArr IEEE.B32 near_one;
              Numpy.uniform_filter (FloatArr IEEE.B32 near_one) (sizes (WInt 2));
              Numpy.uniform_filter (Numpy.square (FloatArr IEEE.B32 near_one)) (sizes (WInt 2))] [] [])
    = (Ok r1, w1)
    /\ window_stdev 0 (WInt 2) (Some 1) (Some 2)
         (World [FloatArr IEEE.B32 near_one;
                 Numpy.uniform_filter (FloatArr IEEE.B32 near_one) (sizes (WInt 2));
                 Numpy.uniform_filter (Numpy.square (FloatArr IEEE.B32 near_one)) (sizes (WInt 2))] [] [])
       = (Ok r2, w2)
    /\ w_heap w1 !! r1 = Some v
    /\ w_heap w2 !! r2 = Some v.
Proof.
  apply (window_stdev_precomputed_means
           (World [FloatArr IEEE.B32 near_one;
                   Numpy.uniform_filter (FloatArr IEEE.B32 near_one) (sizes (WInt 2));
                   Numpy.uniform_filter (Numpy.square (FloatArr IEEE.B32 near_one)) (sizes (WInt 2))] [] [])
           0 IEEE.B32 near_one (WInt 2) 1 2).
  - reflexivity.
  - reflexivity.
  - reflexivity.
Defined.

End Defaults.

Lemma dtype_lee2_output a win :
  dtype_of (lee2_output a win)
  = match a with IntArr _ _ => float64 | FloatArr f _ => DFloat f end.
Proof. destruct a as [[] rows | [] rows]; reflexivity. Qed.




(** X18.  [lee_filter2] converts nothing, so the element type of its result
    follows from numpy's promotion: float64 for an input of any integer
    type (the division and the float64 scalar [variance(img)] make it so),
    and the input's own type for a float32 or float64 input. *)
Theorem lee_filter2_result_type w img a win :
  w_heap w !! img = Some a ->
  exists r w' out,
    lee_filter2 img win w = (Ok r, w')
    /\ w_heap w' !! r = Some out
    /\ dtype_of out = match a with IntArr _ _ => float64 | FloatArr f _ => DFloat f end.
Proof.
  intros Himg. rewrite (lee_filter2_run_any w img a win Himg).
  eexists _, _, _. split; [reflexivity |]. cbn [set_heap w_heap].
  split; [apply lee2_result_cell | apply dtype_lee2_output].
Qed.

Lemma lee_filter2_result_type_witness :
  exists r w' out,
    lee_filter2 0%nat lee_filter2_window (World [IntArr U16 [[7; 200]; [3; 1]]] [] []) = (Ok r, w')
    /\ w_heap w' !! r = Some out
    /\ dtype_of out = float64.
Proof.
  apply (lee_filter2_result_type (World [IntArr U16 [[7; 200]; [3; 1]]] [] []) 0%nat
           (IntArr U16 [[7; 200]; [3; 1]]) lee_filter2_window).
  reflexivity.
Defined.

(** *** A window of one pixel *)

Lemma sub_self f q : finite q = true -> IEEE.sub f q q = S754_zero false.
Proof.
  destruct q as [[|] | | | s m e]; try discriminate; intros _; try reflexivity.
  unfold IEEE.sub. cbn [SFsub]. cbv zeta. rewrite Z.sub_diag. reflexivity.
Qed.

Lemma finite_square f x : finite (IEEE.mul f x x) = true -> finite x = true.
Proof. destruct x as [| [|] | |]; try reflexivity; discriminate. Qed.

Lemma box_one d : box (WInt 1) d = d.
Proof. reflexivity. Qed.

(** X19.  A window of one pixel is no window: [uniform_filter] skips every
    axis, the local mean is the pixel and the local variance is 0.  At every
    pixel whose square is finite, with a finite non-zero overall variance,
    [lee_filter] and [lee_filter2] with [window=1] return the pixel itself. *)
Theorem lee_window_of_one_pixel_is_identity w img d i j x :
  w_heap w !! img = Some (FloatArr IEEE.B32 d) ->
  mget d i j = Some x ->
  finite (IEEE.mul IEEE.B32 x x) = true ->
  x <> S754_zero true ->
  finite (lee_overall d) = true -> IEEE.nonzero (lee_overall d) = true ->
  finite (lee2_overall d) = true -> IEEE.nonzero (lee2_overall d) = true ->
  (exists r w' out,
     lee_filter img (WInt 1) w = (Ok r, w')
     /\ w_heap w' !! r = Some (FloatArr IEEE.B32 out)
     /\ mget out i j = Some x)
  /\ (exists r w' out,
        lee_filter2 img (WInt 1) w = (Ok r, w')
        /\ w_heap w' !! r = Some (FloatArr IEEE.B32 out)
        /\ mget out i j = Some x).
Proof.
  intros Himg Hx Hsq Hnz Hf1 Hn1 Hf2 Hn2.
  assert (Hm : mget (box (WInt 1) d) i j = Some x) by (rewrite box_one; exact Hx).
  assert (Hq : mget (box (WInt 1) (sq32 d)) i j = Some (IEEE.mul IEEE.B32 x x))
    by (rewrite box_one; unfold sq32; rewrite mget_mmap, Hx; reflexivity).
  pose proof (finite_square _ _ Hsq) as Hfx.
  assert (Hd : finite (IEEE.sub IEEE.B32 x x) = true) by (rewrite sub_self by exact Hfx; reflexivity).
  split.
  - rewrite (lee_filter_run w img _ (WInt 1) Himg), as_float_same.
    eexists _, _, _. split; [reflexivity |]. split.
    + cbn [set_heap w_heap]. apply lee_result_cell.
    + rewrite (lee_value_pixel (WInt 1) d i j x x _ Hx Hm Hq), sub_self by exact Hsq.
      f_equal. apply lee_pixel_flat; assumption.
  - rewrite (lee_filter2_run w img d (WInt 1) Himg).
    eexists _, _, _. split; [reflexivity |]. split.
    + cbn [set_heap w_heap]. apply lee2_result_cell.
    + rewrite (lee2_value_pixel (WInt 1) d i j x x _ Hx Hm Hq), sub_self by exact Hsq.
      f_equal. apply (lee_pixel_flat (lee2_overall d) false x x); assumption.
Qed.

Lemma lee_window_of_one_pixel_is_identity_witness :
  (exists r w' out,
     lee_filter 0%nat (WInt 1) (World [image [[1; 2]; [3; 5]]] [] []) = (Ok r, w')
     /\ w_heap w' !! r = Some (FloatArr IEEE.B32 out)
     /\ mget out 1 1 = Some (f32 5))
  /\ (exists r w' out,
        lee_filter2 0%nat (WInt 1) (World [image [[1; 2]; [3; 5]]] [] []) = (Ok r, w')
        /\ w_heap w' !! r = Some (FloatArr IEEE.B32 out)
        /\ mget out 1 1 = Some (f32 5)).
Proof.
  apply (lee_window_of_one_pixel_is_identity
           (World [image [[1; 2]; [3; 5]]] [] []) 0%nat (mmap f32 [[1; 2]; [3; 5]]) 1%nat 1%nat (f32 5)).
  - reflexivity.
  - reflexivity.
  - reflexivity.
  - discriminate.
  - vm_compute. reflexivity.
  - vm_compute. reflexivity.
  - vm_compute. reflexivity.
  - vm_compute. reflexivity.
Defined.

(* ================================================================= *)
(** ** [orthorectify_dem_rpc]: the output type *)

Lemma foldl_max_ge (l : list Z) x : x <= foldl Z.max x l.
Proof.
  revert x. induction l as [| y l IH]; intros x; cbn [foldl]; [lia |].
  specialize (IH (Z.max x y)). lia.
Qed.

Lemma foldl_max_bound (l : list Z) x y : y ∈ l -> y <= foldl Z.max x l.
Proof.
  revert x. induction l as [| z l IH]; intros x H; [apply elem_of_nil in H; contradiction |].
  cbn [foldl]. apply elem_of_cons in H as [-> | H].
  - pose proof (foldl_max_ge l (Z.max x z)). lia.
  - apply IH, H.
Qed.

Lemma foldl_max_elem (l : list Z) x : foldl Z.max x l = x \/ foldl Z.max x l ∈ l.
Proof.
  revert x. induction l as [| z l IH]; intros x; cbn [foldl]; [left; reflexivity |].
  destruct (IH (Z.max x z)) as [E | E].
  - rewrite E. destruct (Z.max_spec x z) as [[_ ->] | [_ ->]]; [right; left | left; reflexivity].
  - right. right. exact E.
Qed.

(** X20.  Without [dtype], [orthorectify_dem_rpc] takes the largest GDAL
    type code among the bands.  On a data set without bands [max] has
    nothing to choose from: the call raises [ValueError] and [gdal.Warp] is
    not called. *)
Theorem orthorectify_dem_rpc_without_bands input output DEM :
  ds_bands input = [] ->
  orthorectify_dem_rpc input output DEM None = (Raise ValueError, []).
Proof. intros H. unfold orthorectify_dem_rpc. rewrite H. reflexivity. Qed.

Lemma orthorectify_dem_rpc_without_bands_witness :
  orthorectify_dem_rpc (Dataset "scene.tif" []) "ortho.tif" "dem.tif" None
  = (Raise ValueError, []).
Proof.
  apply (orthorectify_dem_rpc_without_bands (Dataset "scene.tif" []) "ortho.tif" "dem.tif").
  reflexivity.
Defined.

(** X21.  On a data set with bands and no [dtype] given, the one call made
    is [gdal.Warp(output, input, options)] with the DEM as the only
    transformer option, and the output type is the type code of one of the
    bands, below which no band's code lies.  (The codes are not ordered by
    range: for a UInt16 and an Int16 band the choice is Int16.)  A [dtype]
    that is given is passed on as it is. *)
Theorem orthorectify_dem_rpc_output_type input output DEM :
  ds_bands input <> [] ->
  exists t,
    orthorectify_dem_rpc input output DEM None
    = (Ok true,
       [GdalWarp output input
          (MkWarpOptions [String.append "RPC_DEM=" DEM]
             ["TILED=YES"; "BLOCKXSIZE=256"; "BLOCKYSIZE=256"]%string true true t)])
    /\ (exists b, b ∈ ds_bands input /\ DataType b = t)
    /\ (forall b, b ∈ ds_bands input -> DataType b <= t)
    /\ (forall t', outputType_of (orthorectify_dem_rpc input output DEM (Some t')) = Some t').
Proof.
  intros Hne. unfold orthorectify_dem_rpc.
  destruct (ds_bands input) as [| b bs] eqn:E; [contradiction |].
  rewrite fmap_cons. cbn [py_max].
  eexists. split; [reflexivity |]. split; [| split].
  - destruct (foldl_max_elem (DataType <$> bs) (DataType b)) as [H | H].
    + exists b. split; [left | symmetry; exact H].
    + apply list_elem_of_fmap in H as (b' & Hb & Hin).
      exists b'. split; [right; exact Hin | symmetry; exact Hb].
  - intros b' [-> | Hin]%elem_of_cons.
    + apply foldl_max_ge.
    + apply foldl_max_bound, list_elem_of_fmap. exists b'. split; [reflexivity | exact Hin].
  - intros t'. reflexivity.
Qed.

Lemma orthorectify_dem_rpc_output_type_witness :
  exists t,
    orthorectify_dem_rpc (Dataset "scene.tif" [IntArr U16 [[40000]]; IntArr I16 [[-5]]])
      "ortho.tif" "dem.tif" None
    = (Ok true,
       [GdalWarp "ortho.tif" (Dataset "scene.tif" [IntArr U16 [[40000]]; IntArr I16 [[-5]]])
          (MkWarpOptions ["RPC_DEM=dem.tif"]
             ["TILED=YES"; "BLOCKXSIZE=256"; "BLOCKYSIZE=256"]%string true true t)])
    /\ (exists b, b ∈ [IntArr U16 [[40000]]; IntArr I16 [[-5]]] /\ DataType b = t)
    /\ (forall b, b ∈ [IntArr U16 [[40000]]; IntArr I16 [[-5]]] -> DataType b <= t)
    /\ (forall t',
          outputType_of
            (orthorectify_dem_rpc (Dataset "scene.tif" [IntArr U16 [[40000]]; IntArr I16 [[-5]]])
               "ortho.tif" "dem.tif" (Some t')) = Some t').
Proof.
  apply (orthorectify_dem_rpc_output_type
           (Dataset "scene.tif" [IntArr U16 [[40000]]; IntArr I16 [[-5]]]) "ortho.tif" "dem.tif").
  discriminate.
Defined.

(* ================================================================= *)
(** ** Paths *)

(** The path functions on the examples of Python's reference pages for
    [os.path]: the extension is what follows the last dot of the last
    component, leading dots belong to the root, and [basename] of a path
    that ends in a slash is empty. *)
Example os_path_doc :
  splitext "foo.bar.exe" = ("foo.bar", ".exe")%string
  /\ splitext "/foo/bar.exe" = ("/foo/bar", ".exe")%string
  /\ splitext ".cshrc" = (".cshrc", "")%string
  /\ splitext "/foo/....jpg" = ("/foo/....jpg", "")%string
  /\ basename "/foo/bar" = "bar"%string
  /\ basename "/foo/bar/" = ""%string
  /\ join "/foo" "bar" = "/foo/bar"%string
  /\ join "/foo/" "bar" = "/foo/bar"%string
  /\ join "" "bar" = "bar"%string
  /\ join "/foo" "/bar" = "/bar"%string.
Proof. vm_compute. repeat split; reflexivity. Qed.

Section Paths.
Local Open Scope nat_scope.

Lemma app_nil_str s : String.append EmptyString s = s.
Proof. reflexivity. Qed.

Lemma app_cons_str x p s : String.append (String x p) s = String x (String.append p s).
Proof. reflexivity. Qed.

Lemma rfind_bounds c s : (-1 <= rfind c s < Z.of_nat (String.length s))%Z.
Proof.
  induction s as [| x s IH]; cbn [rfind String.length]; [lia |].
  cbv zeta. destruct (Z.leb_spec 0 (rfind c s)); [lia |].
  destruct (Ascii.eqb x c); lia.
Qed.

Lemma rfind_app c p s :
  rfind c (String.append p s)
  = if (0 <=? rfind c s)%Z then (Z.of_nat (String.length p) + rfind c s)%Z else rfind c p.
Proof.
  induction p as [| x p IH]; rewrite ?app_nil_str, ?app_cons_str; cbn [rfind String.length].
  - destruct (Z.leb_spec 0 (rfind c s)); [reflexivity |].
    pose proof (rfind_bounds c s). lia.
  - cbv zeta. rewrite IH.
    destruct (Z.leb_spec 0 (rfind c s)) as [H | H].
    + destruct (Z.leb_spec 0 (Z.of_nat (String.length p) + rfind c s)); lia.
    + reflexivity.
Qed.

Lemma str_take_app p s : str_take (String.length p) (String.append p s) = p.
Proof.
  induction p as [| x p IH]; rewrite ?app_nil_str, ?app_cons_str; cbn [String.length str_take].
  - destruct s; reflexivity.
  - rewrite IH. reflexivity.
Qed.

Lemma str_drop_app p s : str_drop (String.length p) (String.append p s) = s.
Proof.
  induction p as [| x p IH]; rewrite ?app_nil_str, ?app_cons_str; cbn [String.length str_drop];
    [reflexivity | exact IH].
Qed.

Lemma str_drop_app_l i p s :
  i <= String.length p -> str_drop i (String.append p s) = String.append (str_drop i p) s.
Proof.
  revert i. induction p as [| x p IH]; intros i Hi; cbn [String.length] in Hi.
  - replace i with 0 by lia. reflexivity.
  - destruct i as [| i]; [reflexivity |].
    rewrite app_cons_str. cbn [str_drop]. apply IH. lia.
Qed.

Lemma get_app_l k p s :
  k < String.length p -> String.get k (String.append p s) = String.get k p.
Proof.
  revert k. induction p as [| x p IH]; intros k Hk; cbn [String.length] in Hk; [lia |].
  rewrite app_cons_str. destruct k as [| k]; [reflexivity |].
  cbn [String.get]. apply IH. lia.
Qed.

Lemma has_stem_app steps i p s :
  i + steps <= String.length p ->
  has_stem steps i (String.append p s) = has_stem steps i p.
Proof.
  revert i. induction steps as [| n IH]; intros i Hi; [reflexivity |].
  cbn [has_stem]. rewrite get_app_l by lia.
  destruct (String.get i p) as [c |]; [| reflexivity].
  destruct (Ascii.eqb c "."); [apply IH; lia | reflexivity].
Qed.

Lemma get_drop i k p : String.get k (str_drop i p) = String.get (i + k) p.
Proof.
  revert p. induction i as [| i IH]; intros p; [reflexivity |].
  destruct p as [| x p]; [destruct k; reflexivity |]. cbn. apply IH.
Qed.

Lemma has_stem_drop steps i k p :
  has_stem steps k (str_drop i p) = has_stem steps (i + k) p.
Proof.
  revert k. induction steps as [| n IH]; intros k; [reflexivity |].
  cbn [has_stem]. rewrite get_drop.
  destruct (String.get (i + k) p) as [c |]; [| reflexivity].
  destruct (Ascii.eqb c "."); [| reflexivity].
  rewrite IH. f_equal. lia.
Qed.

Lemma length_drop_str i p : String.length (str_drop i p) = String.length p - i.
Proof.
  revert p. induction i as [| i IH]; intros p; [cbn; lia |].
  destruct p as [| x p]; [reflexivity |]. cbn. apply IH.
Qed.

Lemma rfind_drop c i p : (rfind c p < Z.of_nat i)%Z -> rfind c (str_drop i p) = (-1)%Z.
Proof.
  revert p. induction i as [| i IH]; intros p H.
  - pose proof (rfind_bounds c p). cbn. lia.
  - destruct p as [| x p]; [reflexivity |]. cbn [str_drop]. apply IH.
    cbn [rfind] in H. cbv zeta in H.
    destruct (Z.leb_spec 0 (rfind c p)); [lia |].
    pose proof (rfind_bounds c p). lia.
Qed.

(** A path with an extension added splits back into the two. *)
Lemma splitext_add_extension p e :
  named p = true -> rfind "." e = (-1)%Z -> rfind "/" e = (-1)%Z ->
  splitext (String.append p (String "." e)) = (p, String "." e).
Proof.
  intros Hn Hd Hs. unfold splitext.
  assert (Hdot : rfind "." (String.append p (String "." e)) = Z.of_nat (String.length p)).
  { rewrite rfind_app. cbn [rfind]. cbv zeta. rewrite Hd. cbn. lia. }
  assert (Hsep : rfind "/" (String.append p (String "." e)) = rfind "/" p).
  { rewrite rfind_app. cbn [rfind]. cbv zeta. rewrite Hs. reflexivity. }
  rewrite Hdot, Hsep. cbv zeta.
  pose proof (rfind_bounds "/" p) as Hb.
  destruct (Z.ltb_spec (rfind "/" p) (Z.of_nat (String.length p))); [| lia].
  cbn [andb]. rewrite Nat2Z.id.
  unfold named in Hn.
  replace (Z.to_nat (Z.of_nat (String.length p) - (rfind "/" p + 1)))
    with (String.length p - Z.to_nat (rfind "/" p + 1)) by lia.
  rewrite has_stem_app by lia. rewrite Hn.
  rewrite str_take_app, str_drop_app. reflexivity.
Qed.

Lemma basename_add_extension p e :
  rfind "/" e = (-1)%Z ->
  basename (String.append p (String "." e)) = String.append (basename p) (String "." e).
Proof.
  intros Hs. unfold basename. rewrite rfind_app. cbn [rfind]. cbv zeta. rewrite Hs. cbn [Z.leb Z.compare Ascii.eqb].
  change (0 <=? -1)%Z with false. cbn iota.
  replace (if (("." =? "/")%char) then 0%Z else (-1)%Z) with (-1)%Z by reflexivity.
  cbn iota. pose proof (rfind_bounds "/" p).
  apply str_drop_app_l. lia.
Qed.

Lemma named_basename p : named p = true -> named (basename p) = true.
Proof.
  unfold named, basename. intros H.
  pose proof (rfind_bounds "/" p) as Hb.
  rewrite rfind_drop by lia. cbn [Z.add Z.to_nat].
  rewrite has_stem_drop, length_drop_str, Nat.sub_0_r, Nat.add_0_r. exact H.
Qed.

Lemma rfind_sep_basename p : rfind "/" (basename p) = (-1)%Z.
Proof. unfold basename. pose proof (rfind_bounds "/" p). apply rfind_drop. lia. Qed.

End Paths.

(* ================================================================= *)
(** ** [launch_forest.py]: archives and their working directories *)

Lemma run_calls_ok fails cs :
  (forall c, c ∈ cs -> fails c = None) -> run_calls fails cs = (None, cs).
Proof.
  induction cs as [| c cs IH]; intros H; [reflexivity |].
  cbn [run_calls]. rewrite (H c) by left.
  rewrite IH by (intros c' Hc'; apply H; right; exact Hc'). reflexivity.
Qed.

Lemma run_calls_sublist fails cs c : c ∈ snd (run_calls fails cs) -> c ∈ cs.
Proof.
  induction cs as [| c0 cs IH]; cbn [run_calls]; [intros H; exact H |].
  destruct (fails c0); cbn [snd].
  - intros H%list_elem_of_singleton. subst. left.
  - intros [-> | H]%elem_of_cons; [left | right; apply IH, H].
Qed.

Lemma append_inj_l p s t : String.append p s = String.append p t -> s = t.
Proof.
  induction p as [| x p IH]; rewrite ?app_nil_str, ?app_cons_str; [intros H; exact H |].
  intros [= H]. apply IH, H.
Qed.

Lemma append_assoc_str p s t :
  String.append (String.append p s) t = String.append p (String.append s t).
Proof.
  induction p as [| x p IH]; rewrite ?app_nil_str, ?app_cons_str; [reflexivity |].
  rewrite IH. reflexivity.
Qed.

(** X22.  [untar_VRT] binds [fh] for the extensions [.tar] and [.zip] only,
    compared as they are written.  For any other path (no extension,
    [.TAR], [.tgz], [.tar.gz], whose extension is [.gz]) the call logs the
    path and then raises [UnboundLocalError]: no archive is opened and
    nothing is extracted. *)
Theorem untar_VRT_other_extension fails cur_file :
  snd (splitext cur_file) <> ".tar"%string ->
  snd (splitext cur_file) <> ".zip"%string ->
  untar_VRT fails cur_file
  = (Raise UnboundLocalError, [LoggingInfo (String.append "using " cur_file)]).
Proof.
  intros H1 H2. unfold untar_VRT. cbv zeta.
  apply String.eqb_neq in H1, H2. rewrite H1, H2. reflexivity.
Qed.

Lemma untar_VRT_other_extension_witness :
  untar_VRT (fun _ => None) "jobs/scene_01.tar.gz"
  = (Raise UnboundLocalError, [LoggingInfo "using jobs/scene_01.tar.gz"]).
Proof.
  apply (untar_VRT_other_extension (fun _ => None) "jobs/scene_01.tar.gz").
  - vm_compute. discriminate.
  - vm_compute. discriminate.
Defined.

(** X23.  The manifest entry and the archive agree.  For an entry
    [p + '.tar'] whose last component has a character other than a dot,
    [get_cur_file] gives the working directory [p] and the VRT
    [p/<last component of p>.vrt]; [untar_VRT] of the same path, when the
    archive opens and extracts, opens it for reading, extracts into [p] and
    returns the same two paths. *)
Theorem manifest_entry_and_archive_agree fails manifest_get_next folder p :
  named p = true ->
  manifest_get_next (join folder "manifest.txt") = String.append p ".tar" ->
  fails (TarfileOpen (String.append p ".tar") "r") = None ->
  fails (ExtractAll (String.append p ".tar") p) = None ->
  get_cur_file manifest_get_next folder
  = (join p (String.append (basename p) ".vrt"), p)
  /\ untar_VRT fails (String.append p ".tar")
     = (Ok (join p (String.append (basename p) ".vrt"), p),
        [LoggingInfo (String.append "using " (String.append p ".tar"));
         TarfileOpen (String.append p ".tar") "r";
         ExtractAll (String.append p ".tar") p]).
Proof.
  intros Hn Hnext Ho He.
  assert (Hsplit : splitext (String.append p ".tar") = (p, ".tar"%string))
    by (apply splitext_add_extension; [exact Hn | reflexivity | reflexivity]).
  assert (Hbase : fst (splitext (basename (String.append p ".tar"))) = basename p).
  { rewrite (basename_add_extension p "tar") by reflexivity.
    rewrite splitext_add_extension; [reflexivity | | reflexivity | reflexivity].
    apply named_basename, Hn. }
  split.
  - unfold get_cur_file. cbv zeta. rewrite Hnext, Hsplit, Hbase. reflexivity.
  - unfold untar_VRT. cbv zeta. rewrite Hsplit, Hbase. cbn [fst snd].
    change (String.eqb ".tar" ".tar") with true. cbn iota.
    rewrite run_calls_ok; [reflexivity |].
    intros c [-> | [-> | []%elem_of_nil]%elem_of_cons]%elem_of_cons; assumption.
Qed.

Lemma manifest_entry_and_archive_agree_witness :
  get_cur_file (fun _ => "jobs/scene_01.tar"%string) "/data/watch"
  = ("jobs/scene_01/scene_01.vrt"%string, "jobs/scene_01"%string)
  /\ untar_VRT (fun _ => None) "jobs/scene_01.tar"
     = (Ok ("jobs/scene_01/scene_01.vrt"%string, "jobs/scene_01"%string),
        [LoggingInfo "using jobs/scene_01.tar";
         TarfileOpen "jobs/scene_01.tar" "r";
         ExtractAll "jobs/scene_01.tar" "jobs/scene_01"]).
Proof.
  apply (manifest_entry_and_archive_agree
           (fun _ => None) (fun _ => "jobs/scene_01.tar"%string) "/data/watch" "jobs/scene_01").
  - reflexivity.
  - reflexivity.
  - reflexivity.
  - reflexivity.
Defined.

Lemma join_keeps_suffix a b : exists s, join a b = String.append s b.
Proof.
  unfold join. destruct (starts_with_sep b).
  - exists EmptyString. reflexivity.
  - destruct (String.eqb a EmptyString || ends_with_sep a).
    + exists a. reflexivity.
    + exists (String.append a "/"). rewrite append_assoc_str. reflexivity.
Qed.

Lemma append_not_empty s x t : String.append s (String x t) <> EmptyString.
Proof. destruct s; discriminate. Qed.

(** X24.  Whatever the manifest hands back, the first path [get_cur_file]
    returns ends in [.vrt]; it is never the empty string, so a test for an
    empty path on it cannot succeed. *)
Theorem get_cur_file_ends_in_vrt manifest_get_next folder :
  (exists s, fst (get_cur_file manifest_get_next folder) = String.append s ".vrt")
  /\ fst (get_cur_file manifest_get_next folder) <> EmptyString.
Proof.
  unfold get_cur_file. cbv zeta. cbn [fst].
  set (exdir := fst (splitext _)). set (fname := fst (splitext (basename _))).
  destruct (join_keeps_suffix exdir (String.append fname ".vrt")) as [s Hs].
  split.
  - exists (String.append s fname). rewrite Hs, append_assoc_str. reflexivity.
  - rewrite Hs, <- append_assoc_str. apply append_not_empty.
Qed.

(** X25.  [untar_VRT] extracts [.zip] archives as well, but [clean_up]
    removes the extracted directory and the file [<directory>.tar]: after
    a [.zip] archive [p + '.zip'] was extracted into [p], the calls of
    [clean_up(p)] are among [rmtree(p)] and [os.remove(p + '.tar')], and
    none of them removes that archive, whichever of them fail. *)
Theorem clean_up_leaves_the_zip_archive fails p :
  named p = true ->
  fails (ZipFile (String.append p ".zip")) = None ->
  fails (ExtractAll (String.append p ".zip") p) = None ->
  (exists vrt,
     untar_VRT fails (String.append p ".zip")
     = (Ok (vrt, p),
        [LoggingInfo (String.append "using " (String.append p ".zip"));
         ZipFile (String.append p ".zip");
         ExtractAll (String.append p ".zip") p]))
  /\ (forall c, c ∈ snd (clean_up fails p) ->
        c = Rmtree p \/ c = OsRemove (String.append p ".tar"))
  /\ ~ OsRemove (String.append p ".zip") ∈ snd (clean_up fails p).
Proof.
  intros Hn Ho He.
  assert (Hsplit : splitext (String.append p ".zip") = (p, ".zip"%string))
    by (apply splitext_add_extension; [exact Hn | reflexivity | reflexivity]).
  assert (Hcalls : forall c, c ∈ snd (clean_up fails p) ->
                     c = Rmtree p \/ c = OsRemove (String.append p ".tar")).
  { intros c Hin.
    assert (Hc : c ∈ clean_up_calls p).
    { apply (run_calls_sublist fails). unfold clean_up in Hin.
      destruct (run_calls fails (clean_up_calls p)) as [[e |] cs]; exact Hin. }
    unfold clean_up_calls in Hc.
    apply elem_of_cons in Hc as [Hc | Hc]; [left; exact Hc |].
    apply list_elem_of_singleton in Hc. right. exact Hc. }
  split; [| split].
  - eexists. unfold untar_VRT. cbv zeta. rewrite Hsplit. cbn [fst snd].
    change (String.eqb ".zip" ".tar") with false.
    change (String.eqb ".zip" ".zip") with true. cbn iota.
    rewrite run_calls_ok; [reflexivity |].
    intros c [-> | [-> | []%elem_of_nil]%elem_of_cons]%elem_of_cons; assumption.
  - exact Hcalls.
  - intros Hin. destruct (Hcalls _ Hin) as [Hc | Hc]; [discriminate |].
    injection Hc as Hc. apply append_inj_l in Hc. discriminate.
Qed.

Lemma clean_up_leaves_the_zip_archive_witness :
  (exists vrt,
     untar_VRT (fun _ => None) "jobs/scene_01.zip"
     = (Ok (vrt, "jobs/scene_01"%string),
        [LoggingInfo "using jobs/scene_01.zip";
         ZipFile "jobs/scene_01.zip";
         ExtractAll "jobs/scene_01.zip" "jobs/scene_01"]))
  /\ (forall c, c ∈ snd (clean_up (fun _ => None) "jobs/scene_01") ->
        c = Rmtree "jobs/scene_01" \/ c = OsRemove "jobs/scene_01.tar")
  /\ ~ OsRemove "jobs/scene_01.zip" ∈ snd (clean_up (fun _ => None) "jobs/scene_01").
Proof.
  apply (clean_up_leaves_the_zip_archive (fun _ => None) "jobs/scene_01").
  - reflexivity.
  - reflexivity.
  - reflexivity.
Defined.

(** X26.  [failure] writes its flag file at
    [os.path.join(images_output_dir, cur_file + '.failed')].  When
    [cur_file] is an absolute path, [join] drops the output directory:
    whichever calls fail, the only file [failure] writes is
    [cur_file + '.failed'], whatever [images_output_dir] is.  When the three
    removals and the write succeed, [failure] removes [output_h5], the
    extracted directory and its [.tar], writes the message and leaves
    through [sys.exit(0)]. *)
Theorem failure_flag_file_of_absolute_path fails output_h5 exdir cur_file images_output_dir msg :
  starts_with_sep cur_file = true ->
  (forall path text,
     WriteFile path text ∈ snd (failure fails output_h5 exdir cur_file images_output_dir msg) ->
     path = String.append cur_file ".failed" /\ text = msg)
  /\ (fails (OsRemove output_h5) = None ->
      fails (Rmtree exdir) = None ->
      fails (OsRemove (String.append exdir ".tar")) = None ->
      fails (WriteFile (String.append cur_file ".failed") msg) = None ->
      failure fails output_h5 exdir cur_file images_output_dir msg
      = (Raise SystemExit,
         [OsRemove output_h5; Rmtree exdir; OsRemove (String.append exdir ".tar");
          WriteFile (String.append cur_file ".failed") msg; SysExit 0])).
Proof.
  intros Habs.
  assert (Hj : join images_output_dir (String.append cur_file ".failed")
               = String.append cur_file ".failed").
  { unfold join. destruct cur_file as [| c s]; [discriminate |].
    rewrite app_cons_str. cbn [starts_with_sep] in *. rewrite Habs. reflexivity. }
  unfold failure. cbv zeta. rewrite Hj. split.
  - intros path text Hin.
    assert (Hc : WriteFile path text
                 ∈ (OsRemove output_h5 :: clean_up_calls exdir
                    ++ [WriteFile (String.append cur_file ".failed") msg]) ++ [SysExit 0]).
    { destruct (run_calls fails _) as [[e |] cs] eqn:E; cbn [snd] in Hin.
      - apply elem_of_app. left. apply (run_calls_sublist fails). rewrite E. exact Hin.
      - apply elem_of_app in Hin as [Hin | Hin].
        + apply elem_of_app. left. apply (run_calls_sublist fails). rewrite E. exact Hin.
        + apply elem_of_app. right. exact Hin. }
    unfold clean_up_calls in Hc. cbn [app] in Hc.
    repeat (apply elem_of_cons in Hc as [Hc | Hc]; [try discriminate |]).
    + injection Hc as -> ->. split; reflexivity.
    + apply elem_of_nil in Hc. destruct Hc.
  - intros H1 H2 H3 H4.
    rewrite run_calls_ok; [reflexivity |].
    unfold clean_up_calls. cbn [app]. intros c Hc.
    repeat (apply elem_of_cons in Hc as [-> | Hc]; [assumption |]).
    apply elem_of_nil in Hc. destruct Hc.
Qed.

Lemma failure_flag_file_of_absolute_path_witness :
  starts_with_sep "/data/vrt/scene_01.vrt" = true
  /\ failure (fun _ => None) "out/scene_01.h5" "/data/watch/scene_01"
       "/data/vrt/scene_01.vrt" "/data/classified" "no water"
     = (Raise SystemExit,
        [OsRemove "out/scene_01.h5"; Rmtree "/data/watch/scene_01";
         OsRemove "/data/watch/scene_01.tar";
         WriteFile "/data/vrt/scene_01.vrt.failed" "no water"; SysExit 0]).
Proof.
  split; [reflexivity |].
  apply (failure_flag_file_of_absolute_path (fun _ => None) "out/scene_01.h5"
           "/data/watch/scene_01" "/data/vrt/scene_01.vrt" "/data/classified" "no water");
    reflexivity.
Defined.
